(** * ntl containers and synchronisation primitives: a shallow embedding

    This development embeds the parts of the [ntl] library (namespace
    [ntl], directory [ntl/src]) that its specification makes claims about,
    and the methods around them:

    - [Array<T>]   ([data/Array.hpp]): insertion, removal, sub-arrays,
      copies, comparison, the two searches and the four sorts;
    - [Map<K,V>]   ([data/Map.hpp]): open addressing with linear probing,
      and the copy constructors;
    - [String]     ([data/String.cpp]): the constructors, [Append],
      [Find], [Remove], comparison and the two [Replace] overloads;
    - [SharedLock] ([os/SharedLock.cpp]): the reader/writer lock, as a
      step relation over its mutex-protected bodies, with the condition
      variables it broadcasts;
    - [Bitset<size>] ([data/Bitset.hpp]): the bit operations;
    - [List<T>], [Stack<T>], [Queue<T>] ([data/List.hpp],
      [data/Stack.hpp], [data/Queue.hpp]): the singly linked list over an
      explicit heap of nodes, and its two adapters.

    Modelling conventions.

    - A heap buffer ([new X[n]]) is a [list] of length [n].  In [Array],
      [String] and [Bitset] an index is a [Z], as the [Size], [I64] and
      [int] values of the source are; in [Map], where no index is ever
      negative, it is a [nat].  Sizes are taken small enough that index
      arithmetic does not wrap; where [U64] or [Size] wrap-around is
      part of the behaviour (the hash functions, the new length in
      [String::Replace], [String::Find], [m_size] of [List]) it is
      written out.
    - The nodes of a [List] live in a heap, a [list] of optional nodes
      indexed by address: [new Node] appends a slot, [delete] empties
      one, and a pointer is an address or [nullptr].
    - An element type of [Array] brings its four comparison operators
      (class [Comparison]); that they are those of one total order
      (class [Comparable]) is a hypothesis of the theorems that need it.
      [int] is [Z]; [float] is given the comparisons of IEEE 754 by the
      primitive floats, for the values [0], [1] and NaN.
    - A call has no result ([None]) when the process aborts on a failed
      [VERIFY] (the library is built with [NTL_DEBUG] unless [NDEBUG] is
      set, see [core/Platform.hpp]), when it writes outside a buffer,
      when it reads or writes through a null or freed pointer, or when a
      loop does not terminate.
    - Reading a slot that was never written, or one just outside the
      buffer, yields an indeterminate value; no theorem depends on it. *)

From Stdlib Require Import ZArith QArith List Bool Lia Ascii String.
From Stdlib Require Import Sorting.Sorted Sorting.Permutation.
From Stdlib Require PrimFloat.
From stdpp Require Import base option list sorting.
From Equations Require Import Equations.

Local Open Scope Z_scope.

(** ** Results of fallible calls *)

Definition bind {A B : Type} (m : option A) (f : A -> option B) : option B :=
  match m with
  | Some a => f a
  | None => None
  end.

Notation "x <- m ;; k" := (bind m (fun x => k))
  (at level 20, m at level 99, k at level 200).
Notation "' p <- m ;; k" := (bind m (fun x => match x with p => k end))
  (at level 20, p pattern, m at level 99, k at level 200, only parsing).

(** [VERIFY(cond)] of [core/Assert.hpp]: abort unless [cond]. *)
Definition VERIFY (cond : bool) : option unit :=
  if cond then Some tt else None.

(** ** Counted loops *)

(** [for (i = lo; i < hi; ++i) body] over a state [St]. *)
Fixpoint iter_up {St : Type} (n : nat) (i : Z)
    (body : Z -> St -> option St) (s : St) : option St :=
  match n with
  | O => Some s
  | S n' => s' <- body i s ;; iter_up n' (i + 1) body s'
  end.

Definition for_up {St : Type} (lo hi : Z)
    (body : Z -> St -> option St) (s : St) : option St :=
  iter_up (Z.to_nat (hi - lo)) lo body s.

(** [for (i = hi; i > lo; --i) body]. *)
Fixpoint iter_down {St : Type} (n : nat) (i : Z)
    (body : Z -> St -> option St) (s : St) : option St :=
  match n with
  | O => Some s
  | S n' => s' <- body i s ;; iter_down n' (i - 1) body s'
  end.

Definition for_down {St : Type} (hi lo : Z)
    (body : Z -> St -> option St) (s : St) : option St :=
  iter_down (Z.to_nat (hi - lo)) hi body s.

(** ** Buffers *)

Section Buffers.
Context {T : Type}.
(** The indeterminate content of storage that was never written. *)
Variable indet : T.

(** [new X[n]] *)
Definition alloc (n : Z) : list T := replicate (Z.to_nat n) indet.

(** [d[i]] as an rvalue. *)
Definition rd (d : list T) (i : Z) : T :=
  if i <? 0 then indet else default indet (d !! Z.to_nat i).

(** [d[i] = x]; writing outside the buffer has no defined result. *)
Definition wr (d : list T) (i : Z) (x : T) : option (list T) :=
  if (0 <=? i) && (i <? Z.of_nat (length d))
  then Some (<[Z.to_nat i := x]> d)
  else None.
End Buffers.

(** * Array<T> *)

(** [core/Algorithms.hpp], namespace [ntl::algorithms] *)
Module algorithms.
Inductive Sort := DYNAMIC | INSERTION_SORT | QUICK_SORT | MERGE_SORT.
Inductive Search := BINARY_SEARCH | FRONT_BACK_SEARCH.
Inductive Hash := FNV1a | DJB2 | SDBM.
End algorithms.

(** The comparison operators an element type brings ([has_bigger_than],
    [has_less_than], [has_less_equals_than] and [operator==]). *)
Class Comparison (T : Type) := {
  op_gt : T -> T -> bool;
  op_lt : T -> T -> bool;
  op_le : T -> T -> bool;
  op_eq : T -> T -> bool
}.

(** The operators are those of one total order, and [==] is equality:
    what [int] gives, and [float] does not. *)
Class Comparable (T : Type) `{Comparison T} := {
  op_le_total : forall a b, op_le a b = true \/ op_le b a = true;
  op_le_trans : forall a b c,
      op_le a b = true -> op_le b c = true -> op_le a c = true;
  op_le_antisym : forall a b, op_le a b = true -> op_le b a = true -> a = b;
  op_gt_le : forall a b, op_gt a b = negb (op_le a b);
  op_lt_le : forall a b, op_lt a b = negb (op_le b a);
  op_eq_spec : forall a b, op_eq a b = true <-> a = b
}.

#[export] Instance Comparison_Z : Comparison Z :=
  {| op_gt := Z.gtb; op_lt := Z.ltb; op_le := Z.leb; op_eq := Z.eqb |}.

#[export] Instance Comparable_Z : Comparable Z.
Proof. split; simpl; intros; lia. Defined.

(** [float] ([Float]), with the comparisons of IEEE 754: each of them is
    false when an operand is a NaN.  The values used below, [0], [1] and
    NaN, are values of every binary format. *)
#[export] Instance Comparison_float : Comparison PrimFloat.float :=
  {| op_gt := fun a b => PrimFloat.ltb b a; op_lt := PrimFloat.ltb;
     op_le := PrimFloat.leb; op_eq := PrimFloat.eqb |}.

Module Array.
Section Model.
Context {T : Type} `{Comparison T}.
Variable indet : T.

Record Array := mkArray {
  m_data : list T;
  m_used : Z;
  m_capacity : Z;
  m_sorted : bool;
  m_keep_sorted : bool;
  m_growable : bool
}.

Definition set_data (a : Array) (d : list T) : Array :=
  mkArray d (m_used a) (m_capacity a) (m_sorted a) (m_keep_sorted a) (m_growable a).
Definition set_used (a : Array) (u : Z) : Array :=
  mkArray (m_data a) u (m_capacity a) (m_sorted a) (m_keep_sorted a) (m_growable a).
Definition set_capacity (a : Array) (c : Z) : Array :=
  mkArray (m_data a) (m_used a) c (m_sorted a) (m_keep_sorted a) (m_growable a).
Definition set_sorted (a : Array) (b : bool) : Array :=
  mkArray (m_data a) (m_used a) (m_capacity a) b (m_keep_sorted a) (m_growable a).

(** The constructed values: slots [0 .. m_used). *)
Definition live (a : Array) : list T := take (Z.to_nat (m_used a)) (m_data a).

(** [Array(a_capacity, a_keep_sorted, a_growable)] *)
Definition new (a_capacity : Z) (a_keep_sorted a_growable : bool) : option Array :=
  _ <- VERIFY (0 <? a_capacity) ;;
  Some (mkArray (alloc indet a_capacity) 0 a_capacity true a_keep_sorted a_growable).

(** [Resize(a_capacity)]: a new buffer with the live elements copied. *)
Definition Resize (a_capacity : Z) (a : Array) : option Array :=
  _ <- VERIFY (m_used a <=? a_capacity) ;;
  _ <- VERIFY (m_capacity a <? a_capacity) ;;
  temp <- for_up 0 (m_used a)
            (fun i temp => wr temp i (rd indet (m_data a) i))
            (alloc indet a_capacity) ;;
  Some (set_data (set_capacity a a_capacity) temp).

(** The [while] loop of [insertionSort]: [j] runs down from [i - 1], so
    [i] iterations always suffice.  The guard reads [m_data[j]] before it
    tests [j >= 0], as the source does. *)
Fixpoint shift_loop (fuel : nat) (d : list T) (j : Z) (temp : T)
    : option (list T * Z) :=
  if op_gt (rd indet d j) temp && (0 <=? j) then
    match fuel with
    | O => None
    | S fuel' =>
        d' <- wr d (j + 1) (rd indet d j) ;;
        shift_loop fuel' d' (j - 1) temp
    end
  else Some (d, j).

(** One round of the [for] loop of [insertionSort]. *)
Definition insertionSort_body (i : Z) (d : list T) : option (list T) :=
  let temp := rd indet d i in
  ' (d', j) <- shift_loop (Z.to_nat i) d (i - 1) temp ;;
  wr d' (j + 1) temp.

(** [insertionSort()] *)
Definition insertionSort (a : Array) : option Array :=
  d <- for_up 1 (m_used a) insertionSort_body (m_data a) ;;
  Some (set_sorted (set_data a d) true).

(** [Insert(a_element)], with the index it returns. *)
Definition Insert (a_element : T) (a : Array) : option (Array * Z) :=
  a1 <- (if m_growable a && (m_capacity a <=? m_used a)
         then Resize (m_capacity a * 2) a else Some a) ;;
  _ <- VERIFY (m_used a1 <? m_capacity a1) ;;
  d <- wr (m_data a1) (m_used a1) a_element ;;
  let a2 := set_used (set_data a1 d) (m_used a1 + 1) in
  a3 <- (if m_keep_sorted a2 then insertionSort a2
         else Some (set_sorted a2 false)) ;;
  Some (a3, m_used a3 - 1).

(** [Insert(a_element, a_index)]; [a_index] is a [Size].  The growth test
    looks at [a_index], not at [m_used], as in the source. *)
Definition InsertAt (a_element : T) (a_index : Z) (a : Array) : option Array :=
  _ <- VERIFY (a_index <=? m_used a) ;;
  a1 <- (if (m_capacity a <=? a_index) && m_growable a
         then Resize (m_capacity a * 2) a else Some a) ;;
  _ <- VERIFY (a_index <? m_capacity a1) ;;
  d <- for_down (m_used a1) a_index
         (fun i d => wr d i (rd indet d (i - 1))) (m_data a1) ;;
  d' <- wr d a_index a_element ;;
  let a2 := set_used (set_data a1 d') (m_used a1 + 1) in
  if m_keep_sorted a2 then insertionSort a2 else Some (set_sorted a2 false).

(** [Swap(a_first, a_second)]; the indices are [Size]s ([partition]
    passes [I64] values that are not negative). *)
Definition Swap (a_first a_second : Z) (a : Array) : option Array :=
  _ <- VERIFY (a_first <? m_used a) ;;
  _ <- VERIFY (a_second <? m_used a) ;;
  let temp := rd indet (m_data a) a_first in
  d <- wr (m_data a) a_first (rd indet (m_data a) a_second) ;;
  d' <- wr d a_second temp ;;
  Some (set_sorted (set_data a d') false).

(** [GetSubArray(a_from, a_to)].  The constructor receives [m_sorted] in
    the place of [a_keep_sorted], as in the source. *)
Definition GetSubArray (a_from a_to : Z) (a : Array) : option Array :=
  _ <- VERIFY (a_from <? a_to) ;;
  _ <- VERIFY (a_from <? m_used a) ;;
  _ <- VERIFY (a_to <? m_used a) ;;
  result <- new (a_to - a_from) (m_sorted a) (m_growable a) ;;
  let result := set_sorted result (m_sorted a) in
  for_up a_from a_to
    (fun i r =>
       d <- wr (m_data r) (m_used r) (rd indet (m_data a) i) ;;
       Some (set_used (set_data r d) (m_used r + 1)))
    result.

(** [binarySearch(a_element, a_from, a_to)].  [I64] division truncates
    towards zero ([Z.quot]). *)
Equations? binarySearch (d : list T) (a_element : T) (a_from a_to : Z) : Z
    by wf (Z.to_nat (a_to - a_from + 1)) lt :=
  binarySearch d a_element a_from a_to with Z.eq_dec a_from a_to := {
    | left _ => a_from
    | right _ with Z_gt_dec a_from a_to := {
      | left _ => -1
      | right _ =>
          if op_lt a_element (rd indet d ((a_from + a_to) ÷ 2))
          then binarySearch d a_element a_from ((a_from + a_to) ÷ 2 - 1)
          else if op_gt a_element (rd indet d ((a_from + a_to) ÷ 2))
               then binarySearch d a_element ((a_from + a_to) ÷ 2 + 1) a_to
               else (a_from + a_to) ÷ 2 } }.
Proof.
  all: pose proof (Z.quot_rem' (a_from + a_to) 2);
    pose proof (Z.rem_bound_abs (a_from + a_to) 2); lia.
Qed.

(** [frontBackSearch(a_element, a_from, a_to)] *)
Equations? frontBackSearch (d : list T) (a_element : T) (a_from a_to : Z) : Z
    by wf (Z.to_nat (a_to - a_from + 1)) lt :=
  frontBackSearch d a_element a_from a_to with Z_le_dec a_from a_to := {
    | right _ => -1
    | left _ =>
        if op_eq (rd indet d a_from) a_element then a_from
        else if op_eq (rd indet d a_to) a_element then a_to
             else frontBackSearch d a_element (a_from + 1) (a_to - 1) }.
Proof. lia. Qed.

(** [Find(a_element)] *)
Definition Find (a_element : T) (a : Array) : Z :=
  if m_used a =? 0 then -1
  else if m_sorted a
       then binarySearch (m_data a) a_element 0 (m_used a - 1)
       else frontBackSearch (m_data a) a_element 0 (m_used a - 1).

(** [Find(a_element, a_from, a_to, a_algorithm)] *)
Definition FindIn (a_element : T) (a_from a_to : Z) (a_algorithm : algorithms.Search)
    (a : Array) : option Z :=
  if m_used a =? 0 then Some (-1)
  else match a_algorithm with
       | algorithms.BINARY_SEARCH =>
           _ <- VERIFY (m_sorted a) ;;
           Some (binarySearch (m_data a) a_element a_from a_to)
       | algorithms.FRONT_BACK_SEARCH =>
           Some (frontBackSearch (m_data a) a_element a_from a_to)
       end.

(** [partition(a_from, a_to)].  [pivot] is a reference to
    [m_data[a_to].value], so every comparison reads that slot anew. *)
Definition partition (a_from a_to : Z) (a : Array) : option (Array * Z) :=
  ' (a1, i) <- for_up a_from a_to
      (fun j '(a', i) =>
         if op_le (rd indet (m_data a') j) (rd indet (m_data a') a_to)
         then a'' <- Swap (i + 1) j a' ;; Some (a'', i + 1)
         else Some (a', i))
      (a, a_from - 1) ;;
  a2 <- Swap (i + 1) a_to a1 ;;
  Some (a2, i + 1).

(** [quickSort(a_from, a_to)]; [fuel] bounds the recursion depth. *)
Fixpoint quickSort (fuel : nat) (a_from a_to : Z) (a : Array) : option Array :=
  if m_used a =? 0 then Some a
  else if a_to <=? a_from then Some (set_sorted a true)
  else match fuel with
       | O => None
       | S fuel' =>
           ' (a1, k) <- partition a_from a_to a ;;
           a2 <- quickSort fuel' a_from (k - 1) a1 ;;
           quickSort fuel' (k + 1) a_to a2
       end.

(** The merging loop of [mergeSort], over [(result, j, k)]. *)
Definition merge_body (array1 array2 : list T) (size1 size2 : Z)
    (i : Z) (st : list T * Z * Z) : option (list T * Z * Z) :=
  let '(result, j, k) := st in
  if (j <? size1) && ((k =? size2) || op_le (rd indet array1 j) (rd indet array2 k))
  then r <- wr result i (rd indet array1 j) ;; Some (r, j + 1, k)
  else r <- wr result i (rd indet array2 k) ;; Some (r, j, k + 1).

(** [mergeSort(a_array, a_capacity, a_used)].  The pointer [a_array] is
    the list of slots from its address on, so [a_array + size1] is
    [drop size1 a_array]. *)
Equations? mergeSort_rec (a_array : list T) (a_capacity a_used : Z)
    : option (list T) by wf (Z.to_nat a_used) lt :=
  mergeSort_rec a_array a_capacity a_used with Z_le_dec a_used 1 := {
    | left _ => wr (alloc indet 1) 0 (rd indet a_array 0)
    | right _ with mergeSort_rec a_array (a_used ÷ 2) (a_used ÷ 2) := {
      | None => None
      | Some array1
          with mergeSort_rec (drop (Z.to_nat (a_used ÷ 2)) a_array)
                 (a_used - a_used ÷ 2) (a_used - a_used ÷ 2) := {
        | None => None
        | Some array2 =>
            ' (result, _, _) <- for_up 0 a_used
                (merge_body array1 array2 (a_used ÷ 2) (a_used - a_used ÷ 2))
                (alloc indet a_capacity, 0, 0) ;;
            Some result } } }.
Proof.
  all: pose proof (Z.quot_rem' a_used 2);
    pose proof (Z.rem_bound_abs a_used 2); lia.
Qed.

(** [mergeSort()] *)
Definition mergeSort (a : Array) : option Array :=
  temp <- mergeSort_rec (m_data a) (m_capacity a) (m_used a) ;;
  Some (set_sorted (set_data a temp) true).

(** [dynamicSort()] *)
Definition dynamicSort (a : Array) : option Array :=
  if 64 <? m_used a then mergeSort a else insertionSort a.

(** [Sort(a_algorithm)].  A range of [n] slots is sorted by [quickSort]
    within recursion depth [n]. *)
Definition Sort (a_algorithm : algorithms.Sort) (a : Array) : option Array :=
  match a_algorithm with
  | algorithms.DYNAMIC => dynamicSort a
  | algorithms.INSERTION_SORT => insertionSort a
  | algorithms.QUICK_SORT => quickSort (Z.to_nat (m_used a)) 0 (m_used a - 1) a
  | algorithms.MERGE_SORT => mergeSort a
  end.

(** ** Vocabulary of the claims *)

(** The bookkeeping fields are consistent with the buffer. *)
Definition wf (a : Array) : Prop :=
  0 <= m_used a <= m_capacity a /\ m_used a <= Z.of_nat (length (m_data a)).

(** The buffer has the [m_capacity] slots it was allocated with. *)
Definition allocated (a : Array) : Prop :=
  m_capacity a = Z.of_nat (length (m_data a)).

(** [a <= b] holds. *)
Definition le_rel (a b : T) : Prop := op_le a b = true.

(** Sorted ascending. *)
Definition ascending (l : list T) : Prop := StronglySorted le_rel l.

(** A call of one of the two [Insert] overloads. *)
Inductive insert_call :=
| Append (a_element : T)
| AtIndex (a_element : T) (a_index : Z).

Definition run_insert (c : insert_call) (a : Array) : option Array :=
  match c with
  | Append x => ' (a', _) <- Insert x a ;; Some a'
  | AtIndex x i => InsertAt x i a
  end.

(** [inserted a0 a]: [a] is [a0] after one or more completed inserts. *)
Inductive inserted (a0 : Array) : Array -> Prop :=
| inserted_first c a1 : run_insert c a0 = Some a1 -> inserted a0 a1
| inserted_next c a1 a2 :
    inserted a0 a1 -> run_insert c a1 = Some a2 -> inserted a0 a2.

(** Positions [[from, to)] of a buffer. *)
Definition slice (from to : Z) (l : list T) : list T :=
  take (Z.to_nat (to - from)) (drop (Z.to_nat from) l).

(** ** The other public methods *)

(** The copying loop of the two copy constructors. *)
Definition copy_elements (a_other : Array) (d : list T) : option (list T) :=
  for_up 0 (m_used a_other) (fun i d => wr d i (rd indet (m_data a_other) i)) d.

(** [Array(const Array& a_other)].  The buffer is allocated with
    [a_other.m_capacity] slots; [m_capacity] is initialised from the
    member [m_used], which is declared, and so initialised, before it. *)
Definition copy (a_other : Array) : option Array :=
  d <- copy_elements a_other (alloc indet (m_capacity a_other)) ;;
  Some (mkArray d (m_used a_other) (m_used a_other * 2) (m_sorted a_other)
          (m_keep_sorted a_other) (m_growable a_other)).

(** [Array(const Array& a_other, Size a_capacity)] *)
Definition copy_with (a_other : Array) (a_capacity : Z) : option Array :=
  _ <- VERIFY (m_used a_other <? a_capacity) ;;
  d <- copy_elements a_other (alloc indet a_capacity) ;;
  Some (mkArray d (m_used a_other) a_capacity (m_sorted a_other)
          (m_keep_sorted a_other) (m_growable a_other)).

(** [Remove(a_index)], with the value the returned reference denotes:
    that of slot [a_index] after the shift. *)
Definition Remove (a_index : Z) (a : Array) : option (Array * T) :=
  _ <- VERIFY (a_index <? m_used a) ;;
  d <- for_up a_index (m_used a)
         (fun i d => wr d i (rd indet d (i + 1))) (m_data a) ;;
  Some (set_used (set_data a d) (m_used a - 1), rd indet d a_index).

(** [RemoveElement(a_element)], with the index it returns. *)
Definition RemoveElement (a_element : T) (a : Array) : option (Array * Z) :=
  let index := Find a_element a in
  if index <? 0 then Some (a, -1)
  else ' (a', _) <- Remove index a ;; Some (a', index).

(** [Clear()] *)
Definition Clear (a : Array) : Array :=
  mkArray (alloc indet (m_capacity a)) 0 (m_capacity a) true
    (m_keep_sorted a) (m_growable a).

(** [Clear(a_capacity)] *)
Definition ClearTo (a_capacity : Z) (a : Array) : Array :=
  mkArray (alloc indet a_capacity) 0 a_capacity true
    (m_keep_sorted a) (m_growable a).

(** [Get(a_index)], which [operator[]] forwards to. *)
Definition Get (a_index : Z) (a : Array) : option T :=
  _ <- VERIFY (a_index <? m_used a) ;;
  Some (rd indet (m_data a) a_index).

(** [GetNeighbors(a_element, a_left, a_right)]: the two out-pointers as
    indices into [m_data], [None] for [nullptr]. *)
Definition GetNeighbors (a_element : T) (a : Array) : option Z * option Z :=
  let idx := Find a_element a in
  if idx =? -1 then (None, None)
  else (if 0 <? idx then Some (idx - 1) else None,
        if idx <? m_used a then Some idx else None).

(** The loop of [IsEqual]; [a != b] is [!(a == b)]. *)
Fixpoint IsEqual_loop (n : nat) (i : Z) (d1 d2 : list T) : bool :=
  match n with
  | O => true
  | S n' =>
      if negb (op_eq (rd indet d1 i) (rd indet d2 i)) then false
      else IsEqual_loop n' (i + 1) d1 d2
  end.

(** [IsEqual(a_other)], which [operator==] forwards to. *)
Definition IsEqual (a_other : Array) (a : Array) : bool :=
  if negb (m_used a =? m_used a_other) then false
  else IsEqual_loop (Z.to_nat (m_used a)) 0 (m_data a) (m_data a_other).

Definition IsEmpty (a : Array) : bool := m_used a =? 0.

(** The calls that change an array without handing out a reference to
    an element. *)
Inductive op :=
| OpInsert (a_element : T)
| OpInsertAt (a_element : T) (a_index : Z)
| OpRemove (a_index : Z)
| OpRemoveElement (a_element : T)
| OpSwap (a_first a_second : Z)
| OpClear
| OpClearTo (a_capacity : Z)
| OpResize (a_capacity : Z)
| OpSort (a_algorithm : algorithms.Sort).

Definition run_op (o : op) (a : Array) : option Array :=
  match o with
  | OpInsert x => ' (a', _) <- Insert x a ;; Some a'
  | OpInsertAt x i => InsertAt x i a
  | OpRemove i => ' (a', _) <- Remove i a ;; Some a'
  | OpRemoveElement x => ' (a', _) <- RemoveElement x a ;; Some a'
  | OpSwap i j => Swap i j a
  | OpClear => Some (Clear a)
  | OpClearTo c => Some (ClearTo c a)
  | OpResize c => Resize c a
  | OpSort alg => Sort alg a
  end.

Definition run (ops : list op) (a : Array) : option Array :=
  fold_left (fun oa o => a' <- oa ;; run_op o a') ops (Some a).

(** The [Size] arguments of a call are unsigned. *)
Definition size_args (o : op) : Prop :=
  match o with
  | OpInsertAt _ i => 0 <= i
  | OpRemove i => 0 <= i
  | OpSwap i j => 0 <= i /\ 0 <= j
  | OpClearTo c => 0 <= c
  | OpResize c => 0 <= c
  | _ => True
  end.

(** [m_sorted] tells the truth: when it is set the elements ascend. *)
Definition sorted_flag_ok (a : Array) : Prop :=
  m_sorted a = true -> ascending (live a).

(** What the mutators keep: the bookkeeping fields fit the buffer, the
    buffer is not longer than the capacity says (but for the one-slot
    buffer [mergeSort] leaves), and [m_sorted] tells the truth. *)
Definition invariant (a : Array) : Prop :=
  wf a /\
  Z.of_nat (length (m_data a)) <= Z.max (m_capacity a) 1 /\
  sorted_flag_ok a.

End Model.

Arguments Array : clear implicits.
Arguments insert_call : clear implicits.
Arguments op : clear implicits.

(** The array [{8, 16, 32}] in a buffer of five slots. *)
Definition three_of_five : Array Z :=
  mkArray [8; 16; 32; 0; 0] 3 5 false false false.

(** The auto-sorted array [{5}] in a buffer of four slots. *)
Definition sorted_five : Array Z := mkArray [5; 0; 0; 0] 1 4 true true false.

(** The full, growable array [{8, 16, 32}]. *)
Definition full_three : Array Z := mkArray [8; 16; 32] 3 3 false false true.

(** The sorted array [{1, 3, 5}]. *)
Definition sorted_135 : Array Z := mkArray [1; 3; 5] 3 3 true false false.

(** An [Array<float>] that holds [{NaN, 1, 0}]. *)
Definition nan_one_zero : Array PrimFloat.float :=
  mkArray [PrimFloat.nan; PrimFloat.one; PrimFloat.zero] 3 3 false false false.

(** A reference front-to-back linear scan: the first index holding
    [a_element], or [-1]. *)
Fixpoint linear_scan {T : Type} `{Comparison T} (a_element : T) (l : list T) : Z :=
  match l with
  | [] => -1
  | x :: l' =>
      if op_eq x a_element then 0
      else let r := linear_scan a_element l' in
           if r =? -1 then -1 else r + 1
  end.

(** Building an array by appending, for examples over [int] elements. *)
Definition of_list (capacity : Z) (keep_sorted growable : bool) (l : list Z)
    : option (Array Z) :=
  fold_left (fun oa x => a <- oa ;; ' (a', _) <- Insert 0 x a ;; Some a')
    l (new 0 capacity keep_sorted growable).

End Array.

(** * Map<KeyType, ValueType> *)

(** A value of type [U64] (or [Size]) after an arithmetic operation. *)
Definition U64 (z : Z) : Z := z mod 2 ^ 64.

(** The bytes a [const char*] loop sees: those before the first nul. *)
Fixpoint c_str (key : list ascii) : list Z :=
  match key with
  | [] => []
  | c :: key' =>
      if Ascii.eqb c zero then [] else Z.of_N (N_of_ascii c) :: c_str key'
  end.

Definition hashDJB2 (a_key : list ascii) : Z :=
  fold_left (fun hash c => U64 (U64 (Z.shiftl hash 5 + hash) + c))
    (c_str a_key) 5381.

Definition hashSDBM (a_key : list ascii) : Z :=
  let hash :=
    fold_left (fun hash c => U64 (c + Z.shiftl hash 6 + Z.shiftl hash 16 - hash))
      (c_str a_key) 0 in
  Z.lor (Z.land hash 0x7FFFFFFFFFFFFFFF) 1.

Definition hashFNV1a (a_key : list ascii) : Z :=
  fold_left (fun hash c => U64 (Z.lxor hash c * 1099511628211))
    (c_str a_key) 14695981039346656037.

Definition calculateHash (a_algorithm : algorithms.Hash) (a_key : list ascii) : Z :=
  match a_algorithm with
  | algorithms.FNV1a => hashFNV1a a_key
  | algorithms.DJB2 => hashDJB2 a_key
  | algorithms.SDBM => hashSDBM a_key
  end.

(** What [keyToIndex] accepts as a key: a type with [operator==] and the
    [U64] that is reduced modulo the capacity (the selected hash of a
    string key, the key itself converted to [Size] for an integral key). *)
Class KeyType (K : Type) := {
  key_eq : K -> K -> bool;
  key_eq_spec : forall a b, key_eq a b = true <-> a = b;
  key_hash : algorithms.Hash -> K -> Z;
  key_hash_nonneg : forall h k, 0 <= key_hash h k
}.

(** [KeyType = String] (or [std::string]) *)
#[export] Instance KeyType_string : KeyType (list ascii).
Proof.
  refine {| key_eq := fun a b => if List.list_eq_dec ascii_dec a b then true else false;
            key_hash := calculateHash |}.
  - intros a b. destruct (List.list_eq_dec ascii_dec a b); split; congruence.
  - assert (Hfold : forall (f : Z -> Z -> Z) (l : list Z) (z : Z),
              (forall x c, 0 <= f x c) -> 0 <= z -> 0 <= fold_left f l z).
    { intros f l. induction l as [|c l IH]; intros z Hf Hz; simpl; auto. }
    assert (Hwrap : forall z, 0 <= U64 z).
    { intros z. unfold U64. apply Z.mod_pos_bound. lia. }
    intros h k. destruct h; simpl.
    + apply Hfold; [intros; apply Hwrap | lia].
    + apply Hfold; [intros; apply Hwrap | lia].
    + unfold hashSDBM. apply Z.lor_nonneg. split; [|lia].
      apply Z.land_nonneg. right. lia.
Defined.

(** [std::is_integral<KeyType>] *)
#[export] Instance KeyType_integral : KeyType Z.
Proof.
  refine {| key_eq := Z.eqb; key_hash := fun _ k => U64 k |}.
  - intros a b. apply Z.eqb_eq.
  - intros _ k. unfold U64. apply Z.mod_pos_bound. lia.
Defined.

Module Map.
Section Model.
Context {K V : Type} `{KeyType K}.
(** The indeterminate key and value of a default-initialised [Entry],
    and the value-initialised [ValueType{}] that [At] inserts. *)
Variables (indet_key : K) (indet_value : V) (value_init : V).

Record Entry := mkEntry {
  key : K;
  value : V;
  used : bool
}.

Record Map := mkMap {
  m_entries : list Entry;
  m_algorithm : algorithms.Hash;
  m_capacity : nat;
  m_used : nat;
  m_grow_factor : Q;
  m_growable : bool
}.

Definition set_entries (m : Map) (es : list Entry) : Map :=
  mkMap es (m_algorithm m) (m_capacity m) (m_used m) (m_grow_factor m) (m_growable m).
Definition set_used (m : Map) (u : nat) : Map :=
  mkMap (m_entries m) (m_algorithm m) (m_capacity m) u (m_grow_factor m) (m_growable m).
Definition set_capacity (m : Map) (c : nat) : Map :=
  mkMap (m_entries m) (m_algorithm m) c (m_used m) (m_grow_factor m) (m_growable m).

(** [new Entry[n]] followed by the loop clearing every [used] flag. *)
Definition fresh_entries (n : nat) : list Entry :=
  replicate n (mkEntry indet_key indet_value false).

(** [Map(a_capacity, a_algorithm, a_grow_factor, a_growable)] *)
Definition new (a_capacity : nat) (a_algorithm : algorithms.Hash) (a_grow_factor : Q)
    (a_growable : bool) : Map :=
  mkMap (fresh_entries a_capacity) a_algorithm a_capacity 0 a_grow_factor a_growable.

(** [keyToIndex(a_key)]; the remainder by a zero capacity is undefined. *)
Definition keyToIndex (m : Map) (a_key : K) : option nat :=
  if Nat.eqb (m_capacity m) 0 then None
  else Some (Z.to_nat (key_hash (m_algorithm m) a_key mod Z.of_nat (m_capacity m))).

(** The probing loop shared by [find], [Insert] and [Remove]:
    [while (m_entries[index].used) { if (key == a_key) ...;
    index = (index + 1) % m_capacity; }].  It stops on a used slot
    holding [a_key] or on an unused slot.  After [m_capacity] advances
    the loop is back where it started, with nothing changed: when the
    fuel, set to the capacity, runs out, the source loops forever. *)
Inductive probe_result := Hit (index : nat) | Free (index : nat).

Fixpoint probe (fuel : nat) (es : list Entry) (capacity : nat) (a_key : K)
    (index : nat) : option probe_result :=
  match es !! index with
  | None => None
  | Some e =>
      if used e then
        if key_eq (key e) a_key then Some (Hit index)
        else match fuel with
             | O => None
             | S fuel' => probe fuel' es capacity a_key (Nat.modulo (index + 1) capacity)
             end
      else Some (Free index)
  end.

(** The slot a probe stopped at. *)
Definition slot (r : probe_result) : nat :=
  match r with Hit i => i | Free i => i end.

(** The loop of [Resize], which looks for an unused slot only. *)
Fixpoint probe_free (fuel : nat) (es : list Entry) (capacity : nat)
    (index : nat) : option nat :=
  match es !! index with
  | None => None
  | Some e =>
      if used e then
        match fuel with
        | O => None
        | S fuel' => probe_free fuel' es capacity (Nat.modulo (index + 1) capacity)
        end
      else Some index
  end.

(** [find(a_key)]: the slot of the entry, or [nullptr]. *)
Definition find (a_key : K) (m : Map) : option (option nat) :=
  index <- keyToIndex m a_key ;;
  r <- probe (m_capacity m) (m_entries m) (m_capacity m) a_key index ;;
  match r with
  | Hit i => Some (Some i)
  | Free _ => Some None
  end.

(** [Exists(a_key)] *)
Definition Exists (a_key : K) (m : Map) : option bool :=
  entry <- find a_key m ;;
  Some (bool_decide (is_Some entry)).

(** [Get(a_key)] *)
Definition Get (a_key : K) (m : Map) : option V :=
  entry <- find a_key m ;;
  i <- entry ;;
  e <- m_entries m !! i ;;
  Some (value e).

(** One round of the rehashing loop of [Resize]. *)
Definition rehash_entry (m : Map) (old : Entry) : option Map :=
  if used old then
    index <- keyToIndex m (key old) ;;
    i <- probe_free (m_capacity m) (m_entries m) (m_capacity m) index ;;
    Some (set_entries m (<[i := mkEntry (key old) (value old) true]> (m_entries m)))
  else Some m.

(** [Resize(a_new_capacity)] *)
Definition Resize (a_new_capacity : nat) (m : Map) : option Map :=
  _ <- VERIFY (Nat.leb (m_used m) a_new_capacity) ;;
  _ <- VERIFY (Nat.ltb (m_capacity m) a_new_capacity) ;;
  fold_left (fun om old => m' <- om ;; rehash_entry m' old)
    (m_entries m)
    (Some (set_entries (set_capacity m a_new_capacity) (fresh_entries a_new_capacity))).

(** [m_used >= m_capacity * m_grow_factor], with the [Float] product
    taken exactly. *)
Definition load_reached (m : Map) : bool :=
  Qle_bool (inject_Z (Z.of_nat (m_capacity m)) * m_grow_factor m)
           (inject_Z (Z.of_nat (m_used m))).

(** [Insert(a_key, a_value)] *)
Definition Insert (a_key : K) (a_value : V) (m : Map) : option Map :=
  m1 <- (if m_growable m && load_reached m
         then Resize (m_capacity m * 2) m else Some m) ;;
  index <- keyToIndex m1 a_key ;;
  r <- probe (m_capacity m1) (m_entries m1) (m_capacity m1) a_key index ;;
  match r with
  | Hit i =>
      e <- m_entries m1 !! i ;;
      Some (set_entries m1 (<[i := mkEntry (key e) a_value (used e)]> (m_entries m1)))
  | Free i =>
      Some (set_used
              (set_entries m1 (<[i := mkEntry a_key a_value true]> (m_entries m1)))
              (m_used m1 + 1))
  end.

(** [Remove(a_key)] *)
Definition Remove (a_key : K) (m : Map) : option Map :=
  index <- keyToIndex m a_key ;;
  r <- probe (m_capacity m) (m_entries m) (m_capacity m) a_key index ;;
  match r with
  | Hit i =>
      e <- m_entries m !! i ;;
      Some (set_used
              (set_entries m (<[i := mkEntry (key e) (value e) false]> (m_entries m)))
              (m_used m - 1))
  | Free _ => None
  end.

(** [At(a_key)]: the value referred to, and the map afterwards. *)
Definition At (a_key : K) (m : Map) : option (V * Map) :=
  entry <- find a_key m ;;
  match entry with
  | Some i => e <- m_entries m !! i ;; Some (value e, m)
  | None =>
      m' <- Insert a_key value_init m ;;
      entry' <- find a_key m' ;;
      i <- entry' ;;
      e <- m_entries m' !! i ;;
      Some (value e, m')
  end.

(** The entries the table holds: the used slots, in slot order. *)
Definition live (m : Map) : list (K * V) :=
  omap (fun e => if used e then Some (key e, value e) else None) (m_entries m).

(** The operations that change a map. *)
Inductive op :=
| OpInsert (k : K) (v : V)
| OpAt (k : K)
| OpRemove (k : K)
| OpResize (n : nat).

Definition run_op (o : op) (m : Map) : option Map :=
  match o with
  | OpInsert k v => Insert k v m
  | OpAt k => ' (_, m') <- At k m ;; Some m'
  | OpRemove k => Remove k m
  | OpResize n => Resize n m
  end.

Definition run (ops : list op) (m : Map) : option Map :=
  fold_left (fun om o => m' <- om ;; run_op o m') ops (Some m).

(** A sequence of [Insert] calls. *)
Definition Inserts (kvs : list (K * V)) (m : Map) : option Map :=
  fold_left (fun om '(k, v) => m' <- om ;; Insert k v m') kvs (Some m).

(** ** Vocabulary of the claims *)

(** The number of used slots. *)
Definition count_used (es : list Entry) : nat :=
  length (filter (fun e => used e = true) es).

(** The table has [m_capacity] slots, at least one, and [m_used] counts
    the used ones. *)
Definition wf (m : Map) : Prop :=
  length (m_entries m) = m_capacity m /\
  (0 < m_capacity m)%nat /\
  m_used m = count_used (m_entries m).

(** The keys of the used slots, in slot order. *)
Definition live_keys (es : list Entry) : list K :=
  map key (filter (fun e => used e = true) es).

(** Every live entry is reached by the lookup of its key. *)
Definition all_reachable (m : Map) : Prop :=
  forall i e, m_entries m !! i = Some e -> used e = true ->
              find (key e) m = Some (Some i).

(** Every live entry is reachable and no key is stored twice. *)
Definition sound (m : Map) : Prop :=
  all_reachable m /\ NoDup (live_keys (m_entries m)).

(** The operation is not [Remove]. *)
Definition not_Remove (o : op) : Prop :=
  match o with OpRemove _ => False | _ => True end.

(** The next [Insert] stays within the growth limit: it grows the table
    first, or the table it probes is not full. *)
Definition within_growth_limit (m : Map) : Prop :=
  m_growable m && load_reached m = true \/ (m_used m < m_capacity m)%nat.

(** ** The other public methods *)

(** [GetSize()] *)
Definition GetSize (m : Map) : nat := m_used m.

(** The loop of the copy constructors,
    [for (i = 0; i < m_capacity; ++i)] over [a_other.m_entries], where
    [m_capacity] is the capacity of the map under construction.  Once an
    [Insert] of the loop has grown the table, the loop goes on past the
    end of [a_other.m_entries] and branches on what it reads there: it has
    no defined result.  [fuel] is the number of slots of [a_other]. *)
Fixpoint copy_loop (fuel : nat) (i : nat) (a_other : Map) (m : Map) : option Map :=
  if Nat.leb (m_capacity m) i then Some m
  else match fuel with
       | O => None
       | S fuel' =>
           e <- m_entries a_other !! i ;;
           m' <- (if used e then Insert (key e) (value e) m else Some m) ;;
           copy_loop fuel' (i + 1) a_other m'
       end.

(** [Map(const Map& a_other)]: [m_used] is initialised from
    [a_other.m_used], and every [Insert] of the loop adds to it. *)
Definition copy (a_other : Map) : option Map :=
  copy_loop (length (m_entries a_other)) 0 a_other
    (mkMap (fresh_entries (m_capacity a_other)) (m_algorithm a_other)
       (m_capacity a_other) (m_used a_other) (m_grow_factor a_other)
       (m_growable a_other)).

(** [Map(const Map& a_other, Size a_capacity)] *)
Definition copy_with (a_other : Map) (a_capacity : nat) : option Map :=
  m <- copy a_other ;; Resize a_capacity m.

(** What the loop of the copy constructor has done when it reaches slot
    [i] of [a]: the map [m] under construction has the entries of the
    slots before [i], and its [m_used] has grown by their number. *)
Definition copy_inv (a : Map) (i : nat) (m : Map) : Prop :=
  m_capacity m = m_capacity a /\ length (m_entries m) = m_capacity a /\
  m_growable m = false /\ sound m /\
  live_keys (m_entries m) ≡ₚ live_keys (take i (m_entries a)) /\
  count_used (m_entries m) = count_used (take i (m_entries a)) /\
  m_used m = (m_used a + count_used (take i (m_entries a)))%nat /\
  (forall j e, (j < i)%nat -> m_entries a !! j = Some e -> used e = true ->
               (key e, value e) ∈ live m).

End Model.

Arguments Map : clear implicits.
Arguments Entry : clear implicits.
Arguments op : clear implicits.

(** [Map<int, int> map(10)] after [Insert(1, 100)] and [Insert(11, 200)]:
    key [11] collides with key [1] and goes to slot [2]. *)
Definition two_of_ten : Map Z Z :=
  mkMap [mkEntry 0 0 false; mkEntry 1 100 true; mkEntry 11 200 true;
         mkEntry 0 0 false; mkEntry 0 0 false; mkEntry 0 0 false;
         mkEntry 0 0 false; mkEntry 0 0 false; mkEntry 0 0 false;
         mkEntry 0 0 false]
    algorithms.FNV1a 10 2 (7 # 10) true.

(** A full table of two slots that does not grow. *)
Definition full_two : Map Z Z :=
  mkMap [mkEntry 0 10 true; mkEntry 1 20 true] algorithms.FNV1a 2 2 (7 # 10) false.

End Map.

(** * String *)

(** The characters of a literal. *)
Definition chars (s : string) : list ascii := list_ascii_of_string s.

Module NtlString.
Section Model.
(** The indeterminate content of a fresh [char] buffer. *)
Variable indet : ascii.

Record String := mkString {
  m_capacity : Z;
  m_used : Z;
  m_data : list ascii
}.

(** The characters of the string: [m_data[0 .. m_used)]. *)
Definition content (s : String) : list ascii :=
  take (Z.to_nat (m_used s)) (m_data s).

(** [String(const char* a_string)], for a literal without a nul. *)
Definition new (a_string : list ascii) : option String :=
  let used := Z.of_nat (length a_string) in
  d <- for_up 0 used
         (fun i d => wr d i (rd indet a_string i))
         (alloc indet (used * 2 + 1)) ;;
  d' <- wr d used zero ;;
  Some (mkString (used * 2) used d').

Definition IsEmpty (s : String) : bool := m_used s =? 0.

(** [Get(a_index) const], which [operator[] const] forwards to. *)
Definition Get (a_index : Z) (s : String) : option ascii :=
  _ <- VERIFY (a_index <? m_used s) ;;
  Some (rd indet (m_data s) a_index).

(** [Resize(a_capacity)]; the new buffer has [a_capacity] bytes. *)
Definition Resize (a_capacity : Z) (s : String) : option String :=
  _ <- VERIFY (m_used s + 1 <=? a_capacity) ;;
  _ <- VERIFY (m_capacity s <? a_capacity) ;;
  temp <- for_up 0 (m_used s)
            (fun i temp => wr temp i (rd indet (m_data s) i))
            (alloc indet a_capacity) ;;
  temp' <- wr temp (m_used s) zero ;;
  Some (mkString a_capacity (m_used s) temp').

(** [Append(const String& a_other)] *)
Definition Append (a_other : String) (s : String) : option String :=
  let total_len := m_used s + m_used a_other in
  s1 <- (if m_capacity s <=? total_len then Resize (total_len * 2) s else Some s) ;;
  d <- for_up 0 (m_used a_other)
         (fun i d => wr d (m_used s1 + i) (rd indet (m_data a_other) i))
         (m_data s1) ;;
  d' <- wr d total_len zero ;;
  Some (mkString (m_capacity s1) total_len d').

(** The inner loop of [Replace(const String&, const String&)]: compare
    [m_data[i + j]] with [a_old[j]] for [j] from [1]; the result is
    [found]. *)
Fixpoint match_tail (n : nat) (j : Z) (d : list ascii) (i : Z) (a_old : String)
    : option bool :=
  match n with
  | O => Some true
  | S n' =>
      c <- Get j a_old ;;
      if negb (Ascii.eqb (rd indet d (i + j)) c) then Some false
      else match_tail n' (j + 1) d i a_old
  end.

(** The outer loop: the value of [seq_idx] when it ends, [-1] when no
    occurrence was found. *)
Fixpoint find_seq (n : nat) (i : Z) (d : list ascii) (a_old : String)
    : option Z :=
  match n with
  | O => Some (-1)
  | S n' =>
      c0 <- Get 0 a_old ;;
      if negb (Ascii.eqb (rd indet d i) c0) then find_seq n' (i + 1) d a_old
      else
        found <- match_tail (Z.to_nat (m_used a_old - 1)) 1 d i a_old ;;
        if found : bool then Some i else find_seq n' (i + 1) d a_old
  end.

(** [Replace(const String& a_old, const String& a_new)].  [new_length]
    is computed in [Size] arithmetic. *)
Definition Replace (a_old a_new : String) (s : String) : option String :=
  _ <- VERIFY (negb (IsEmpty a_old)) ;;
  seq_idx <- find_seq (Z.to_nat (m_used s)) 0 (m_data s) a_old ;;
  if seq_idx =? -1 then Some s
  else if m_used a_old =? m_used a_new then
    d <- for_up 0 (m_used a_new)
           (fun new_idx d => c <- Get new_idx a_new ;; wr d (seq_idx + new_idx) c)
           (m_data s) ;;
    Some (mkString (m_capacity s) (m_used s) d)
  else
    let new_length := U64 (m_used s - U64 (m_used a_old - m_used a_new)) in
    s1 <- (if new_length <=? m_capacity s then Resize (m_capacity s * 2) s
           else Some s) ;;
    temp <- for_up 0 seq_idx
              (fun i temp => wr temp i (rd indet (m_data s1) i))
              (alloc indet (m_capacity s1 + 1)) ;;
    temp <- for_up 0 (m_used a_new)
              (fun i temp => wr temp (seq_idx + i) (rd indet (m_data a_new) i))
              temp ;;
    temp <- for_up seq_idx (m_used s1)
              (fun i temp =>
                 wr temp (m_used a_new + i) (rd indet (m_data s1) (m_used a_old + i)))
              temp ;;
    d <- wr temp new_length zero ;;
    Some (mkString (m_capacity s1) new_length d).

(** The first loop of [Replace(char, char)] when [a_new] is nul: the
    index where it breaks, [m_used] when it runs to the end. *)
Fixpoint scan_char (n : nat) (i : Z) (d : list ascii) (a_old : ascii) : Z :=
  match n with
  | O => i
  | S n' => if Ascii.eqb (rd indet d i) a_old then i
            else scan_char n' (i + 1) d a_old
  end.

(** [Replace(const char a_old, const char a_new)] *)
Definition ReplaceChar (a_old a_new : ascii) (s : String) : option String :=
  if Ascii.eqb a_new zero then
    let i := scan_char (Z.to_nat (m_used s)) 0 (m_data s) a_old in
    d <- for_up i (m_used s)
           (fun i d => wr d i (rd indet d (i + 1))) (m_data s) ;;
    d' <- wr d (m_used s - 1) zero ;;
    Some (mkString (m_capacity s) (m_used s - 1) d')
  else
    d <- for_up 0 (m_used s)
           (fun i d =>
              if negb (Ascii.eqb (rd indet d i) a_old) then Some d
              else wr d i a_new)
           (m_data s) ;;
    Some (mkString (m_capacity s) (m_used s) d).

(** [Remove(const char a_other)] *)
Definition Remove (a_other : ascii) (s : String) : option String :=
  ReplaceChar a_other zero s.

(** ** Vocabulary of the claims *)

(** The string fits its capacity and the terminator fits the buffer. *)
Definition wf (s : String) : Prop :=
  0 <= m_used s <= m_capacity s /\ m_used s < Z.of_nat (length (m_data s)).

(** ** The other constructors and methods *)

Definition DEFAULT_STRING_SIZE : Z := 1024.

(** [String()] *)
Definition default : option String :=
  d <- wr (alloc indet (DEFAULT_STRING_SIZE + 1)) 0 zero ;;
  Some (mkString DEFAULT_STRING_SIZE 0 d).

(** [std::copy_n(src, n, dst)] *)
Definition copy_n (src : list ascii) (n : Z) (dst : list ascii) : option (list ascii) :=
  for_up 0 n (fun i d => wr d i (rd indet src i)) dst.

(** [String(const String& a_other)] *)
Definition copy (a_other : String) : option String :=
  d <- copy_n (m_data a_other) (m_used a_other)
         (alloc indet (m_used a_other * 2 + 1)) ;;
  d' <- wr d (m_used a_other) zero ;;
  Some (mkString (m_used a_other * 2) (m_used a_other) d').

(** [operator=(const String& a_other)] *)
Definition assign (a_other : String) (s : String) : option String :=
  d <- copy_n (m_data a_other) (m_used a_other)
         (alloc indet (m_capacity a_other + 1)) ;;
  d' <- wr d (m_used a_other) zero ;;
  Some (mkString (m_capacity a_other) (m_used a_other) d').

(** [Append(const char a_other)] *)
Definition AppendChar (a_other : ascii) (s : String) : option String :=
  let total_len := m_used s + 1 in
  s1 <- (if m_capacity s <=? total_len then Resize (total_len * 2) s else Some s) ;;
  d <- wr (m_data s1) (m_used s1) a_other ;;
  d' <- wr d total_len zero ;;
  Some (mkString (m_capacity s1) total_len d').

(** [Clear()] *)
Definition Clear (s : String) : option String :=
  d <- wr (alloc indet (m_capacity s + 1)) 0 zero ;;
  Some (mkString (m_capacity s) 0 d).

(** [Find(a_char)].  Its loop,
    [while (index < m_used && m_data[index] != a_char) index++], is the
    scan of [scan_char]; the [-1] it returns for a missing character is
    converted to [Size]. *)
Definition Find (a_char : ascii) (s : String) : Z :=
  let index := scan_char (Z.to_nat (m_used s)) 0 (m_data s) a_char in
  if m_used s <=? index then U64 (-1) else index.

(** The loop of [IsEqual(const String&)]. *)
Fixpoint IsEqual_loop (n : nat) (i : Z) (d1 d2 : list ascii) : bool :=
  match n with
  | O => true
  | S n' =>
      if negb (Ascii.eqb (rd indet d1 i) (rd indet d2 i)) then false
      else IsEqual_loop n' (i + 1) d1 d2
  end.

(** [IsEqual(const String& a_other)], which [operator==] forwards to. *)
Definition IsEqual (a_other : String) (s : String) : bool :=
  if negb (m_used s =? m_used a_other) then false
  else IsEqual_loop (Z.to_nat (m_used s)) 0 (m_data s) (m_data a_other).

(** [operator+(const String& a_left, const String& a_right)] *)
Definition plus (a_left a_right : String) : option String :=
  result <- default ;;
  result <- Append a_left result ;;
  Append a_right result.

(** What [Append] relies on: the used size and the capacity fit the
    buffer. *)
Definition fits (s : String) : Prop :=
  0 <= m_used s <= Z.of_nat (length (m_data s)) /\
  m_capacity s <= Z.of_nat (length (m_data s)).

End Model.

(** ["abc"] with capacity [6], ["de"] with capacity [4], and
    [String("")], whose capacity is [0]. *)
Definition abc : String := mkString 6 3 (chars "abc" ++ [zero; zero; zero; zero]).
Definition de : String := mkString 4 2 (chars "de" ++ [zero; zero; zero]).
Definition empty : String := mkString 0 0 [zero].

End NtlString.

(** * SharedLock *)

Module SharedLock.

Record SharedLock := mkLock {
  m_reader_count : Z;
  m_writer_count : Z;
  m_is_writing : bool
}.

(** [SharedLock()] *)
Definition new : SharedLock := mkLock 0 0 false.

(** Where a thread is with respect to the lock.  A thread is [Waiting]
    inside [StartWrite], after [++m_writer_count], while
    [pthread_cond_wait] has released the mutex. *)
Inductive phase := Idle | Reading | Waiting | Writing.

#[export] Instance phase_eq_dec : EqDecision phase.
Proof. solve_decision. Defined.

(** The stretches of code a thread runs with [m_mutex] held.  A thread
    whose wait condition holds sleeps in [pthread_cond_wait] and changes
    nothing; a step is the stretch from the moment the condition is found
    false (or from the lock being taken) to the unlock or the next wait. *)
Inductive action :=
| StartRead      (* the body of StartRead, [m_writer_count == 0] found *)
| StartWrite     (* the body of StartWrite up to its return or first wait *)
| ResumeWrite    (* StartWrite from a wake-up that finds the condition false *)
| EndRead
| EndWrite.

Record state := mkState {
  lock : SharedLock;
  threads : list phase
}.

Definition init (n : nat) : state := mkState new (replicate n Idle).

Definition set_phase (t : nat) (p : phase) (l : SharedLock) (s : state) : state :=
  mkState l (<[t := p]> (threads s)).

(** The wait condition of [StartWrite]. *)
Definition must_wait_to_write (l : SharedLock) : bool :=
  negb (m_reader_count l =? 0) || m_is_writing l.

(** One step of thread [t]; [None] when the step is not enabled.  A
    thread calls [EndRead] only after its [StartRead] returned, and
    [EndWrite] only after its [StartWrite] returned. *)
Definition step (t : nat) (a : action) (s : state) : option state :=
  let l := lock s in
  p <- threads s !! t ;;
  match a, p with
  | StartRead, Idle =>
      if negb (m_writer_count l =? 0) then None
      else Some (set_phase t Reading
                   (mkLock (m_reader_count l + 1) (m_writer_count l) (m_is_writing l)) s)
  | StartWrite, Idle =>
      let l1 := mkLock (m_reader_count l) (m_writer_count l + 1) (m_is_writing l) in
      if must_wait_to_write l1 then Some (set_phase t Waiting l1 s)
      else Some (set_phase t Writing
                   (mkLock (m_reader_count l1) (m_writer_count l1) true) s)
  | ResumeWrite, Waiting =>
      if must_wait_to_write l then None
      else Some (set_phase t Writing
                   (mkLock (m_reader_count l) (m_writer_count l) true) s)
  | EndRead, Reading =>
      Some (set_phase t Idle
              (mkLock (m_reader_count l - 1) (m_writer_count l) (m_is_writing l)) s)
  | EndWrite, Writing =>
      Some (set_phase t Idle
              (mkLock (m_reader_count l) (m_writer_count l - 1) false) s)
  | _, _ => None
  end.

(** The states [n] threads can bring a new lock to. *)
Inductive reachable (n : nat) : state -> Prop :=
| reachable_init : reachable n (init n)
| reachable_step s t a s' :
    reachable n s -> step t a s = Some s' -> reachable n s'.

(** Runs a schedule, for examples. *)
Definition run (sched : list (nat * action)) (s : state) : option state :=
  fold_left (fun os '(t, a) => s' <- os ;; step t a s') sched (Some s).

(** The number of threads in phase [p]. *)
Definition count (p : phase) (ps : list phase) : Z :=
  Z.of_nat (length (filter (fun q => q = p) ps)).

(** The counters and the flag describe the threads: [m_reader_count] is
    the number of readers, [m_writer_count] the number of writers writing
    or waiting, and [m_is_writing] holds exactly when one thread writes,
    which excludes readers. *)
Definition consistent (s : state) : Prop :=
  m_reader_count (lock s) = count Reading (threads s) /\
  m_writer_count (lock s) = count Waiting (threads s) + count Writing (threads s) /\
  (m_is_writing (lock s) = true ->
     count Writing (threads s) = 1 /\ count Reading (threads s) = 0) /\
  (m_is_writing (lock s) = false -> count Writing (threads s) = 0).

(** ** Wake-ups *)

(** The two condition variables: readers wait on [m_no_writers_left],
    writers on [m_is_only_access]. *)
Inductive condition := m_no_writers_left | m_is_only_access.

(** The condition variable a step broadcasts before it unlocks the
    mutex; [l] is the lock after the step's updates, as in [EndRead] and
    [EndWrite], which test the counters after changing them. *)
Definition broadcast (a : action) (l : SharedLock) : option condition :=
  match a with
  | EndRead =>
      if (m_reader_count l =? 0) && (0 <? m_writer_count l)
      then Some m_is_only_access else None
  | EndWrite =>
      if 0 <? m_writer_count l then Some m_is_only_access
      else Some m_no_writers_left
  | _ => None
  end.

End SharedLock.

(** * Bitset<size> *)

Module Bitset.
Section Model.
(** The template parameter. *)
Variable size : Z.
(** The indeterminate content of a fresh [Byte] buffer. *)
Variable indet : Z.

(** The [Byte]s ['0'] and ['1']. *)
Definition bit0 : Z := 48.
Definition bit1 : Z := 49.

Record Bitset := mkBitset {
  m_bits : list Z;
  m_capacity : Z;
  m_size : Z
}.

Definition set_bits (b : Bitset) (d : list Z) : Bitset :=
  mkBitset d (m_capacity b) (m_size b).

(** [memset(dst, c, n)] *)
Definition memset (dst : list Z) (c n : Z) : option (list Z) :=
  for_up 0 n (fun i d => wr d i c) dst.

(** [Reset()] *)
Definition ResetAll (b : Bitset) : option Bitset :=
  d <- memset (m_bits b) bit0 (m_size b) ;;
  Some (set_bits b d).

(** [Bitset()] *)
Definition new : option Bitset :=
  ResetAll (mkBitset (alloc indet (size + 1)) (size + 1) size).

(** [Set(a_index)] *)
Definition Set_ (a_index : Z) (b : Bitset) : option Bitset :=
  d <- wr (m_bits b) a_index bit1 ;;
  Some (set_bits b d).

(** [Reset(a_index)] *)
Definition Reset (a_index : Z) (b : Bitset) : option Bitset :=
  d <- wr (m_bits b) a_index bit0 ;;
  Some (set_bits b d).

(** [Flip(a_index)] *)
Definition Flip (a_index : Z) (b : Bitset) : option Bitset :=
  d <- wr (m_bits b) a_index
         (if rd indet (m_bits b) a_index =? bit0 then bit1 else bit0) ;;
  Some (set_bits b d).

(** [Get(a_index)], which [operator[]] forwards to. *)
Definition Get (a_index : Z) (b : Bitset) : Z := rd indet (m_bits b) a_index.

(** [IsSet(a_index)] *)
Definition IsSet (a_index : Z) (b : Bitset) : bool :=
  rd indet (m_bits b) a_index =? bit1.

(** The loop of [GetCount]. *)
Fixpoint GetCount_loop (n : nat) (i : Z) (d : list Z) (result : Z) : Z :=
  match n with
  | O => result
  | S n' =>
      GetCount_loop n' (i + 1) d
        (if rd indet d i =? bit1 then result + 1 else result)
  end.

(** [GetCount()] *)
Definition GetCount (b : Bitset) : Z :=
  GetCount_loop (Z.to_nat (m_size b)) 0 (m_bits b) 0.

(** The loop of [IsNone]. *)
Fixpoint IsNone_loop (n : nat) (i : Z) (d : list Z) : bool :=
  match n with
  | O => true
  | S n' => if rd indet d i =? bit1 then false else IsNone_loop n' (i + 1) d
  end.

(** [IsNone()] *)
Definition IsNone (b : Bitset) : bool :=
  IsNone_loop (Z.to_nat (m_size b)) 0 (m_bits b).

(** The loop of [IsAny]. *)
Fixpoint IsAny_loop (n : nat) (i : Z) (d : list Z) : bool :=
  match n with
  | O => false
  | S n' => if rd indet d i =? bit1 then true else IsAny_loop n' (i + 1) d
  end.

(** [IsAny()] *)
Definition IsAny (b : Bitset) : bool :=
  IsAny_loop (Z.to_nat (m_size b)) 0 (m_bits b).

(** The loop of [IsEqual]. *)
Fixpoint IsEqual_loop (n : nat) (i : Z) (d1 d2 : list Z) : bool :=
  match n with
  | O => true
  | S n' =>
      if negb (rd indet d1 i =? rd indet d2 i) then false
      else IsEqual_loop n' (i + 1) d1 d2
  end.

(** [IsEqual(a_other)], which [operator==] forwards to. *)
Definition IsEqual (a_other : Bitset) (b : Bitset) : bool :=
  if negb (m_size b =? m_size a_other) then false
  else IsEqual_loop (Z.to_nat (m_size b)) 0 (m_bits b) (m_bits a_other).

(** [operator&(a_other)]: the result is a new [Bitset<size>]. *)
Definition and_ (a_other : Bitset) (b : Bitset) : option Bitset :=
  _ <- VERIFY (m_size b =? m_size a_other) ;;
  result <- new ;;
  d <- for_up 0 (m_size result)
         (fun i d =>
            wr d i (Z.land (rd indet (m_bits b) i) (rd indet (m_bits a_other) i)))
         (m_bits result) ;;
  Some (set_bits result d).

(** ** Vocabulary *)

(** The bits the set stands for: slot [i] holds ['1']. *)
Definition bits (b : Bitset) : list bool :=
  (fun x => x =? bit1) <$> take (Z.to_nat (m_size b)) (m_bits b).

(** A [Bitset<size>] as the constructor and the bit operations leave
    it: [size + 1] slots, the first [size] holding ['0'] or ['1']. *)
Definition wf (b : Bitset) : Prop :=
  0 <= size /\ m_size b = size /\ m_capacity b = size + 1 /\
  Z.of_nat (length (m_bits b)) = size + 1 /\
  Forall (fun x => x = bit0 \/ x = bit1) (take (Z.to_nat size) (m_bits b)).

End Model.

(** Two [Bitset<4>]: the bits [1] and [3] set, and the bits [0] and [1]
    set. *)
Definition bits_0101 : Bitset := mkBitset [48; 49; 48; 49; 0] 5 4.
Definition bits_1100 : Bitset := mkBitset [49; 49; 48; 48; 0] 5 4.

End Bitset.

(** * List<T>, Stack<T> and Queue<T> *)

(** [List<T>] ([data/List.hpp]): a singly linked list behind a head
    node that holds no element.  Nodes live in a heap: a [new Node] takes
    a fresh address, a [delete] leaves a hole, and going through
    [nullptr], a deleted node or an address never allocated has no
    defined result. *)
Module NtlList.
Section Model.
Context {T : Type} `{EqDecision T}.
(** The indeterminate fields of a node that was just allocated. *)
Variable indet : T.
Variable indet_next : option nat.

(** A [Node*]: an address, or [nullptr]. *)
Definition ptr : Type := option nat.

Record Node := mkNode {
  value : T;
  next : ptr
}.

Definition heap : Type := list (option Node).

(** [new Node] *)
Definition new_node (h : heap) : heap * ptr :=
  (h ++ [Some (mkNode indet indet_next)], Some (length h)).

(** [*p] as an rvalue. *)
Definition load (h : heap) (p : ptr) : option Node :=
  a <- p ;; n <- h !! a ;; n.

(** [*p = n] *)
Definition store (h : heap) (p : ptr) (n : Node) : option heap :=
  a <- p ;; _ <- load h p ;; Some (<[a := Some n]> h).

(** [p->value = x] *)
Definition set_value (h : heap) (p : ptr) (x : T) : option heap :=
  n <- load h p ;; store h p (mkNode x (next n)).

(** [p->next = q] *)
Definition set_next (h : heap) (p : ptr) (q : ptr) : option heap :=
  n <- load h p ;; store h p (mkNode (value n) q).

(** [delete p] *)
Definition delete_node (h : heap) (p : ptr) : option heap :=
  match p with
  | None => Some h
  | Some a => _ <- load h p ;; Some (<[a := None]> h)
  end.

Definition is_null (p : ptr) : bool :=
  match p with None => true | Some _ => false end.

Record List := mkList {
  m_head : ptr;
  m_tail : ptr;
  m_size : Z
}.

Definition set_tail (l : List) (p : ptr) : List := mkList (m_head l) p (m_size l).
Definition set_size (l : List) (n : Z) : List := mkList (m_head l) (m_tail l) n.

(** [List()] *)
Definition new (h : heap) : option (heap * List) :=
  let '(h, head) := new_node h in
  h <- set_next h head None ;;
  Some (h, mkList head head 0).

(** [InsertFront(a_element)], with the node it returns; [m_size] is a
    [Size]. *)
Definition InsertFront (a_element : T) (h : heap) (l : List)
    : option (heap * List * ptr) :=
  let '(h, result) := new_node h in
  head <- load h (m_head l) ;;
  let l := if is_null (next head) then set_tail l result else l in
  h <- set_value h result a_element ;;
  h <- set_next h result (next head) ;;
  h <- set_next h (m_head l) result ;;
  Some (h, set_size l (U64 (m_size l + 1)), result).

(** [InsertBack(a_element)] *)
Definition InsertBack (a_element : T) (h : heap) (l : List)
    : option (heap * List * ptr) :=
  let '(h, result) := new_node h in
  h <- set_value h result a_element ;;
  h <- set_next h result None ;;
  h <- set_next h (m_tail l) result ;;
  Some (h, set_size (set_tail l result) (U64 (m_size l + 1)), result).

(** [InsertAfter(a_node, a_element)] *)
Definition InsertAfter (a_node : ptr) (a_element : T) (h : heap) (l : List)
    : option (heap * List * ptr) :=
  _ <- VERIFY (negb (is_null a_node)) ;;
  let '(h, result) := new_node h in
  h <- set_value h result a_element ;;
  node <- load h a_node ;;
  h <- set_next h result (next node) ;;
  let l := if is_null (next node) then set_tail l result else l in
  h <- set_next h a_node result ;;
  Some (h, set_size l (U64 (m_size l + 1)), result).

(** [RemoveAfter(a_node)]; [m_size] is a [Size]. *)
Definition RemoveAfter (a_node : ptr) (h : heap) (l : List) : option (heap * List) :=
  _ <- VERIFY (negb (is_null a_node)) ;;
  node <- load h a_node ;;
  _ <- VERIFY (negb (is_null (next node))) ;;
  victim <- load h (next node) ;;
  let temp := next victim in
  h <- delete_node h (next node) ;;
  h <- set_next h a_node temp ;;
  let l := if is_null temp then set_tail l a_node else l in
  Some (h, set_size l (U64 (m_size l - 1))).

(** The loop of [RemoveElement], from [curr] on: the heap, the list
    and [success] when it ends.  A chain of nodes is no longer than the
    heap, which bounds the number of rounds. *)
Fixpoint RemoveElement_loop (fuel : nat) (a_element : T) (h : heap) (l : List)
    (curr : ptr) : option (heap * List * bool) :=
  node <- load h curr ;;
  if is_null (next node) then Some (h, l, false)
  else
    victim <- load h (next node) ;;
    if bool_decide (value victim = a_element) then
      let temp := next victim in
      h <- delete_node h (next node) ;;
      h <- set_next h curr temp ;;
      let l := if is_null temp then set_tail l curr else l in
      Some (h, l, true)
    else match fuel with
         | O => None
         | S fuel' => RemoveElement_loop fuel' a_element h l (next node)
         end.

(** [RemoveElement(a_element)]: [m_size] is decremented whether or not
    an element was removed. *)
Definition RemoveElement (a_element : T) (h : heap) (l : List)
    : option (heap * List * bool) :=
  ' (h, l, success) <- RemoveElement_loop (length h) a_element h l (m_head l) ;;
  Some (h, set_size l (U64 (m_size l - 1)), success).

(** The loop of [FindElement]: the value of [curr] when it ends. *)
Fixpoint FindElement_loop (fuel : nat) (a_element : T) (h : heap) (curr : ptr)
    : option ptr :=
  node <- load h curr ;;
  if is_null (next node) then Some curr
  else
    n <- load h (next node) ;;
    if bool_decide (value n = a_element) then Some (next node)
    else match fuel with
         | O => None
         | S fuel' => FindElement_loop fuel' a_element h (next node)
         end.

(** [FindElement(a_element)] *)
Definition FindElement (a_element : T) (h : heap) (l : List) : option ptr :=
  curr <- FindElement_loop (length h) a_element h (m_head l) ;;
  Some (if bool_decide (curr = m_head l) then None else curr).

(** The loop of [Clear]. *)
Fixpoint Clear_loop (fuel : nat) (h : heap) (curr : ptr) : option heap :=
  if is_null curr then Some h
  else match fuel with
       | O => None
       | S fuel' =>
           node <- load h curr ;;
           h <- delete_node h curr ;;
           Clear_loop fuel' h (next node)
       end.

(** [Clear()]; [m_tail] is left as it was. *)
Definition Clear (h : heap) (l : List) : option (heap * List) :=
  head <- load h (m_head l) ;;
  h <- Clear_loop (length h) h (next head) ;;
  h <- set_next h (m_head l) None ;;
  Some (h, set_size l 0).

(** [GetHead()], [GetFront()], [GetBack()], [IsEmpty()], [GetSize()] *)
Definition GetHead (l : List) : ptr := m_head l.
Definition GetFront (h : heap) (l : List) : option ptr :=
  head <- load h (m_head l) ;; Some (next head).
Definition GetBack (l : List) : ptr := m_tail l.
Definition IsEmpty (h : heap) (l : List) : option bool :=
  head <- load h (m_head l) ;; Some (is_null (next head)).
Definition GetSize (l : List) : Z := m_size l.

(** ** Vocabulary *)

(** From [p] on, the nodes at the addresses [ps] hold the elements
    [xs], and the last one ends the chain. *)
Fixpoint chain (h : heap) (p : ptr) (ps : list nat) (xs : list T) : Prop :=
  match ps, xs with
  | [], [] => p = None
  | a :: ps', x :: xs' =>
      p = Some a /\
      exists q, load h (Some a) = Some (mkNode x q) /\ chain h q ps' xs'
  | _, _ => False
  end.

(** The list holds the elements [xs]: behind the head node comes their
    chain, [m_tail] is the last node of it (the head node when there is
    none) and [m_size] their number. *)
Definition holds (h : heap) (l : List) (xs : list T) : Prop :=
  exists (a0 : nat) (v0 : T) (q : ptr) (ps : list nat),
    m_head l = Some a0 /\
    load h (Some a0) = Some (mkNode v0 q) /\
    chain h q ps xs /\
    NoDup (a0 :: ps) /\
    m_tail l = Some (List.last ps a0) /\
    m_size l = Z.of_nat (length xs).

End Model.

Arguments Node : clear implicits.
Arguments heap : clear implicits.

(** The heap and the list after [List<int> l; l.InsertBack(7);
    l.InsertBack(9)], and after [List<int> l] alone; node [0] is the head
    node. *)
Definition heap_7_9 : heap Z :=
  [Some (mkNode 0 (Some 1%nat)); Some (mkNode 7 (Some 2%nat)); Some (mkNode 9 None)].
Definition list_7_9 : List := mkList (Some 0%nat) (Some 2%nat) 2.
Definition heap_empty : heap Z := [Some (mkNode 0 None)].
Definition list_empty : List := mkList (Some 0%nat) (Some 0%nat) 0.
End NtlList.

(** [Stack<T>] ([data/Stack.hpp]) *)
Module Stack.
Section Model.
Context {T : Type}.
Variable indet : T.
Variable indet_next : option nat.

Record Stack := mkStack { m_data : NtlList.List }.

(** [Stack()] *)
Definition new (h : NtlList.heap T) : option (NtlList.heap T * Stack) :=
  ' (h, l) <- NtlList.new indet indet_next h ;;
  Some (h, mkStack l).

(** [Push(a_element)] *)
Definition Push (a_element : T) (h : NtlList.heap T) (s : Stack)
    : option (NtlList.heap T * Stack) :=
  ' (h, l, _) <- NtlList.InsertFront indet indet_next a_element h (m_data s) ;;
  Some (h, mkStack l).

(** [Pop()], with the element it returns. *)
Definition Pop (h : NtlList.heap T) (s : Stack) : option (NtlList.heap T * Stack * T) :=
  front <- NtlList.GetFront h (m_data s) ;;
  node <- NtlList.load h front ;;
  let result := NtlList.value node in
  ' (h, l) <- NtlList.RemoveAfter (NtlList.GetHead (m_data s)) h (m_data s) ;;
  Some (h, mkStack l, result).

(** [Peek()] *)
Definition Peek (h : NtlList.heap T) (s : Stack) : option T :=
  front <- NtlList.GetFront h (m_data s) ;;
  node <- NtlList.load h front ;;
  Some (NtlList.value node).

Definition GetSize (s : Stack) : Z := NtlList.GetSize (m_data s).
Definition IsEmpty (h : NtlList.heap T) (s : Stack) : option bool :=
  NtlList.IsEmpty h (m_data s).

End Model.
End Stack.

(** [Queue<T>] ([data/Queue.hpp]) *)
Module Queue.
Section Model.
Context {T : Type}.
Variable indet : T.
Variable indet_next : option nat.

Record Queue := mkQueue { m_data : NtlList.List }.

(** [Queue()] *)
Definition new (h : NtlList.heap T) : option (NtlList.heap T * Queue) :=
  ' (h, l) <- NtlList.new indet indet_next h ;;
  Some (h, mkQueue l).

(** [Put(a_element)] *)
Definition Put (a_element : T) (h : NtlList.heap T) (q : Queue)
    : option (NtlList.heap T * Queue) :=
  ' (h, l, _) <- NtlList.InsertBack indet indet_next a_element h (m_data q) ;;
  Some (h, mkQueue l).

(** [Get()], with the element it returns. *)
Definition Get (h : NtlList.heap T) (q : Queue) : option (NtlList.heap T * Queue * T) :=
  front <- NtlList.GetFront h (m_data q) ;;
  node <- NtlList.load h front ;;
  let result := NtlList.value node in
  ' (h, l) <- NtlList.RemoveAfter (NtlList.GetHead (m_data q)) h (m_data q) ;;
  Some (h, mkQueue l, result).

(** [Peek()] *)
Definition Peek (h : NtlList.heap T) (q : Queue) : option T :=
  front <- NtlList.GetFront h (m_data q) ;;
  node <- NtlList.load h front ;;
  Some (NtlList.value node).

Definition GetSize (q : Queue) : Z := NtlList.GetSize (m_data q).
Definition IsEmpty (h : NtlList.heap T) (q : Queue) : option bool :=
  NtlList.IsEmpty h (m_data q).

End Model.
End Queue.

(** * Facts about loops and buffers *)

Section LoopFacts.
Context {St : Type}.
Implicit Types (body : Z -> St -> option St) (s : St).

Lemma for_up_inv (P : Z -> St -> Prop) lo hi body s :
  lo <= hi -> P lo s ->
  (forall i s0, lo <= i < hi -> P i s0 ->
     exists s1, body i s0 = Some s1 /\ P (i + 1) s1) ->
  exists s', for_up lo hi body s = Some s' /\ P hi s'.
Proof.
  unfold for_up. intros Hle HP Hstep.
  remember (Z.to_nat (hi - lo)) as n eqn:Hn.
  revert lo s Hle HP Hstep Hn. induction n as [|n IH]; intros lo s Hle HP Hstep Hn.
  - assert (lo = hi) by lia. subst. simpl. eauto.
  - simpl. destruct (Hstep lo s) as (s1 & -> & HP1); [lia | assumption |].
    simpl. apply IH; [lia | assumption | | lia].
    intros i s0 Hi. apply Hstep. lia.
Qed.

Lemma for_up_empty lo hi body s : hi <= lo -> for_up lo hi body s = Some s.
Proof. unfold for_up. intros Hle. replace (Z.to_nat (hi - lo)) with O by lia. reflexivity. Qed.

Lemma for_down_inv (P : Z -> St -> Prop) hi lo body s :
  lo <= hi -> P hi s ->
  (forall i s0, lo < i <= hi -> P i s0 ->
     exists s1, body i s0 = Some s1 /\ P (i - 1) s1) ->
  exists s', for_down hi lo body s = Some s' /\ P lo s'.
Proof.
  unfold for_down. intros Hle HP Hstep.
  remember (Z.to_nat (hi - lo)) as n eqn:Hn.
  revert hi s Hle HP Hstep Hn. induction n as [|n IH]; intros hi s Hle HP Hstep Hn.
  - assert (lo = hi) by lia. subst. simpl. eauto.
  - simpl. destruct (Hstep hi s) as (s1 & -> & HP1); [lia | assumption |].
    simpl. apply IH; [lia | assumption | | lia].
    intros i s0 Hi. apply Hstep. lia.
Qed.
Lemma for_up_partial (P : Z -> St -> Prop) lo hi body s s' :
  P lo s ->
  (forall i s0 s1, lo <= i < hi -> P i s0 -> body i s0 = Some s1 -> P (i + 1) s1) ->
  for_up lo hi body s = Some s' ->
  P (Z.max lo hi) s'.
Proof.
  unfold for_up. intros HP Hstep.
  remember (Z.to_nat (hi - lo)) as n eqn:Hn.
  revert lo s HP Hstep Hn. induction n as [|n IH]; intros lo s HP Hstep Hn Hrun.
  - simpl in Hrun. injection Hrun as <-. replace (Z.max lo hi) with lo by lia. assumption.
  - simpl in Hrun. destruct (body lo s) as [s1|] eqn:Hb; [|discriminate]. simpl in Hrun.
    replace (Z.max lo hi) with (Z.max (lo + 1) hi) by lia.
    apply (IH (lo + 1) s1); [ | | lia | assumption].
    + apply (Hstep lo s); [lia | assumption | assumption].
    + intros i s0 s2 Hi. apply Hstep. lia.
Qed.

Lemma for_down_partial (P : Z -> St -> Prop) hi lo body s s' :
  P hi s ->
  (forall i s0 s1, lo < i <= hi -> P i s0 -> body i s0 = Some s1 -> P (i - 1) s1) ->
  for_down hi lo body s = Some s' ->
  P (Z.min hi lo) s'.
Proof.
  unfold for_down. intros HP Hstep.
  remember (Z.to_nat (hi - lo)) as n eqn:Hn.
  revert hi s HP Hstep Hn. induction n as [|n IH]; intros hi s HP Hstep Hn Hrun.
  - simpl in Hrun. injection Hrun as <-. replace (Z.min hi lo) with hi by lia. assumption.
  - simpl in Hrun. destruct (body hi s) as [s1|] eqn:Hb; [|discriminate]. simpl in Hrun.
    replace (Z.min hi lo) with (Z.min (hi - 1) lo) by lia.
    apply (IH (hi - 1) s1); [ | | lia | assumption].
    + apply (Hstep hi s); [lia | assumption | assumption].
    + intros i s0 s2 Hi. apply Hstep. lia.
Qed.
End LoopFacts.

Lemma bind_Some {A B : Type} (m : option A) (f : A -> option B) (b : B) :
  bind m f = Some b -> exists a, m = Some a /\ f a = Some b.
Proof. destruct m as [a|]; simpl; [eauto | discriminate]. Qed.

Lemma VERIFY_Some (cond : bool) (u : unit) : VERIFY cond = Some u -> cond = true.
Proof. destruct cond; [reflexivity | discriminate]. Qed.

(** Splits a hypothesis [x <- m ;; k = Some b]. *)
Tactic Notation "inv_bind" hyp(H) "as" ident(x) ident(Hx) :=
  apply bind_Some in H as (x & Hx & H).

(** Uses a hypothesis [_ <- VERIFY c ;; k = Some b]. *)
Ltac inv_verify H :=
  let u := fresh "u" in
  let Hu := fresh "Hv" in
  apply bind_Some in H as (u & Hu & H); apply VERIFY_Some in Hu; clear u.

Section BufferFacts.
Context {T : Type}.
Variable indet : T.
Implicit Types (d : list T) (i : Z) (x : T).

Lemma wr_ok d i x :
  0 <= i < Z.of_nat (length d) -> wr d i x = Some (<[Z.to_nat i := x]> d).
Proof.
  intros Hi. unfold wr.
  destruct (Z.leb_spec 0 i); [|lia]. destruct (Z.ltb_spec i (Z.of_nat (length d))); [|lia].
  reflexivity.
Qed.

Lemma wr_inv d i x d' :
  wr d i x = Some d' ->
  0 <= i < Z.of_nat (length d) /\ d' = <[Z.to_nat i := x]> d.
Proof.
  unfold wr. destruct (Z.leb_spec 0 i); simpl; [|discriminate].
  destruct (Z.ltb_spec i (Z.of_nat (length d))); [|discriminate].
  intros [= <-]. auto.
Qed.

Lemma wr_oob d i x : Z.of_nat (length d) <= i -> wr d i x = None.
Proof.
  intros Hi. unfold wr. destruct (Z.ltb_spec i (Z.of_nat (length d))); [lia|].
  rewrite andb_false_r. reflexivity.
Qed.

Lemma rd_lookup d i x : 0 <= i -> d !! Z.to_nat i = Some x -> rd indet d i = x.
Proof.
  intros Hi Hl. unfold rd. destruct (Z.ltb_spec i 0); [lia|]. rewrite Hl. reflexivity.
Qed.

Lemma rd_ok d i :
  0 <= i < Z.of_nat (length d) -> d !! Z.to_nat i = Some (rd indet d i).
Proof.
  intros Hi. destruct (lookup_lt_is_Some_2 d (Z.to_nat i)) as [x Hx]; [lia|].
  rewrite (rd_lookup d i x); [assumption | lia | assumption].
Qed.

Lemma rd_take d (n k : Z) :
  0 <= k < n -> n <= Z.of_nat (length d) ->
  take (Z.to_nat n) d !! Z.to_nat k = Some (rd indet d k).
Proof.
  intros Hk Hn. rewrite lookup_take_lt by lia. apply rd_ok. lia.
Qed.

Lemma length_alloc n : length (alloc indet n) = Z.to_nat n.
Proof. apply length_replicate. Qed.

Lemma take_insert_snoc d (n : nat) x :
  (n < length d)%nat -> take (S n) (<[n := x]> d) = take n d ++ [x].
Proof.
  intros Hn. rewrite (take_S_r _ _ x) by (apply list_lookup_insert_eq; assumption).
  rewrite take_insert_ge by lia. reflexivity.
Qed.
End BufferFacts.

(** * Array: insertion and sub-arrays *)

Module ArrayFacts.
Import Array.

Section Facts.
Context {T : Type} `{Comparable T}.
Variable indet : T.
Implicit Types (a : Array T) (x : T).

Lemma Resize_copies a_capacity a :
  wf a -> m_capacity a < a_capacity ->
  exists temp,
    Resize indet a_capacity a = Some (set_data (set_capacity a a_capacity) temp) /\
    Z.of_nat (length temp) = a_capacity /\
    take (Z.to_nat (m_used a)) temp = live a.
Proof.
  intros [[Hu0 Huc] Hul] Hcap. unfold Resize, VERIFY.
  destruct (Z.leb_spec (m_used a) a_capacity); [|lia].
  destruct (Z.ltb_spec (m_capacity a) a_capacity); [|lia]. simpl.
  destruct (for_up_inv
    (fun i temp => Z.of_nat (length temp) = a_capacity /\
                   take (Z.to_nat i) temp = take (Z.to_nat i) (m_data a))
    0 (m_used a) (fun i temp => wr temp i (rd indet (m_data a) i))
    (alloc indet a_capacity)) as (temp & -> & Hlen & Htake).
  - lia.
  - rewrite length_alloc. split; [lia | reflexivity].
  - intros i temp Hi [Hlen Htake]. rewrite wr_ok by lia.
    eexists; split; [reflexivity|]. rewrite length_insert. split; [assumption|].
    replace (Z.to_nat (i + 1)) with (S (Z.to_nat i)) by lia.
    rewrite take_insert_snoc by lia.
    rewrite (take_S_r (m_data a) _ (rd indet (m_data a) i)) by (apply rd_ok; lia).
    rewrite Htake. reflexivity.
  - simpl. eauto.
Qed.

(** ** The order *)

#[local] Instance le_rel_trans : Transitive (le_rel (T:=T)).
Proof. intros a b c. apply op_le_trans. Qed.

#[local] Instance le_rel_antisym : AntiSymm (=) (le_rel (T:=T)).
Proof. intros a b. apply op_le_antisym. Qed.

Lemma gt_true_le (a b : T) : op_gt a b = true -> le_rel b a.
Proof.
  rewrite op_gt_le. intros Hn. destruct (op_le_total a b) as [Hab|Hba]; [|exact Hba].
  rewrite Hab in Hn. discriminate.
Qed.

Lemma gt_false_le (a b : T) : op_gt a b = false -> le_rel a b.
Proof. rewrite op_gt_le. unfold le_rel. destruct (op_le a b); [reflexivity | discriminate]. Qed.

Lemma le_false_le (a b : T) : op_le a b = false -> le_rel b a.
Proof. intros Hn. apply gt_true_le. rewrite op_gt_le, Hn. reflexivity. Qed.

Lemma ascending_short (l : list T) : (length l <= 1)%nat -> ascending l.
Proof.
  destruct l as [|x [|y l]]; simpl; intros Hl; [constructor | | lia].
  constructor; constructor.
Qed.

(** ** Reading and writing the middle of a buffer *)

Lemma rd_middle (A B : list T) (x : T) :
  rd indet (A ++ x :: B) (Z.of_nat (length A)) = x.
Proof.
  apply rd_lookup; [lia|]. rewrite Nat2Z.id.
  rewrite lookup_app_r by lia. rewrite Nat.sub_diag. reflexivity.
Qed.

Lemma wr_middle (A B : list T) (x y : T) :
  wr (A ++ x :: B) (Z.of_nat (length A)) y = Some (A ++ y :: B).
Proof.
  rewrite wr_ok by (rewrite length_app; simpl; lia). f_equal.
  rewrite Nat2Z.id. replace (length A) with (length A + 0)%nat at 1 by lia.
  rewrite insert_app_r. reflexivity.
Qed.

(** ** insertionSort *)

(** The [while] loop moves the hole at the end of [A] left, past the
    elements greater than [temp]. *)
Lemma shift_loop_spec (temp : T) (A : list T) :
  forall (h : T) (S R : list T) (fuel : nat),
    (length A <= fuel)%nat ->
    exists A1 A2 h',
      A = A1 ++ A2 /\
      Forall (fun y => op_gt y temp = true) A2 /\
      (forall A0 y, A1 = A0 ++ [y] -> op_gt y temp = false) /\
      shift_loop indet fuel (A ++ h :: S ++ R) (Z.of_nat (length A) - 1) temp
      = Some (A1 ++ h' :: (A2 ++ S) ++ R, Z.of_nat (length A1) - 1).
Proof.
  induction A as [|y A' IH] using rev_ind; intros h S R fuel Hfuel.
  - exists [], [], h. split; [reflexivity|]. split; [constructor|]. split.
    + intros A0 y HA0. destruct A0; discriminate.
    + destruct fuel; simpl; rewrite andb_false_r; reflexivity.
  - rewrite length_app in *. simpl in *.
    replace (Z.of_nat (length A' + 1) - 1) with (Z.of_nat (length A')) by lia.
    destruct fuel as [|fuel]; [lia|].
    destruct (op_gt y temp) eqn:Hgt.
    + specialize (IH y (y :: S) R fuel ltac:(lia)).
      destruct IH as (A1 & A2 & h' & HA & HF & Hlast & Hrun).
      exists A1, (A2 ++ [y]), h'. split; [subst A'; rewrite app_assoc; reflexivity|].
      split; [apply Forall_app; split; [assumption | constructor; [assumption|constructor]]|].
      split; [assumption|].
      simpl. rewrite <- (app_assoc A' [y]). simpl. rewrite rd_middle, Hgt.
      destruct (Z.leb_spec 0 (Z.of_nat (length A'))); [|lia]. simpl.
      replace (A' ++ y :: h :: S ++ R) with ((A' ++ [y]) ++ h :: S ++ R)
        by (rewrite <- app_assoc; reflexivity).
      replace (Z.of_nat (length A') + 1) with (Z.of_nat (length (A' ++ [y])))
        by (rewrite length_app; simpl; lia).
      rewrite wr_middle. simpl. rewrite <- (app_assoc A' [y]). simpl.
      change (y :: S ++ R) with ((y :: S) ++ R). rewrite Hrun.
      rewrite <- !app_assoc. reflexivity.
    + exists (A' ++ [y]), [], h. split; [rewrite app_nil_r; reflexivity|].
      split; [constructor|]. split.
      * intros A0 y0 HA0. apply app_inj_tail in HA0 as [_ <-]. assumption.
      * simpl. rewrite <- (app_assoc A' [y]). simpl. rewrite rd_middle, Hgt. simpl.
        rewrite length_app. simpl. do 3 f_equal. lia.
Qed.

(** One round of the [for] loop inserts [m_data[i]] into the sorted
    prefix before it. *)
Lemma insertionSort_body_spec (P R : list T) (temp : T) :
  ascending P ->
  exists P',
    insertionSort_body indet (Z.of_nat (length P)) (P ++ temp :: R) = Some (P' ++ R) /\
    ascending P' /\ P' ≡ₚ P ++ [temp].
Proof.
  intros HP. unfold insertionSort_body. rewrite rd_middle.
  destruct (shift_loop_spec temp P temp [] R (Z.to_nat (Z.of_nat (length P))))
    as (A1 & A2 & h' & HA & HF & Hlast & Hrun); [lia|].
  simpl in Hrun. rewrite Hrun. simpl.
  replace (Z.of_nat (length A1) - 1 + 1) with (Z.of_nat (length A1)) by lia.
  rewrite wr_middle. exists (A1 ++ temp :: A2).
  split; [rewrite app_nil_r, <- app_assoc; reflexivity|].
  subst P. apply StronglySorted_app in HP as (Hcross & HA1 & HA2).
  split.
  - apply StronglySorted_app_2; [| assumption |].
    + intros x1 x2 Hx1 Hx2.
      assert (Hx1t : le_rel x1 temp).
      { destruct A1 as [|z A1' _] using rev_ind; [inversion Hx1|].
        pose proof (Hlast A1' z eq_refl) as Hz. apply gt_false_le in Hz.
        apply elem_of_app in Hx1 as [Hx1|Hx1].
        - apply StronglySorted_app in HA1 as (Hc & _ & _).
          transitivity z; [|assumption]. apply Hc; [assumption|]. apply list_elem_of_singleton. reflexivity.
        - apply list_elem_of_singleton in Hx1. subst. assumption. }
      apply elem_of_cons in Hx2 as [->|Hx2]; [assumption|].
      apply Hcross; assumption.
    + constructor; [assumption|]. rewrite Forall_forall in HF |- *.
      intros x Hx. apply gt_true_le. apply HF. assumption.
  - rewrite <- app_assoc. apply Permutation_app_head. apply Permutation_cons_append.
Qed.

Lemma insertionSort_loop_spec (d : list T) (used : Z) :
  0 <= used <= Z.of_nat (length d) ->
  exists d',
    for_up 1 used (insertionSort_body indet) d = Some d' /\
    length d' = length d /\
    ascending (take (Z.to_nat used) d') /\
    take (Z.to_nat used) d' ≡ₚ take (Z.to_nat used) d /\
    drop (Z.to_nat used) d' = drop (Z.to_nat used) d.
Proof.
  intros Hused. destruct (Z.le_gt_cases used 1) as [Hsmall|Hbig].
  - rewrite for_up_empty by lia. exists d. repeat split; try reflexivity.
    apply ascending_short. rewrite length_take. lia.
  - destruct (for_up_inv
      (fun i d' => length d' = length d /\
                   ascending (take (Z.to_nat i) d') /\
                   take (Z.to_nat i) d' ≡ₚ take (Z.to_nat i) d /\
                   drop (Z.to_nat i) d' = drop (Z.to_nat i) d)
      1 used (insertionSort_body indet) d) as (d' & Hrun & Hinv).
    + lia.
    + repeat split; try reflexivity. apply ascending_short. rewrite length_take. lia.
    + intros i d0 Hi (Hlen & Hasc & Hperm & Hdrop).
      destruct (lookup_lt_is_Some_2 d (Z.to_nat i)) as [temp Htemp]; [lia|].
      assert (Hd0 : d0 = take (Z.to_nat i) d0 ++ temp :: drop (S (Z.to_nat i)) d).
      { rewrite <- (take_drop (Z.to_nat i) d0) at 1. rewrite Hdrop.
        rewrite (drop_S _ _ _ Htemp). reflexivity. }
      destruct (insertionSort_body_spec (take (Z.to_nat i) d0) (drop (S (Z.to_nat i)) d) temp Hasc)
        as (P' & Hbody & HascP' & HpermP').
      rewrite length_take_le in Hbody by lia. rewrite Z2Nat.id in Hbody by lia.
      rewrite <- Hd0 in Hbody. rewrite Hbody. eexists; split; [reflexivity|].
      assert (HlenP' : length P' = S (Z.to_nat i)).
      { rewrite (Permutation_length HpermP'), length_app, length_take_le by lia. simpl. lia. }
      replace (Z.to_nat (i + 1)) with (S (Z.to_nat i)) by lia.
      split; [|split; [|split]].
      * rewrite length_app, HlenP', length_drop. lia.
      * rewrite take_app_length' by lia. assumption.
      * rewrite take_app_length' by lia. rewrite HpermP', Hperm.
        rewrite (take_S_r _ _ _ Htemp). reflexivity.
      * rewrite drop_app_length' by lia. reflexivity.
    + exists d'. split; assumption.
Qed.

Lemma insertionSort_spec a :
  0 <= m_used a <= Z.of_nat (length (m_data a)) ->
  exists a',
    insertionSort indet a = Some a' /\
    ascending (live a') /\ live a' ≡ₚ live a /\
    m_used a' = m_used a /\ m_capacity a' = m_capacity a /\
    length (m_data a') = length (m_data a) /\
    m_sorted a' = true /\ m_keep_sorted a' = m_keep_sorted a /\
    m_growable a' = m_growable a.
Proof.
  intros Hused. unfold insertionSort.
  destruct (insertionSort_loop_spec (m_data a) (m_used a)) as (d' & -> & Hlen & Hasc & Hperm & _);
    [lia|].
  simpl. eexists; split; [reflexivity|]. unfold live. simpl. repeat split; assumption.
Qed.

(** ** Inserting into an auto-sorted array *)

Lemma Resize_fields a_capacity a a' :
  Resize indet a_capacity a = Some a' ->
  m_used a' = m_used a /\ m_keep_sorted a' = m_keep_sorted a.
Proof.
  unfold Resize. intros Hr. inv_verify Hr. inv_verify Hr. inv_bind Hr as temp Htemp.
  injection Hr as <-. split; reflexivity.
Qed.

Lemma grown_fields (cond : bool) a_capacity a a1 :
  (if cond then Resize indet a_capacity a else Some a) = Some a1 ->
  m_used a1 = m_used a /\ m_keep_sorted a1 = m_keep_sorted a.
Proof.
  destruct cond; [apply Resize_fields|]. intros [= <-]. split; reflexivity.
Qed.

(** What the two overloads have in common once the element is stored. *)
Lemma keep_sorted_finish a2 a3 :
  0 <= m_used a2 <= Z.of_nat (length (m_data a2)) ->
  m_keep_sorted a2 = true ->
  (if m_keep_sorted a2 then insertionSort indet a2 else Some (set_sorted a2 false)) = Some a3 ->
  (0 <= m_used a3 <= Z.of_nat (length (m_data a3)) /\ m_keep_sorted a3 = true) /\
  ascending (live a3) /\ m_sorted a3 = true.
Proof.
  intros Hused Hks Hrun. rewrite Hks in Hrun.
  destruct (insertionSort_spec a2 Hused)
    as (a3' & Hsort & Hasc & _ & Hu & _ & Hlen & Hso & Hks' & _).
  rewrite Hsort in Hrun. injection Hrun as <-.
  repeat split; try assumption; try lia. congruence.
Qed.

Lemma run_insert_keep_sorted c a a' :
  0 <= m_used a <= Z.of_nat (length (m_data a)) ->
  m_keep_sorted a = true ->
  run_insert indet c a = Some a' ->
  (0 <= m_used a' <= Z.of_nat (length (m_data a')) /\ m_keep_sorted a' = true) /\
  ascending (live a') /\ m_sorted a' = true.
Proof.
  intros Hused Hks Hrun. destruct c as [x|x idx]; simpl in Hrun.
  - inv_bind Hrun as r Hins. destruct r as [a3 r]. injection Hrun as <-.
    unfold Insert in Hins. inv_bind Hins as a1 Hgrow.
    apply grown_fields in Hgrow as [Hu1 Hks1].
    inv_verify Hins. inv_bind Hins as d Hwr. apply wr_inv in Hwr as [Hi ->].
    inv_bind Hins as a3' Hfin. injection Hins as <- _.
    apply keep_sorted_finish in Hfin; [assumption | | simpl; congruence].
    simpl. rewrite length_insert. lia.
  - unfold InsertAt in Hrun. inv_verify Hrun. inv_bind Hrun as a1 Hgrow.
    apply grown_fields in Hgrow as [Hu1 Hks1]. inv_verify Hrun.
    inv_bind Hrun as d Hshift. inv_bind Hrun as d' Hwr. apply wr_inv in Hwr as [Hi ->].
    apply (for_down_partial
             (fun i d => length d = length (m_data a1) /\
                         (i < m_used a1 -> m_used a1 < Z.of_nat (length (m_data a1))))) in Hshift.
    + destruct Hshift as [Hlen Hroom].
      apply keep_sorted_finish in Hrun; [assumption | | simpl; congruence].
      simpl. rewrite length_insert.
      destruct (Z.eq_dec idx (m_used a1)); [lia|].
      assert (m_used a1 < Z.of_nat (length (m_data a1))) by (apply Hroom; lia). lia.
    + split; [reflexivity | lia].
    + intros i d0 d1 Hir [Hlen Hroom] Hwr. apply wr_inv in Hwr as [Hib ->].
      rewrite length_insert. split; [assumption|]. intros _.
      destruct (Z.eq_dec i (m_used a1)); [lia|]. apply Hroom. lia.
Qed.


(** ** Searching *)

Lemma op_eq_true (x y : T) : op_eq x y = true -> x = y.
Proof. apply op_eq_spec. Qed.

Lemma op_eq_false (x y : T) : op_eq x y = false -> x <> y.
Proof. intros Hf Heq. apply op_eq_spec in Heq. congruence. Qed.

Lemma frontBackSearch_sound d e a_from a_to :
  frontBackSearch indet d e a_from a_to = -1 \/
  (a_from <= frontBackSearch indet d e a_from a_to <= a_to /\
   rd indet d (frontBackSearch indet d e a_from a_to) = e).
Proof.
  funelim (frontBackSearch indet d e a_from a_to); [|left; reflexivity].
  destruct (op_eq (rd indet d a_from) a_element) eqn:Hfront.
  { right. split; [lia | apply op_eq_true; assumption]. }
  destruct (op_eq (rd indet d a_to) a_element) eqn:Hback.
  { right. split; [lia | apply op_eq_true; assumption]. }
  match goal with
  | IH : _ \/ _ |- _ => destruct IH as [IH|[IH1 IH2]]; [left; assumption | right]
  end.
  split; [lia | assumption].
Qed.

Lemma frontBackSearch_complete d e a_from a_to :
  forall k, 0 <= a_from -> a_from <= k <= a_to -> rd indet d k = e ->
            frontBackSearch indet d e a_from a_to <> -1.
Proof.
  funelim (frontBackSearch indet d e a_from a_to); intros k Hfrom0 Hk Hrd; [|lia].
  destruct (op_eq (rd indet d a_from) a_element) eqn:Hfront; [lia|].
  destruct (op_eq (rd indet d a_to) a_element) eqn:Hback; [lia|].
  apply op_eq_false in Hfront, Hback.
  match goal with
  | IH : forall k, _ -> _ -> _ -> _ <> -1 |- _ => apply (IH k); [lia | | assumption]
  end.
  assert (k <> a_from) by congruence. assert (k <> a_to) by congruence. lia.
Qed.

Lemma quot2_between (a_from a_to : Z) :
  0 <= a_from -> a_from < a_to -> a_from <= (a_from + a_to) ÷ 2 < a_to.
Proof.
  intros Hpos Hlt. rewrite Z.quot_div_nonneg by lia.
  pose proof (Z.div_mod (a_from + a_to) 2 ltac:(lia)).
  pose proof (Z.mod_pos_bound (a_from + a_to) 2 ltac:(lia)). lia.
Qed.

Lemma le_rel_refl (x : T) : le_rel x x.
Proof. destruct (op_le_total x x); assumption. Qed.

Lemma ascending_lookup (l : list T) (i j : nat) (x y : T) :
  ascending l -> (i <= j)%nat -> l !! i = Some x -> l !! j = Some y -> le_rel x y.
Proof.
  intros Hasc. revert i j. induction Hasc as [|z l Hl IH Hz]; intros i j Hij Hi Hj.
  - discriminate.
  - destruct i as [|i]; destruct j as [|j]; simpl in *; try lia.
    + injection Hi as <-. injection Hj as <-. apply le_rel_refl.
    + injection Hi as <-. rewrite Forall_forall in Hz. apply Hz.
      apply list_elem_of_lookup_2 with j. assumption.
    + apply (IH i j); [lia | assumption | assumption].
Qed.

(** On a sorted prefix [binarySearch] finds an element that is there. *)
Lemma binarySearch_present d e a_from a_to :
  forall (len k : Z),
    ascending (take (Z.to_nat len) d) -> len <= Z.of_nat (length d) ->
    0 <= a_from -> a_to < len ->
    a_from <= k <= a_to -> rd indet d k = e ->
    a_from <= binarySearch indet d e a_from a_to <= a_to /\
    rd indet d (binarySearch indet d e a_from a_to) = e.
Proof.
  funelim (binarySearch indet d e a_from a_to); intros len k Hasc Hlen Hfrom0 Hto Hk Hrd.
  - assert (k = a_from) by lia. subst k. split; [lia | assumption].
  - lia.
  - assert (Hlt : a_from < a_to) by lia.
    pose proof (quot2_between a_from a_to Hfrom0 Hlt) as Hp.
    set (pivot := (a_from + a_to) ÷ 2) in *.
    assert (Hsorted : forall i j, 0 <= i <= j -> j < len ->
                        le_rel (rd indet d i) (rd indet d j)).
    { intros i j Hij Hj.
      apply (ascending_lookup (take (Z.to_nat len) d) (Z.to_nat i) (Z.to_nat j));
        [assumption | lia | apply rd_take; lia | apply rd_take; lia]. }
    destruct (op_lt a_element (rd indet d pivot)) eqn:Hless.
    + match goal with
      | IH : forall len k, _ -> _ -> _ -> pivot - 1 < len -> _ |- _ =>
          destruct (IH len k) as [IH1 IH2]; try assumption; try lia
      end.
      * destruct (Z_le_gt_dec pivot k) as [Hge|Hgt]; [|lia].
        rewrite op_lt_le in Hless. pose proof (Hsorted pivot k ltac:(lia) ltac:(lia)) as Hle.
        unfold le_rel in Hle. rewrite Hrd in Hle. rewrite Hle in Hless. discriminate.
      * split; [lia | assumption].
    + destruct (op_gt a_element (rd indet d pivot)) eqn:Hmore.
      * match goal with
        | IH : forall len k, _ -> _ -> 0 <= pivot + 1 -> _ |- _ =>
            destruct (IH len k) as [IH1 IH2]; try assumption; try lia
        end.
        -- destruct (Z_le_gt_dec k pivot) as [Hle|Hgt]; [|lia].
           rewrite op_gt_le in Hmore. pose proof (Hsorted k pivot ltac:(lia) ltac:(lia)) as Hle'.
           unfold le_rel in Hle'. rewrite Hrd in Hle'. rewrite Hle' in Hmore. discriminate.
        -- split; [lia | assumption].
      * split; [lia|]. apply op_le_antisym.
        -- rewrite op_lt_le in Hless. destruct (op_le (rd indet d pivot) a_element);
             [reflexivity | discriminate].
        -- rewrite op_gt_le in Hmore. destruct (op_le a_element (rd indet d pivot));
             [reflexivity | discriminate].
Qed.

Lemma linear_scan_spec (e : T) (l : list T) :
  (linear_scan e l = -1 /\ e ∉ l) \/
  (exists k : nat, linear_scan e l = Z.of_nat k /\ l !! k = Some e /\
                   forall j, (j < k)%nat -> l !! j <> Some e).
Proof.
  induction l as [|x l IH]; simpl.
  - left. split; [reflexivity | apply not_elem_of_nil].
  - destruct (op_eq x e) eqn:Hx.
    + right. exists O. apply op_eq_true in Hx. subst. repeat split. intros j Hj. lia.
    + apply op_eq_false in Hx. destruct IH as [[-> Hnot]|(k & -> & Hk & Hfirst)].
      * left. split; [reflexivity|]. rewrite elem_of_cons. intros [->|Hin]; auto.
      * right. exists (S k). destruct (Z.eqb_spec (Z.of_nat k) (-1)); [lia|].
        split; [lia|]. split; [assumption|].
        intros [|j] Hj; simpl; [congruence | apply Hfirst; lia].
Qed.


(** ** mergeSort *)

#[local] Instance le_rel_dec (x y : T) : Decision (le_rel x y).
Proof. unfold le_rel. apply _. Defined.

#[local] Instance le_rel_total : Total (le_rel (T:=T)).
Proof. intros x y. apply op_le_total. Qed.

Lemma drop_take_cons (l : list T) (size j : Z) :
  0 <= j < size -> size <= Z.of_nat (length l) ->
  drop (Z.to_nat j) (take (Z.to_nat size) l)
  = rd indet l j :: drop (Z.to_nat (j + 1)) (take (Z.to_nat size) l).
Proof.
  intros Hj Hsize. replace (Z.to_nat (j + 1)) with (S (Z.to_nat j)) by lia.
  apply drop_S. apply rd_take; lia.
Qed.

Lemma drop_take_nil (l : list T) (size : Z) :
  drop (Z.to_nat size) (take (Z.to_nat size) l) = [].
Proof. apply drop_ge. rewrite length_take. lia. Qed.

(** The merging loop computes the merge of the two sorted halves. *)
Lemma merge_loop_spec (array1 array2 : list T) (size1 size2 used cap : Z) :
  0 <= size1 <= Z.of_nat (length array1) ->
  0 <= size2 <= Z.of_nat (length array2) ->
  used = size1 + size2 -> used <= cap ->
  exists result j k,
    for_up 0 used (merge_body indet array1 array2 size1 size2)
      (alloc indet cap, 0, 0) = Some (result, j, k) /\
    length result = Z.to_nat cap /\
    take (Z.to_nat used) result
    = list_merge le_rel (take (Z.to_nat size1) array1) (take (Z.to_nat size2) array2).
Proof.
  intros H1 H2 -> Hcap.
  destruct (for_up_inv
    (fun i (st : list T * Z * Z) =>
       let '(res, j, k) := st in
       i = j + k /\ 0 <= j <= size1 /\ 0 <= k <= size2 /\
       length res = Z.to_nat cap /\
       take (Z.to_nat i) res ++ list_merge le_rel (drop (Z.to_nat j) (take (Z.to_nat size1) array1)) (drop (Z.to_nat k) (take (Z.to_nat size2) array2))
       = list_merge le_rel (take (Z.to_nat size1) array1) (take (Z.to_nat size2) array2))
    0 (size1 + size2) (merge_body indet array1 array2 size1 size2)
    (alloc indet cap, 0, 0)) as ([[res j] k] & Hrun & Hi & Hj & Hk & Hlen & Hmerge).
  - lia.
  - simpl. rewrite length_alloc. repeat split; try lia; try reflexivity.
  - intros i [[res j] k] Hi (Hijk & Hj & Hk & Hlen & Hmerge). unfold merge_body.
    assert (Hstep : forall x rest, take (Z.to_nat i) res ++ x :: rest = list_merge le_rel (take (Z.to_nat size1) array1) (take (Z.to_nat size2) array2) ->
              forall j' k', i + 1 = j' + k' -> 0 <= j' <= size1 -> 0 <= k' <= size2 ->
              rest = list_merge le_rel (drop (Z.to_nat j') (take (Z.to_nat size1) array1)) (drop (Z.to_nat k') (take (Z.to_nat size2) array2)) ->
              exists s1, (r <- wr res i x ;; Some (r, j', k')) = Some s1 /\
                let '(res', j1, k1) := s1 in
                i + 1 = j1 + k1 /\ 0 <= j1 <= size1 /\ 0 <= k1 <= size2 /\
                length res' = Z.to_nat cap /\
                take (Z.to_nat (i + 1)) res'
                ++ list_merge le_rel (drop (Z.to_nat j1) (take (Z.to_nat size1) array1)) (drop (Z.to_nat k1) (take (Z.to_nat size2) array2))
                = list_merge le_rel (take (Z.to_nat size1) array1) (take (Z.to_nat size2) array2)).
    { intros x rest Hx j' k' Hsum Hj' Hk' Hrest. rewrite wr_ok by lia. simpl.
      eexists; split; [reflexivity|]. cbv beta iota zeta. rewrite length_insert.
      repeat split; try lia.
      replace (Z.to_nat (i + 1)) with (S (Z.to_nat i)) by lia.
      rewrite take_insert_snoc by lia. rewrite <- app_assoc. simpl.
      rewrite <- Hrest. assumption. }
    destruct (Z.ltb_spec j size1) as [Hj1|Hj1]; simpl.
    + rewrite (drop_take_cons array1 size1 j) in Hmerge by lia.
      destruct (Z.eqb_spec k size2) as [Hk2|Hk2]; simpl.
      * subst k. rewrite drop_take_nil in Hmerge.
        rewrite list_merge_nil_r in Hmerge.
        apply (Hstep _ _ Hmerge); try lia.
        rewrite drop_take_nil, list_merge_nil_r. reflexivity.
      * rewrite (drop_take_cons array2 size2 k) in Hmerge by lia.
        rewrite list_merge_cons in Hmerge.
        destruct (op_le (rd indet array1 j) (rd indet array2 k)) eqn:Hle.
        -- rewrite decide_True in Hmerge by exact Hle.
           apply (Hstep _ _ Hmerge); try lia.
           rewrite (drop_take_cons array2 size2 k) by lia. reflexivity.
        -- rewrite decide_False in Hmerge by (unfold le_rel; congruence).
           apply (Hstep _ _ Hmerge); try lia.
           rewrite (drop_take_cons array1 size1 j) by lia. reflexivity.
    + assert (j = size1) by lia. subst j.
      rewrite drop_take_nil in Hmerge.
      rewrite (drop_take_cons array2 size2 k) in Hmerge by lia.
      rewrite list_merge_nil_l in Hmerge.
      apply (Hstep _ _ Hmerge); try lia.
      rewrite drop_take_nil, list_merge_nil_l. reflexivity.
  - exists res, j, k. split; [assumption|]. split; [assumption|].
    assert (j = size1) by lia. assert (k = size2) by lia. subst j k.
    rewrite !drop_take_nil in Hmerge. rewrite list_merge_nil_l, app_nil_r in Hmerge.
    assumption.
Qed.

Lemma quot2_half (n : Z) : 1 < n -> 0 < n ÷ 2 < n.
Proof.
  intros Hn. rewrite Z.quot_div_nonneg by lia.
  pose proof (Z.div_mod n 2 ltac:(lia)).
  pose proof (Z.mod_pos_bound n 2 ltac:(lia)). lia.
Qed.

Lemma mergeSort_rec_spec a_array a_capacity a_used :
  0 <= a_used <= Z.of_nat (length a_array) -> a_used <= a_capacity ->
  exists result,
    mergeSort_rec indet a_array a_capacity a_used = Some result /\
    a_used <= Z.of_nat (length result) /\
    ascending (take (Z.to_nat a_used) result) /\
    take (Z.to_nat a_used) result ≡ₚ take (Z.to_nat a_used) a_array.
Proof.
  funelim (mergeSort_rec indet a_array a_capacity a_used); intros Hused Hcap.
  - exists [rd indet a_array 0]. split; [reflexivity|]. split; [simpl; lia|].
    split; [apply ascending_short; rewrite length_take; simpl; lia|].
    destruct (Z.eq_dec a_used 1) as [->|Hne].
    + destruct a_array as [|y a_array]; [simpl in Hused; lia|]. reflexivity.
    + replace (Z.to_nat a_used) with O by lia. reflexivity.
  - pose proof (quot2_half a_used ltac:(lia)) as Hhalf.
    match goal with
    | IH : _ -> _ -> exists result, mergeSort_rec _ a_array _ _ = Some result /\ _,
      Hnone : mergeSort_rec _ a_array _ _ = None |- _ =>
        destruct IH as (r & Hr & _); [lia | lia | congruence]
    end.
  - pose proof (quot2_half a_used ltac:(lia)) as Hhalf.
    set (size1 := a_used ÷ 2) in *.
    repeat match goal with
    | IH : _ -> _ -> exists result, mergeSort_rec _ ?arr _ _ = Some result /\ _,
      Hsome : mergeSort_rec _ ?arr _ _ = Some ?res |- _ =>
        let r := fresh "r" in
        let Hr := fresh "Hr" in
        let Hlen := fresh "Hlen" in
        let Hasc := fresh "Hasc" in
        let Hperm := fresh "Hperm" in
        destruct IH as (r & Hr & Hlen & Hasc & Hperm);
        [try rewrite length_drop; lia | lia |];
        rewrite Hsome in Hr; injection Hr as <-
    end.
    destruct (merge_loop_spec array1 array2 size1 (a_used - size1) a_used a_capacity)
      as (result & j & k & -> & Hlenr & Htake); try lia.
    simpl. exists result. split; [reflexivity|]. split; [lia|].
    rewrite Htake. split.
    + apply Sorted_StronglySorted; [apply _|].
      apply Sorted_list_merge; [apply _ | apply StronglySorted_Sorted; assumption
                               | apply StronglySorted_Sorted; assumption].
    + rewrite merge_Permutation.
      match goal with
      | H1 : take _ array1 ≡ₚ _, H2 : take _ array2 ≡ₚ _ |- _ => rewrite H1, H2
      end.
      rewrite take_take_drop. replace (Z.to_nat size1 + Z.to_nat (a_used - size1))%nat
        with (Z.to_nat a_used) by lia.
      reflexivity.
  - pose proof (quot2_half a_used ltac:(lia)) as Hhalf.
    match goal with
    | IH : _ -> _ -> exists result, mergeSort_rec _ (drop _ a_array) _ _ = Some result /\ _,
      Hnone : mergeSort_rec _ (drop _ a_array) _ _ = None |- _ =>
        destruct IH as (r & Hr & _); [rewrite length_drop; lia | lia | congruence]
    end.
Qed.

Lemma mergeSort_spec a :
  wf a ->
  exists a',
    mergeSort indet a = Some a' /\
    ascending (live a') /\ live a' ≡ₚ live a /\ m_used a' = m_used a.
Proof.
  intros [[Hu0 Huc] Hul]. unfold mergeSort.
  destruct (mergeSort_rec_spec (m_data a) (m_capacity a) (m_used a))
    as (temp & -> & _ & Hasc & Hperm); [lia | lia |].
  simpl. eexists; split; [reflexivity|]. unfold live. simpl. repeat split; assumption.
Qed.

(** ** quickSort *)

Lemma rd_at (d A B : list T) (x : T) (i : Z) :
  d = A ++ x :: B -> i = Z.of_nat (length A) -> rd indet d i = x.
Proof. intros -> ->. apply rd_middle. Qed.

Lemma Swap_distinct a (A B C : list T) (x y : T) (p q : Z) :
  m_data a = A ++ x :: B ++ y :: C ->
  p = Z.of_nat (length A) -> q = Z.of_nat (length A + 1 + length B) ->
  q < m_used a ->
  Swap indet p q a = Some (set_sorted (set_data a (A ++ y :: B ++ x :: C)) false).
Proof.
  intros Hd -> -> Hq. unfold Swap, VERIFY.
  destruct (Z.ltb_spec (Z.of_nat (length A)) (m_used a)); [|lia].
  destruct (Z.ltb_spec (Z.of_nat (length A + 1 + length B)) (m_used a)); [|lia]. simpl.
  rewrite Hd. rewrite rd_middle.
  rewrite (rd_at _ (A ++ x :: B) C y);
    [ | rewrite <- app_assoc; reflexivity | rewrite length_app; simpl; lia].
  rewrite wr_middle. simpl.
  replace (A ++ y :: B ++ y :: C) with ((A ++ y :: B) ++ y :: C)
    by (rewrite <- app_assoc; reflexivity).
  replace (Z.of_nat (length A + 1 + length B)) with (Z.of_nat (length (A ++ y :: B)))
    by (rewrite length_app; simpl; lia).
  rewrite wr_middle. simpl. rewrite <- app_assoc. reflexivity.
Qed.

Lemma Swap_same a (A C : list T) (x : T) (p : Z) :
  m_data a = A ++ x :: C -> p = Z.of_nat (length A) -> p < m_used a ->
  Swap indet p p a = Some (set_sorted a false).
Proof.
  intros Hd -> Hp. unfold Swap, VERIFY.
  destruct (Z.ltb_spec (Z.of_nat (length A)) (m_used a)); [|lia]. simpl.
  rewrite Hd. rewrite rd_middle, wr_middle. simpl. rewrite wr_middle. simpl.
  unfold set_sorted, set_data. simpl. rewrite Hd. reflexivity.
Qed.

(** [partition] splits the range around the pivot, its last element. *)
Ltac len_lia :=
  repeat match goal with x := _ : Z |- _ => subst x end;
  rewrite ?length_app in *; simpl in *; lia.

Lemma partition_spec a (P M Q : list T) (pivot : T) :
  m_data a = P ++ M ++ pivot :: Q ->
  Z.of_nat (length P + length M) < m_used a ->
  exists a' L G,
    partition indet (Z.of_nat (length P)) (Z.of_nat (length P + length M)) a
    = Some (a', Z.of_nat (length P + length L)) /\
    m_data a' = P ++ L ++ pivot :: G ++ Q /\
    L ++ G ≡ₚ M /\
    Forall (fun x => op_le x pivot = true) L /\
    Forall (fun x => op_le x pivot = false) G /\
    m_used a' = m_used a.
Proof.
  intros Hd Hto. unfold partition.
  set (from := Z.of_nat (length P)). set (to := Z.of_nat (length P + length M)).
  match goal with
  | |- context [for_up ?lo ?hi ?body ?s0] =>
      destruct (for_up_inv
        (fun j (st : Array T * Z) =>
           let '(a', i) := st in
           exists L G U,
             m_data a' = P ++ L ++ G ++ U ++ pivot :: Q /\
             i = Z.of_nat (length P + length L) - 1 /\
             j = Z.of_nat (length P + length L + length G) /\
             L ++ G ++ U ≡ₚ M /\
             Forall (fun x => op_le x pivot = true) L /\
             Forall (fun x => op_le x pivot = false) G /\
             m_used a' = m_used a)
        lo hi body s0) as ([a1 i] & Hrun & L & G & U & Hd1 & Hi & Hj & Hperm & HL & HG & Hu)
  end.
  - unfold from, to. lia.
  - exists [], [], M. simpl. unfold from.
    repeat split; try assumption; try constructor; try lia; try reflexivity.
  - intros j [a' i] Hj (L & G & U & Hd' & Hi & Hjeq & Hperm & HL & HG & Hu).
    pose proof (Permutation_length Hperm) as Hlen. rewrite !length_app in Hlen.
    destruct U as [|x U]; [simpl in Hlen; unfold to in Hj; lia|]. simpl in Hlen.
    rewrite (rd_at (m_data a') (P ++ L ++ G) (U ++ pivot :: Q) x j);
      [ | rewrite Hd'; rewrite <- ?app_assoc; reflexivity | rewrite !length_app; lia].
    rewrite (rd_at (m_data a') (P ++ L ++ G ++ x :: U) Q pivot to);
      [ | rewrite Hd'; rewrite <- ?app_assoc; reflexivity
        | rewrite !length_app; simpl; unfold to; lia].
    destruct (op_le x pivot) eqn:Hx.
    + destruct G as [|g G]; simpl in Hjeq.
      * replace (i + 1) with j by lia.
        rewrite (Swap_same a' (P ++ L) (U ++ pivot :: Q) x);
          [ | rewrite Hd'; rewrite <- ?app_assoc; reflexivity | len_lia .. ].
        simpl. eexists; split; [reflexivity|]. exists (L ++ [x]), [], U. simpl.
        rewrite Hd'. rewrite <- ?app_assoc. simpl. rewrite !length_app. simpl.
        split; [reflexivity|]. split; [lia|]. split; [simpl in Hjeq; lia|].
        split; [rewrite <- Hperm; simpl; rewrite <- ?app_assoc; reflexivity|].
        split; [apply Forall_app; split; [assumption | repeat constructor; assumption]|].
        split; [constructor | assumption].
      * rewrite (Swap_distinct a' (P ++ L) G (U ++ pivot :: Q) g x);
          [ | rewrite Hd'; rewrite <- ?app_assoc; reflexivity | len_lia .. ].
        simpl. eexists; split; [reflexivity|]. exists (L ++ [x]), (G ++ [g]), U. simpl.
        rewrite <- ?app_assoc. simpl. rewrite !length_app. simpl.
        split; [reflexivity|]. split; [lia|]. split; [simpl in Hjeq; lia|].
        split.
        { rewrite <- Hperm. apply Permutation_app_head. simpl.
          rewrite <- !Permutation_middle. apply perm_swap. }
        split; [apply Forall_app; split; [assumption | repeat constructor; assumption]|].
        split; [|assumption]. inversion HG; subst.
        apply Forall_app; split; [assumption | repeat constructor; assumption].
    + eexists; split; [reflexivity|]. exists L, (G ++ [x]), U.
      rewrite Hd'. rewrite <- ?app_assoc. simpl. rewrite !length_app. simpl.
      split; [reflexivity|]. split; [lia|]. split; [lia|].
      split; [rewrite <- Hperm; simpl; rewrite <- ?app_assoc; reflexivity|].
      split; [assumption|].
      split; [apply Forall_app; split; [assumption | repeat constructor; assumption] | assumption].
  - rewrite Hrun. simpl.
    pose proof (Permutation_length Hperm) as Hlen. rewrite !length_app in Hlen.
    destruct U as [|x U]; [|simpl in Hlen; unfold to in Hj; lia].
    simpl in Hd1, Hlen. rewrite app_nil_r in Hperm.
    destruct G as [|g G]; simpl in Hj.
    + replace (i + 1) with to by lia.
      rewrite (Swap_same a1 (P ++ L) Q pivot);
        [ | rewrite Hd1; rewrite <- ?app_assoc; reflexivity | len_lia .. ].
      simpl. exists (set_sorted a1 false), L, []. simpl.
      split; [do 2 f_equal; lia|]. repeat split; assumption.
    + rewrite (Swap_distinct a1 (P ++ L) G Q g pivot);
        [ | rewrite Hd1; rewrite <- ?app_assoc; reflexivity | len_lia .. ].
      simpl. eexists _, L, (G ++ [g]). split; [do 2 f_equal; lia|]. simpl.
      rewrite <- ?app_assoc. simpl.
      split; [reflexivity|].
      split; [rewrite <- Hperm; apply Permutation_app_head; symmetry; apply Permutation_cons_append|].
      split; [assumption|]. split; [|assumption]. inversion HG; subst.
      apply Forall_app; split; [assumption | repeat constructor; assumption].
Qed.

(** [quickSort] sorts the range it is given and leaves the rest alone. *)
Lemma quickSort_spec (fuel : nat) :
  forall a (P M Q : list T) (a_from a_to : Z),
    m_data a = P ++ M ++ Q ->
    a_from = Z.of_nat (length P) -> a_to = Z.of_nat (length P + length M) - 1 ->
    0 < m_used a -> Z.of_nat (length P + length M) <= m_used a ->
    (length M <= fuel)%nat ->
    exists a' M',
      quickSort indet fuel a_from a_to a = Some a' /\
      m_data a' = P ++ M' ++ Q /\ ascending M' /\ M' ≡ₚ M /\
      m_used a' = m_used a.
Proof.
  induction fuel as [|fuel IH]; intros a P M Q a_from a_to Hd Hfrom Hto Hpos Hused Hfuel.
  - exists (set_sorted a true), M. simpl.
    destruct (Z.eqb_spec (m_used a) 0); [lia|].
    destruct (Z.leb_spec a_to a_from); [|lia].
    repeat split; try assumption; try reflexivity. apply ascending_short. lia.
  - simpl. destruct (Z.eqb_spec (m_used a) 0); [lia|].
    destruct (Z.leb_spec a_to a_from) as [Hsmall|Hbig].
    { exists (set_sorted a true), M. repeat split; try assumption; try reflexivity.
      apply ascending_short. lia. }
    destruct M as [|pivot M0 _] using rev_ind; [simpl in *; lia|].
    rewrite length_app in *. simpl in *.
    destruct (partition_spec a P M0 Q pivot) as (a1 & L & G & Hpart & Hd1 & Hperm & HL & HG & Hu1);
      [rewrite Hd, <- app_assoc; reflexivity | lia |].
    replace a_from with (Z.of_nat (length P)) by lia.
    replace a_to with (Z.of_nat (length P + length M0)) by lia.
    rewrite Hpart. simpl.
    pose proof (Permutation_length Hperm) as Hlen. rewrite length_app in Hlen.
    destruct (IH a1 P L (pivot :: G ++ Q) (Z.of_nat (length P))
                (Z.of_nat (length P + length L) - 1))
      as (a2 & L' & Hq1 & Hd2 & HascL & HpermL & Hu2); try assumption; try lia.
    rewrite Hq1. simpl.
    pose proof (Permutation_length HpermL) as HlenL.
    destruct (IH a2 (P ++ L' ++ [pivot]) G Q (Z.of_nat (length P + length L) + 1)
                (Z.of_nat (length P + length M0)))
      as (a3 & G' & Hq2 & Hd3 & HascG & HpermG & Hu3);
      [ rewrite Hd2, <- !app_assoc; reflexivity
      | rewrite !length_app; simpl; lia
      | rewrite !length_app; simpl; lia
      | lia
      | rewrite !length_app; simpl; lia
      | lia | ].
    rewrite Hq2. exists a3, (L' ++ pivot :: G').
    split; [reflexivity|]. split; [rewrite Hd3, <- !app_assoc; reflexivity|].
    split; [|split; [|lia]].
    + apply StronglySorted_app_2; [ | assumption | ].
      * intros x1 x2 Hx1 Hx2.
        assert (Hx1p : le_rel x1 pivot).
        { rewrite HpermL in Hx1. rewrite Forall_forall in HL. apply HL. assumption. }
        apply elem_of_cons in Hx2 as [->|Hx2]; [assumption|].
        transitivity pivot; [assumption|].
        rewrite HpermG in Hx2. rewrite Forall_forall in HG. apply le_false_le, HG. assumption.
      * constructor; [assumption|]. rewrite Forall_forall. intros x Hx.
        rewrite HpermG in Hx. rewrite Forall_forall in HG. apply le_false_le, HG. assumption.
    + rewrite HpermL, HpermG. rewrite <- Permutation_middle.
      rewrite Hperm. apply Permutation_cons_append.
Qed.

Lemma quickSort_top a :
  wf a ->
  exists a',
    quickSort indet (Z.to_nat (m_used a)) 0 (m_used a - 1) a = Some a' /\
    ascending (live a') /\ live a' ≡ₚ live a /\ m_used a' = m_used a.
Proof.
  intros [[Hu0 Huc] Hul]. destruct (Z.eq_dec (m_used a) 0) as [Hzero|Hpos].
  - exists a. rewrite Hzero. simpl. rewrite Hzero. simpl.
    split; [reflexivity|]. unfold live. rewrite Hzero. simpl.
    split; [constructor|]. split; reflexivity.
  - assert (Hlen : length (live a) = Z.to_nat (m_used a)).
    { unfold live. rewrite length_take. lia. }
    destruct (quickSort_spec (Z.to_nat (m_used a)) a [] (live a)
                (drop (Z.to_nat (m_used a)) (m_data a)) 0 (m_used a - 1))
      as (a' & M' & Hq & Hd & Hasc & Hperm & Hu); simpl; try lia.
    { unfold live. rewrite take_drop. reflexivity. }
    exists a'. split; [assumption|].
    assert (Hlive : live a' = M').
    { unfold live. rewrite Hd, Hu. simpl. apply take_app_length'.
      rewrite (Permutation_length Hperm). lia. }
    rewrite Hlive. repeat split; assumption.
Qed.

(** Every algorithm sorts. *)
Lemma Sort_sorts a (alg : algorithms.Sort) :
  wf a ->
  exists a', Sort indet alg a = Some a' /\ ascending (live a') /\ live a' ≡ₚ live a.
Proof.
  intros Hwf.
  assert (Hins : exists a', insertionSort indet a = Some a' /\
                            ascending (live a') /\ live a' ≡ₚ live a).
  { destruct Hwf as [[Hu0 Huc] Hul].
    destruct (insertionSort_spec a) as (a' & Hrun & Hasc & Hperm & _); [lia|]. eauto. }
  assert (Hmerge : exists a', mergeSort indet a = Some a' /\
                              ascending (live a') /\ live a' ≡ₚ live a).
  { destruct (mergeSort_spec a Hwf) as (a' & Hrun & Hasc & Hperm & _). eauto. }
  destruct alg; simpl.
  - unfold dynamicSort. destruct (64 <? m_used a); assumption.
  - assumption.
  - destruct (quickSort_top a Hwf) as (a' & Hrun & Hasc & Hperm & _). eauto.
  - assumption.
Qed.


(** C7, as amended: on an array without [keep_sorted] whose buffer has
    the [m_capacity] slots it was allocated with
    ([0 <= m_used <= m_capacity]), and which is non-full, or growable with
    a capacity above [0], [Insert(value)] completes and returns the value
    [m_used] had before the call; the array has grown by one and the
    inserted element is stored at the returned index, after the elements
    that were there. *)
Theorem Insert_returns_append_position a x :
  wf a -> allocated a -> m_keep_sorted a = false ->
  m_used a < m_capacity a \/ (m_growable a = true /\ 0 < m_capacity a) ->
  exists a',
    Insert indet x a = Some (a', m_used a) /\
    m_used a' = m_used a + 1 /\
    m_data a' !! Z.to_nat (m_used a) = Some x /\
    live a' = live a ++ [x].
Proof.
  intros Hwf Hal Hks Hroom. unfold Insert.
  assert (exists a1,
    (if m_growable a && (m_capacity a <=? m_used a)
     then Resize indet (m_capacity a * 2) a else Some a) = Some a1 /\
    m_used a1 = m_used a /\ m_keep_sorted a1 = false /\
    m_used a1 < m_capacity a1 /\ m_capacity a1 = Z.of_nat (length (m_data a1)) /\
    take (Z.to_nat (m_used a)) (m_data a1) = live a) as (a1 & -> & Hu1 & Hks1 & Hlt & Hal1 & Hlive).
  { destruct Hwf as [[Hu0 Huc] Hul].
    destruct (Z.leb_spec (m_capacity a) (m_used a)) as [Hfull|Hfree].
    - destruct Hroom as [?|[Hg Hpos]]; [lia|]. rewrite Hg. simpl.
      destruct (Resize_copies (m_capacity a * 2) a) as (temp & -> & Hlen & Htake);
        [repeat split; lia | lia |].
      eexists; split; [reflexivity|]. simpl. repeat split; auto; lia.
    - rewrite andb_false_r. exists a. repeat split; auto. }
  simpl. unfold VERIFY. destruct (Z.ltb_spec (m_used a1) (m_capacity a1)); [|lia]. simpl.
  destruct Hwf as [[Hu0 Huc] Hul].
  rewrite wr_ok by lia. simpl. rewrite Hks1. simpl.
  eexists; split; [do 2 f_equal; lia|]. simpl. rewrite Hu1.
  split; [reflexivity|]. split.
  - apply list_lookup_insert_eq. lia.
  - unfold live. simpl.
    replace (Z.to_nat (m_used a + 1)) with (S (Z.to_nat (m_used a))) by lia.
    rewrite take_insert_snoc by lia. rewrite Hlive. reflexivity.
Qed.

(** C6, as amended: for [a_from < a_to < m_used], [GetSubArray] returns a
    new array that holds exactly the source's elements at positions
    [[a_from, a_to)], with size and capacity [a_to - a_from]. *)
Theorem GetSubArray_elements a a_from a_to :
  wf a -> 0 <= a_from -> a_from < a_to -> a_to < m_used a ->
  exists r,
    GetSubArray indet a_from a_to a = Some r /\
    live r = slice a_from a_to (m_data a) /\
    m_used r = a_to - a_from /\
    m_capacity r = a_to - a_from /\
    m_sorted r = m_sorted a.
Proof.
  intros [[Hu0 Huc] Hul] Hf Hft Htu. unfold GetSubArray, new, VERIFY.
  destruct (Z.ltb_spec a_from a_to); [|lia].
  destruct (Z.ltb_spec a_from (m_used a)); [|lia].
  destruct (Z.ltb_spec a_to (m_used a)); [|lia].
  destruct (Z.ltb_spec 0 (a_to - a_from)); [|lia]. simpl.
  destruct (for_up_inv
    (fun i r => m_used r = i - a_from /\
                Z.of_nat (length (m_data r)) = a_to - a_from /\
                take (Z.to_nat (i - a_from)) (m_data r) = slice a_from i (m_data a) /\
                m_capacity r = a_to - a_from /\ m_sorted r = m_sorted a)
    a_from a_to
    (fun i r =>
       d <- wr (m_data r) (m_used r) (rd indet (m_data a) i) ;;
       Some (set_used (set_data r d) (m_used r + 1)))
    (set_sorted
       (mkArray (alloc indet (a_to - a_from)) 0 (a_to - a_from) true
          (m_sorted a) (m_growable a)) (m_sorted a)))
    as (r & Hr & Hur & Hlen & Htake & Hcap & Hso).
  - lia.
  - simpl. rewrite length_alloc. unfold slice.
    replace (Z.to_nat (a_from - a_from)) with O by lia.
    repeat split; try lia; reflexivity.
  - intros i r Hi (Hur & Hlen & Htake & Hcap & Hso).
    rewrite wr_ok by lia. simpl. eexists; split; [reflexivity|]. simpl.
    rewrite length_insert. repeat split; try lia; try assumption.
    rewrite Hur. unfold slice in *.
    replace (Z.to_nat (i + 1 - a_from)) with (S (Z.to_nat (i - a_from))) by lia.
    rewrite take_insert_snoc by lia. rewrite Htake.
    rewrite (take_S_r _ _ (rd indet (m_data a) i)); [reflexivity|].
    rewrite lookup_drop. replace (Z.to_nat a_from + Z.to_nat (i - a_from))%nat
      with (Z.to_nat i) by lia.
    apply rd_ok. lia.
  - exists r. split; [exact Hr|]. unfold live. rewrite Hur.
    repeat split; assumption.
Qed.

End Facts.

(** C7: with [keep_sorted] the claim gives index [0]; inserting [3] into
    the auto-sorted [{5}] returns [1] (the element itself lands at [0]),
    and inserting [7] returns [1] as well. *)
Lemma Insert_keep_sorted_returns_not_zero :
  m_keep_sorted sorted_five = true /\
  m_used sorted_five < m_capacity sorted_five /\
  (exists a', Insert 0 3 sorted_five = Some (a', 1) /\ live a' = [3; 5]) /\
  (exists a', Insert 0 7 sorted_five = Some (a', 1) /\ live a' = [5; 7]).
Proof.
  split; [reflexivity|]. split; [reflexivity|].
  split; eexists; split; reflexivity.
Qed.

Lemma Insert_returns_append_position_witness :
  exists a',
    Insert 0 64 three_of_five = Some (a', 3) /\
    m_used a' = 4 /\
    m_data a' !! 3%nat = Some 64 /\
    live a' = [8; 16; 32; 64].
Proof.
  apply (Insert_returns_append_position 0 three_of_five 64).
  - unfold wf. simpl. lia.
  - reflexivity.
  - reflexivity.
  - left. simpl. lia.
Defined.




(** The base case [a_from == a_to] of [binarySearch] returns the index
    without comparing: in the sorted [{1, 3}] the absent [2] is "found" at
    index [1]. *)
Lemma binarySearch_absent_element_found :
  ascending (live (mkArray [1; 3] 2 2 true false false)) /\
  Find 0 2 (mkArray [1; 3] 2 2 true false false) = 1 /\
  live (mkArray [1; 3] 2 2 true false false) !! 1%nat = Some 3.
Proof.
  split; [|split; reflexivity].
  repeat constructor.
Qed.

(** [m_sorted] can be set over elements that do not ascend, after a
    write through the reference [operator[]] hands out ([a[0] = 10] on
    the sorted [{1, 2, 3}]): there the binary search answers [2] for
    [10], the index of [3]. *)
Lemma Find_with_stale_flag :
  m_sorted (mkArray [10; 2; 3] 3 3 true false false) = true /\
  Find 0 10 (mkArray [10; 2; 3] 3 3 true false false) = 2 /\
  live (mkArray [10; 2; 3] 3 3 true false false) !! 2%nat = Some 3.
Proof. repeat split. Qed.




(** C6: the claim admits [a_to = m_used]; there [VERIFY(a_to < m_used)]
    aborts. *)
Lemma GetSubArray_to_used_aborts :
  1 <= 3 <= m_used three_of_five /\ 1 < 3 /\
  GetSubArray 0 1 3 three_of_five = None.
Proof. repeat split; simpl; try lia. Qed.

Lemma GetSubArray_elements_witness :
  exists r,
    GetSubArray 0 0 2 three_of_five = Some r /\
    live r = slice 0 2 (m_data three_of_five) /\
    m_used r = 2 - 0 /\ m_capacity r = 2 - 0 /\
    m_sorted r = m_sorted three_of_five.
Proof.
  apply (GetSubArray_elements 0 three_of_five 0 2).
  - unfold wf. simpl. lia.
  - lia.
  - lia.
  - simpl. lia.
Defined.

End ArrayFacts.

(** * String: the two Replace overloads *)

Module StringFacts.
Import NtlString.

Section Facts.
Variable indet : ascii.
Implicit Types (s : String) (c : ascii).

Lemma scan_char_absent (d : list ascii) c (n : nat) :
  forall i : Z,
    (forall k, i <= k < i + Z.of_nat n -> rd indet d k <> c) ->
    scan_char indet n i d c = i + Z.of_nat n.
Proof.
  induction n as [|n IH]; intros i Habs; simpl.
  - lia.
  - destruct (Ascii.eqb_spec (rd indet d i) c) as [Heq|Hne].
    + exfalso. apply (Habs i); [lia | assumption].
    + rewrite IH; [lia|]. intros k Hk. apply Habs. lia.
Qed.

(** C10: when the character does not occur in a non-empty string,
    [Replace(c, '\0')] (and so [Remove(c)]) still shortens the string by
    one: the final character is deleted and the terminator written in
    its place. *)
Theorem ReplaceChar_absent_deletes_last s c :
  0 < m_used s < Z.of_nat (length (m_data s)) ->
  c ∉ content s ->
  exists s',
    ReplaceChar indet c zero s = Some s' /\
    Remove indet c s = Some s' /\
    m_used s' = m_used s - 1 /\
    content s' = removelast (content s) /\
    m_data s' !! Z.to_nat (m_used s') = Some zero.
Proof.
  intros Hused Habs. unfold Remove, ReplaceChar. simpl.
  rewrite (scan_char_absent (m_data s) c (Z.to_nat (m_used s)) 0).
  - rewrite for_up_empty by lia. simpl. rewrite wr_ok by lia. simpl.
    eexists; split; [reflexivity|]. split; [reflexivity|]. simpl.
    split; [reflexivity|]. split.
    + unfold content. simpl. rewrite take_insert_ge by lia.
      rewrite removelast_firstn_len, length_take.
      rewrite take_take. f_equal. lia.
    + apply list_lookup_insert_eq. lia.
  - intros k Hk Heq. apply Habs. unfold content.
    apply list_elem_of_lookup_2 with (Z.to_nat k).
    rewrite (rd_take indet) by lia. congruence.
Qed.

(** When [Replace(old, new)] completes after finding an occurrence, the
    length has changed by exactly [new.length - old.length]. *)
Lemma Replace_length_completed (a_old a_new s s' : String) (seq_idx : Z) :
  0 <= m_used a_new -> 0 <= m_used a_old <= m_used s ->
  m_used s - m_used a_old + m_used a_new < 2 ^ 64 ->
  find_seq indet (Z.to_nat (m_used s)) 0 (m_data s) a_old = Some seq_idx ->
  seq_idx <> -1 ->
  Replace indet a_old a_new s = Some s' ->
  m_used s' = m_used s + (m_used a_new - m_used a_old).
Proof.
  intros Hnew Hold Hfit Hseq Hfound Hrun. unfold Replace in Hrun.
  inv_verify Hrun. rewrite Hseq in Hrun. simpl in Hrun.
  destruct (Z.eqb_spec seq_idx (-1)); [contradiction|].
  destruct (Z.eqb_spec (m_used a_old) (m_used a_new)) as [Heq|Hne].
  - inv_bind Hrun as d Hd. injection Hrun as <-. simpl. lia.
  - inv_bind Hrun as s1 Hs1. inv_bind Hrun as t1 Ht1. inv_bind Hrun as t2 Ht2.
    inv_bind Hrun as t3 Ht3. inv_bind Hrun as d Hd. injection Hrun as <-. simpl.
    unfold U64. rewrite Zminus_mod_idemp_r. rewrite Z.mod_small; lia.
Qed.

(** ** When the substring Replace completes *)

Lemma copy_loop_ok (src : list ascii) (lo hi : Z) (f g : Z -> Z) (t : list ascii) :
  (forall i, lo <= i < hi -> 0 <= f i < Z.of_nat (length t)) ->
  exists t',
    for_up lo hi (fun i temp => wr temp (f i) (rd indet src (g i))) t = Some t' /\
    length t' = length t.
Proof.
  intros Hin. destruct (Z.le_gt_cases lo hi) as [Hle|Hgt].
  - apply (for_up_inv (fun _ t' => length t' = length t)); [assumption | reflexivity |].
    intros i t0 Hi Hlen. rewrite wr_ok by (rewrite Hlen; apply Hin; assumption).
    eexists; split; [reflexivity|]. rewrite length_insert. assumption.
  - rewrite for_up_empty by lia. eauto.
Qed.

Lemma copy_loop_length (src : list ascii) (lo hi : Z) (f g : Z -> Z) (t t' : list ascii) :
  for_up lo hi (fun i temp => wr temp (f i) (rd indet src (g i))) t = Some t' ->
  length t' = length t.
Proof.
  intros Hrun.
  apply (for_up_partial (fun _ t0 => length t0 = length t)) in Hrun; [assumption | reflexivity |].
  intros i t0 t1 _ Hlen Hwr. apply wr_inv in Hwr as [_ ->]. rewrite length_insert. assumption.
Qed.

Lemma new_length_exact (a_old a_new s : String) :
  0 <= m_used s - m_used a_old + m_used a_new < 2 ^ 64 ->
  U64 (m_used s - U64 (m_used a_old - m_used a_new))
  = m_used s - m_used a_old + m_used a_new.
Proof.
  intros Hfit. unfold U64. rewrite Zminus_mod_idemp_r. rewrite Z.mod_small; lia.
Qed.

Lemma Resize_ok (a_capacity : Z) s :
  wf s -> m_capacity s < a_capacity ->
  exists d,
    Resize indet a_capacity s = Some (mkString a_capacity (m_used s) d) /\
    Z.of_nat (length d) = a_capacity.
Proof.
  intros [Hused Hbuf] Hcap. unfold Resize, VERIFY.
  destruct (Z.leb_spec (m_used s + 1) a_capacity); [|lia].
  destruct (Z.ltb_spec (m_capacity s) a_capacity); [|lia]. simpl.
  destruct (copy_loop_ok (m_data s) 0 (m_used s) (fun i => i) (fun i => i)
              (alloc indet a_capacity)) as (temp & Hrun & Hlen).
  { intros i Hi. rewrite length_alloc. lia. }
  cbv beta in Hrun. rewrite Hrun. simpl. rewrite length_alloc in Hlen.
  rewrite wr_ok by lia. simpl. eexists; split; [reflexivity|].
  rewrite length_insert. lia.
Qed.

(** With an occurrence found inside the string, [Replace] completes when
    the two substrings have the same length or the new length is within
    the capacity, and the length changes by [new.length - old.length]. *)
Lemma Replace_completes (a_old a_new s : String) (seq_idx : Z) :
  wf s -> 0 < m_used a_old -> 0 <= m_used a_new ->
  find_seq indet (Z.to_nat (m_used s)) 0 (m_data s) a_old = Some seq_idx ->
  0 <= seq_idx -> seq_idx + m_used a_old <= m_used s ->
  m_used s - m_used a_old + m_used a_new < 2 ^ 64 ->
  m_used a_old = m_used a_new \/
  m_used s - m_used a_old + m_used a_new <= m_capacity s ->
  exists s',
    Replace indet a_old a_new s = Some s' /\
    m_used s' = m_used s + (m_used a_new - m_used a_old).
Proof.
  intros Hwf Hold Hnew Hseq Hidx Hocc Hfit Hok. pose proof Hwf as [Hused Hbuf].
  unfold Replace, VERIFY, IsEmpty.
  destruct (Z.eqb_spec (m_used a_old) 0); [lia|]. simpl. rewrite Hseq. simpl.
  destruct (Z.eqb_spec seq_idx (-1)); [lia|].
  destruct (Z.eqb_spec (m_used a_old) (m_used a_new)) as [Heq|Hne].
  - destruct (for_up_inv (fun _ d => length d = length (m_data s)) 0 (m_used a_new)
                (fun new_idx d => c <- Get indet new_idx a_new ;; wr d (seq_idx + new_idx) c)
                (m_data s)) as (d & -> & _); [lia | reflexivity | |].
    + intros i d Hi Hlen. unfold Get, VERIFY.
      destruct (Z.ltb_spec i (m_used a_new)); [|lia]. simpl.
      rewrite wr_ok by lia. eexists; split; [reflexivity|]. rewrite length_insert. assumption.
    + simpl. eexists; split; [reflexivity|]. simpl. lia.
  - destruct Hok as [?|Hroom]; [contradiction|].
    rewrite new_length_exact by lia.
    destruct (Z.leb_spec (m_used s - m_used a_old + m_used a_new) (m_capacity s)); [|lia].
    destruct (Resize_ok (m_capacity s * 2) s Hwf) as (d1 & -> & Hlen1); [lia|]. simpl.
    destruct (copy_loop_ok d1 0 seq_idx (fun i => i) (fun i => i)
                (alloc indet (m_capacity s * 2 + 1))) as (t1 & Hrun1 & Hl1).
    { intros i Hi. rewrite length_alloc. lia. }
    cbv beta in Hrun1. rewrite Hrun1. simpl. rewrite length_alloc in Hl1.
    destruct (copy_loop_ok (m_data a_new) 0 (m_used a_new) (fun i => seq_idx + i) (fun i => i) t1)
      as (t2 & Hrun2 & Hl2).
    { intros i Hi. lia. }
    cbv beta in Hrun2. rewrite Hrun2. simpl.
    destruct (copy_loop_ok d1 seq_idx (m_used s) (fun i => m_used a_new + i)
                (fun i => m_used a_old + i) t2) as (t3 & Hrun3 & Hl3).
    { intros i Hi. lia. }
    cbv beta in Hrun3. rewrite Hrun3. simpl.
    rewrite wr_ok by lia. simpl. eexists; split; [reflexivity|]. simpl. lia.
Qed.

(** When the two lengths differ and the new length exceeds the
    capacity, [Resize] is skipped and the terminator (if not an earlier
    byte) is written past the end of [temp]: no result. *)
Lemma Replace_overflows (a_old a_new s : String) (seq_idx : Z) :
  0 <= m_capacity s -> 0 < m_used a_old ->
  find_seq indet (Z.to_nat (m_used s)) 0 (m_data s) a_old = Some seq_idx ->
  seq_idx <> -1 ->
  0 <= m_used s - m_used a_old + m_used a_new < 2 ^ 64 ->
  m_used a_old <> m_used a_new ->
  m_capacity s < m_used s - m_used a_old + m_used a_new ->
  Replace indet a_old a_new s = None.
Proof.
  intros Hcap Hold Hseq Hfound Hfit Hne Hbig.
  destruct (Replace indet a_old a_new s) as [s'|] eqn:Hrun; [exfalso|reflexivity].
  unfold Replace in Hrun. inv_verify Hrun. rewrite Hseq in Hrun. simpl in Hrun.
  destruct (Z.eqb_spec seq_idx (-1)); [contradiction|].
  destruct (Z.eqb_spec (m_used a_old) (m_used a_new)); [contradiction|].
  rewrite new_length_exact in Hrun by assumption.
  destruct (Z.leb_spec (m_used s - m_used a_old + m_used a_new) (m_capacity s)); [lia|].
  simpl in Hrun. inv_bind Hrun as t1 Ht1. inv_bind Hrun as t2 Ht2. inv_bind Hrun as t3 Ht3.
  apply (copy_loop_length _ _ _ (fun i => i) (fun i => i)) in Ht1.
  apply (copy_loop_length _ _ _ (fun i => seq_idx + i) (fun i => i)) in Ht2.
  apply (copy_loop_length _ _ _ (fun i => m_used a_new + i) (fun i => m_used a_old + i)) in Ht3.
  rewrite length_alloc in Ht1. rewrite wr_oob in Hrun by lia. discriminate.
Qed.

End Facts.

(** C8: [String("a").Replace("a", "bbbb")].  The new length [4] exceeds
    the capacity [2], so the inverted test [new_length <= m_capacity]
    skips [Resize]; [temp] has [m_capacity + 1 = 3] bytes and the second
    copy loop writes [temp[3]]. *)
Lemma Replace_longer_than_capacity_overflows (indet : ascii) :
  exists s a_old a_new,
    new indet (chars "a") = Some s /\
    new indet (chars "a") = Some a_old /\
    new indet (chars "bbbb") = Some a_new /\
    m_capacity s = 2 /\ length (m_data s) = 3%nat /\
    Replace indet a_old a_new s = None.
Proof.
  do 3 eexists. repeat split.
Qed.

(** The same replacement in a string with room completes: the length
    goes from [8] to [11]. *)
Lemma Replace_within_capacity_example (indet : ascii) :
  exists s a_old a_new s',
    new indet (chars "aabcddff") = Some s /\
    new indet (chars "a") = Some a_old /\
    new indet (chars "bbbb") = Some a_new /\
    Replace indet a_old a_new s = Some s' /\
    m_used s' = 11 /\ content s' = chars "bbbbabcddff".
Proof.
  do 4 eexists. repeat split.
Qed.

Lemma ReplaceChar_absent_deletes_last_witness :
  exists s',
    ReplaceChar zero "z" zero (mkString 6 3 (chars "abc" ++ [zero; zero; zero; zero])) = Some s' /\
    Remove zero "z" (mkString 6 3 (chars "abc" ++ [zero; zero; zero; zero])) = Some s' /\
    m_used s' = 3 - 1 /\
    content s' = removelast (content (mkString 6 3 (chars "abc" ++ [zero; zero; zero; zero]))) /\
    m_data s' !! Z.to_nat (m_used s') = Some zero.
Proof.
  apply (ReplaceChar_absent_deletes_last zero
           (mkString 6 3 (chars "abc" ++ [zero; zero; zero; zero])) "z").
  - simpl. lia.
  - unfold content. simpl. intros Hin.
    repeat (apply elem_of_cons in Hin as [Hin|Hin]; [discriminate|]).
    apply not_elem_of_nil in Hin. assumption.
Defined.

End StringFacts.

(** * SharedLock: exclusion *)

Module SharedLockFacts.
Import SharedLock.

Lemma count_cons (p q : phase) (ps : list phase) :
  count p (q :: ps) = (if decide (q = p) then 1 else 0) + count p ps.
Proof.
  unfold count. rewrite filter_cons. destruct (decide (q = p)); simpl; lia.
Qed.

Lemma count_nonneg (p : phase) (ps : list phase) : 0 <= count p ps.
Proof. unfold count. lia. Qed.

Lemma count_lookup (ps : list phase) (t : nat) (p : phase) :
  ps !! t = Some p -> 1 <= count p ps.
Proof.
  revert t. induction ps as [|q ps IH]; intros t Ht; [discriminate|].
  rewrite count_cons. destruct t as [|t]; simpl in Ht.
  - injection Ht as ->. rewrite decide_True by reflexivity.
    pose proof (count_nonneg p ps). lia.
  - specialize (IH t Ht). destruct (decide (q = p)); lia.
Qed.

(** Moving thread [t] from phase [p] to phase [p'] takes one from the
    count of [p] and adds one to the count of [p']. *)
Lemma count_insert (ps : list phase) (t : nat) (p p' q : phase) :
  ps !! t = Some p ->
  count q (<[t := p']> ps)
  = count q ps - (if decide (p = q) then 1 else 0) + (if decide (p' = q) then 1 else 0).
Proof.
  revert t. induction ps as [|r ps IH]; intros t Ht; [discriminate|].
  destruct t as [|t]; simpl in *.
  - injection Ht as ->. rewrite !count_cons. lia.
  - rewrite !count_cons. rewrite (IH t Ht). lia.
Qed.

Lemma count_init (n : nat) (p : phase) : p <> Idle -> count p (replicate n Idle) = 0.
Proof.
  intros Hp. induction n as [|n IH]; [reflexivity|].
  simpl. rewrite count_cons, IH. rewrite decide_False by congruence. reflexivity.
Qed.

Lemma consistent_init (n : nat) : consistent (init n).
Proof.
  unfold consistent, init. simpl. rewrite !count_init by discriminate.
  repeat split; try reflexivity; try discriminate.
Qed.

Lemma consistent_step (t : nat) (a : action) (s s' : state) :
  consistent s -> step t a s = Some s' -> consistent s'.
Proof.
  intros (Hr & Hw & Hiw & Hniw) Hstep. unfold step in Hstep.
  destruct (threads s !! t) as [p|] eqn:Hp; [|discriminate]. simpl in Hstep.
  pose proof (count_lookup _ _ _ Hp) as Hone.
  pose proof (count_nonneg Reading (threads s)).
  pose proof (count_nonneg Waiting (threads s)).
  pose proof (count_nonneg Writing (threads s)).
  unfold must_wait_to_write in Hstep.
  destruct (m_is_writing (lock s)) eqn:Hflag;
  destruct a, p; try discriminate; simpl in Hstep;
    repeat match type of Hstep with
    | context [?x =? ?y] => destruct (Z.eqb_spec x y); simpl in Hstep
    end;
    try discriminate; injection Hstep as <-;
    unfold consistent, set_phase; simpl;
    rewrite !(count_insert _ _ _ _ _ Hp); simpl;
    repeat match goal with
    | H : true = true -> _ |- _ => specialize (H eq_refl)
    | H : false = false -> _ |- _ => specialize (H eq_refl)
    | H : _ /\ _ |- _ => destruct H
    end;
    repeat split; intros; try discriminate; try lia.
Qed.

Lemma reachable_consistent (n : nat) (s : state) : reachable n s -> consistent s.
Proof.
  induction 1 as [|s t a s' _ IH Hstep]; [apply consistent_init|].
  apply (consistent_step t a s); assumption.
Qed.

(** C9: in every state the threads can reach, a writer that holds the
    lock is alone ([m_is_writing] implies [m_reader_count == 0]); a
    [StartRead] step completes only with [m_writer_count == 0]; and as
    long as some thread writes or waits to write, no [StartRead] step is
    enabled. *)
Theorem writer_excludes_readers (n : nat) (s : state) :
  reachable n s ->
  (m_is_writing (lock s) = true -> m_reader_count (lock s) = 0) /\
  (forall t s', step t StartRead s = Some s' -> m_writer_count (lock s) = 0) /\
  (forall t, threads s !! t = Some Waiting \/ threads s !! t = Some Writing ->
             forall t', step t' StartRead s = None).
Proof.
  intros Hreach. apply reachable_consistent in Hreach as (Hr & Hw & Hiw & Hniw).
  assert (Hguard : forall t s', step t StartRead s = Some s' -> m_writer_count (lock s) = 0).
  { intros t s' Hstep. unfold step in Hstep.
    destruct (threads s !! t) as [[]|]; try discriminate. simpl in Hstep.
    destruct (Z.eqb_spec (m_writer_count (lock s)) 0); [assumption | discriminate]. }
  split; [|split].
  - intros Hflag. destruct (Hiw Hflag) as [_ Hnone]. lia.
  - exact Hguard.
  - intros t Ht t'. destruct (step t' StartRead s) as [s'|] eqn:Hstep; [|reflexivity].
    exfalso. apply Hguard in Hstep.
    pose proof (count_nonneg Waiting (threads s)).
    pose proof (count_nonneg Writing (threads s)).
    destruct Ht as [Ht|Ht]; apply count_lookup in Ht; lia.
Qed.

(** Thread 0 reads, thread 1 asks to write and waits, thread 0 leaves,
    thread 1 enters. *)
Lemma writer_excludes_readers_witness :
  (m_is_writing (lock (mkState (mkLock 0 1 true) [Idle; Writing; Idle])) = true ->
   m_reader_count (lock (mkState (mkLock 0 1 true) [Idle; Writing; Idle])) = 0) /\
  (forall t s', step t StartRead (mkState (mkLock 0 1 true) [Idle; Writing; Idle]) = Some s' ->
                m_writer_count (lock (mkState (mkLock 0 1 true) [Idle; Writing; Idle])) = 0) /\
  (forall t, threads (mkState (mkLock 0 1 true) [Idle; Writing; Idle]) !! t = Some Waiting \/
             threads (mkState (mkLock 0 1 true) [Idle; Writing; Idle]) !! t = Some Writing ->
             forall t', step t' StartRead (mkState (mkLock 0 1 true) [Idle; Writing; Idle]) = None).
Proof.
  apply (writer_excludes_readers 3).
  apply (reachable_step 3 (mkState (mkLock 0 1 false) [Idle; Waiting; Idle]) 1%nat ResumeWrite);
    [|reflexivity].
  apply (reachable_step 3 (mkState (mkLock 1 1 false) [Reading; Waiting; Idle]) 0%nat EndRead);
    [|reflexivity].
  apply (reachable_step 3 (mkState (mkLock 1 0 false) [Reading; Idle; Idle]) 1%nat StartWrite);
    [|reflexivity].
  apply (reachable_step 3 (init 3) 0%nat StartRead); [|reflexivity].
  apply reachable_init.
Defined.

End SharedLockFacts.

(** * Map: probing *)

Module MapFacts.
Import Map.

Section Facts.
Context {K V : Type} `{KeyType K}.
Variables (indet_key : K) (indet_value : V) (value_init : V).
Implicit Types (m : Map K V) (es : list (Entry K V)) (e : Entry K V) (k : K) (v : V).

Local Open Scope nat_scope.

Lemma key_eq_refl k : key_eq k k = true.
Proof. apply key_eq_spec. reflexivity. Qed.

(** What a probe stopped on. *)
Lemma probe_sound fuel es cap k :
  forall index r,
    probe fuel es cap k index = Some r ->
    exists e, es !! slot r = Some e /\
      match r with
      | Hit _ => used e = true /\ key e = k
      | Free _ => used e = false
      end.
Proof.
  induction fuel as [|fuel IH]; intros index r Hrun; simpl in Hrun;
    destruct (es !! index) as [e|] eqn:He; try discriminate;
    destruct (used e) eqn:Hu.
  - destruct (key_eq (key e) k) eqn:Hk; [|discriminate]. injection Hrun as <-.
    exists e. apply key_eq_spec in Hk. auto.
  - injection Hrun as <-. exists e. auto.
  - destruct (key_eq (key e) k) eqn:Hk.
    + injection Hrun as <-. exists e. apply key_eq_spec in Hk. auto.
    + apply IH in Hrun. assumption.
  - injection Hrun as <-. exists e. auto.
Qed.

(** Once the entry is stored where the probe stopped, the same probe
    stops there on a hit. *)
Lemma probe_after_store fuel es cap k v :
  forall index r,
    probe fuel es cap k index = Some r ->
    probe fuel (<[slot r := mkEntry k v true]> es) cap k index = Some (Hit (slot r)).
Proof.
  induction fuel as [|fuel IH]; intros index r Hrun;
    pose proof (probe_sound _ _ _ _ _ _ Hrun) as (er & Her & Hr);
    simpl in Hrun |- *;
    destruct (es !! index) as [e|] eqn:He; try discriminate;
    pose proof (lookup_lt_Some _ _ _ He) as Hlt.
  - destruct (used e) eqn:Hu; [destruct (key_eq (key e) k) eqn:Hk; [|discriminate]|];
      injection Hrun as <-; simpl;
      rewrite list_lookup_insert_eq by assumption; simpl; rewrite key_eq_refl; reflexivity.
  - destruct (used e) eqn:Hu; [destruct (key_eq (key e) k) eqn:Hk|].
    + injection Hrun as <-. simpl.
      rewrite list_lookup_insert_eq by assumption. simpl. rewrite key_eq_refl. reflexivity.
    + assert (Hne : slot r <> index).
      { intros Heq. rewrite Heq, He in Her. injection Her as <-.
        destruct r; [destruct Hr as [_ Hr]; apply key_eq_spec in Hr | ]; congruence. }
      rewrite list_lookup_insert_ne by assumption. rewrite He, Hu, Hk.
      apply IH. assumption.
    + injection Hrun as <-. simpl.
      rewrite list_lookup_insert_eq by assumption. simpl. rewrite key_eq_refl. reflexivity.
Qed.

(** ** Termination of the probing loops *)

Lemma probe_distance cap index u :
  index < cap -> u < cap -> exists d, d < cap /\ (index + d) mod cap = u.
Proof.
  intros Hi Hu. destruct (le_lt_dec index u) as [Hle|Hgt].
  - exists (u - index). split; [lia|].
    replace (index + (u - index)) with u by lia. apply Nat.mod_small. assumption.
  - exists (u + cap - index). split; [lia|].
    replace (index + (u + cap - index)) with (u + 1 * cap) by lia.
    rewrite Nat.Div0.mod_add. apply Nat.mod_small. assumption.
Qed.

Lemma probe_step_distance cap index d :
  ((index + 1) mod cap + d) mod cap = (index + S d) mod cap.
Proof.
  rewrite Nat.Div0.add_mod_idemp_l. f_equal. lia.
Qed.

Lemma probe_terminates es cap k (d : nat) :
  forall index fuel e,
    length es = cap -> index < cap ->
    es !! ((index + d) mod cap) = Some e -> used e = false ->
    d <= fuel ->
    exists r, probe fuel es cap k index = Some r.
Proof.
  induction d as [|d IH]; intros index fuel e Hlen Hi He Hu Hfuel.
  - rewrite Nat.add_0_r, Nat.mod_small in He by assumption.
    destruct fuel; simpl; rewrite He, Hu; eauto.
  - destruct fuel as [|fuel]; [lia|]. simpl.
    destruct (lookup_lt_is_Some_2 es index) as [e0 He0]; [lia|]. rewrite He0.
    destruct (used e0); [|eauto]. destruct (key_eq (key e0) k); [eauto|].
    apply (IH _ _ e); try assumption; [apply Nat.mod_upper_bound; lia | | lia].
    rewrite probe_step_distance. assumption.
Qed.

Lemma probe_free_terminates es cap (d : nat) :
  forall index fuel e,
    length es = cap -> index < cap ->
    es !! ((index + d) mod cap) = Some e -> used e = false ->
    d <= fuel ->
    exists i e', probe_free fuel es cap index = Some i /\
                 es !! i = Some e' /\ used e' = false.
Proof.
  induction d as [|d IH]; intros index fuel e Hlen Hi He Hu Hfuel.
  - rewrite Nat.add_0_r, Nat.mod_small in He by assumption.
    destruct fuel; simpl; rewrite He, Hu; eauto.
  - destruct fuel as [|fuel]; [lia|]. simpl.
    destruct (lookup_lt_is_Some_2 es index) as [e0 He0]; [lia|]. rewrite He0.
    destruct (used e0) eqn:Hu0; [|eauto].
    apply (IH _ _ e); try assumption; [apply Nat.mod_upper_bound; lia | | lia].
    rewrite probe_step_distance. assumption.
Qed.

(** ** Counting used slots *)

Lemma count_used_cons e es :
  count_used (e :: es) = (if used e then 1 else 0) + count_used es.
Proof.
  unfold count_used. rewrite filter_cons. destruct (used e); reflexivity.
Qed.

Lemma count_used_nil : count_used ([] : list (Entry K V)) = 0.
Proof. reflexivity. Qed.

Lemma count_used_le es : count_used es <= length es.
Proof. unfold count_used. apply length_filter. Qed.

Lemma exists_unused es :
  count_used es < length es -> exists u e, es !! u = Some e /\ used e = false.
Proof.
  induction es as [|e es IH]; simpl; [lia|]. rewrite count_used_cons.
  destruct (used e) eqn:Hu.
  - intros Hlt. destruct IH as (u & e' & He' & Hu'); [lia|]. exists (S u), e'. auto.
  - intros _. exists 0, e. auto.
Qed.

Lemma count_used_insert es i e e' :
  es !! i = Some e ->
  count_used (<[i := e']> es) + (if used e then 1 else 0)
  = count_used es + (if used e' then 1 else 0).
Proof.
  revert i. induction es as [|e0 es IH]; intros i Hi; [discriminate|].
  destruct i as [|i]; simpl in *.
  - injection Hi as ->. rewrite !count_used_cons. lia.
  - rewrite !count_used_cons. specialize (IH i Hi). lia.
Qed.

Lemma count_used_fresh n : count_used (fresh_entries indet_key indet_value n) = 0.
Proof.
  induction n as [|n IH]; [reflexivity|].
  unfold fresh_entries in *. simpl. rewrite count_used_cons. simpl. assumption.
Qed.

(** ** Resize and Insert keep the table well formed *)

Lemma keyToIndex_ok m k :
  0 < m_capacity m ->
  exists index, keyToIndex m k = Some index /\ index < m_capacity m.
Proof.
  intros Hcap. unfold keyToIndex.
  destruct (Nat.eqb_spec (m_capacity m) 0); [lia|]. eexists; split; [reflexivity|].
  pose proof (key_hash_nonneg (m_algorithm m) k).
  pose proof (Z.mod_pos_bound (key_hash (m_algorithm m) k) (Z.of_nat (m_capacity m))). lia.
Qed.

Lemma room_to_probe es cap index :
  length es = cap -> index < cap -> count_used es < cap ->
  exists d e, d <= cap /\ es !! ((index + d) mod cap) = Some e /\ used e = false.
Proof.
  intros Hlen Hi Hroom. destruct (exists_unused es) as (u & e & He & Hu); [lia|].
  pose proof (lookup_lt_Some _ _ _ He).
  destruct (probe_distance cap index u) as (d & Hd & Hmod); [lia | lia |].
  exists d, e. rewrite Hmod. split; [lia | auto].
Qed.

Lemma rehash_entry_spec m old :
  length (m_entries m) = m_capacity m -> 0 < m_capacity m ->
  count_used (m_entries m) < m_capacity m ->
  exists m',
    rehash_entry m old = Some m' /\
    length (m_entries m') = m_capacity m /\
    count_used (m_entries m') = count_used (m_entries m) + (if used old then 1 else 0) /\
    m_capacity m' = m_capacity m /\ m_used m' = m_used m /\
    m_algorithm m' = m_algorithm m /\ m_grow_factor m' = m_grow_factor m /\
    m_growable m' = m_growable m.
Proof.
  intros Hlen Hcap Hroom. unfold rehash_entry. destruct (used old) eqn:Hu.
  - destruct (keyToIndex_ok m (key old) Hcap) as (index & -> & Hi). simpl.
    destruct (room_to_probe (m_entries m) (m_capacity m) index) as (d & e & Hd & He & Hue);
      try assumption.
    destruct (probe_free_terminates (m_entries m) (m_capacity m) d index (m_capacity m) e)
      as (i & e' & -> & He' & Hue'); try assumption.
    simpl. eexists; split; [reflexivity|]. simpl. rewrite length_insert.
    pose proof (count_used_insert (m_entries m) i e' (mkEntry (key old) (value old) true) He') as Hc.
    rewrite Hue' in Hc. simpl in Hc. repeat split; try assumption; try lia.
  - exists m. repeat split; try assumption; lia.
Qed.

Lemma rehash_fold_spec (olds : list (Entry K V)) :
  forall m,
    length (m_entries m) = m_capacity m -> 0 < m_capacity m ->
    count_used (m_entries m) + count_used olds < m_capacity m ->
    exists m',
      fold_left (fun om old => m' <- om ;; rehash_entry m' old) olds (Some m) = Some m' /\
      length (m_entries m') = m_capacity m /\
      count_used (m_entries m') = count_used (m_entries m) + count_used olds /\
      m_capacity m' = m_capacity m /\ m_used m' = m_used m /\
      m_algorithm m' = m_algorithm m /\ m_grow_factor m' = m_grow_factor m /\
      m_growable m' = m_growable m.
Proof.
  induction olds as [|old olds IH]; intros m Hlen Hcap Hroom.
  - exists m. rewrite count_used_nil in *. simpl. repeat split; try assumption; lia.
  - rewrite count_used_cons in Hroom. simpl.
    destruct (rehash_entry_spec m old) as (m1 & -> & Hlen1 & Hc1 & Hcap1 & Hu1 & Ha1 & Hg1 & Hgr1);
      try assumption; [lia|].
    destruct (IH m1) as (m' & -> & Hlen' & Hc' & Hcap' & Hu' & Ha' & Hg' & Hgr');
      [congruence | lia | rewrite Hcap1; lia |].
    exists m'. rewrite count_used_cons. split; [reflexivity|].
    repeat split; try congruence; lia.
Qed.

Lemma Resize_rehashes a_new_capacity m :
  wf m -> m_capacity m < a_new_capacity ->
  exists m',
    Resize indet_key indet_value a_new_capacity m = Some m' /\ wf m' /\
    m_capacity m' = a_new_capacity /\ m_used m' = m_used m.
Proof.
  intros (Hlen & Hcap & Hused) Hnew. unfold Resize, VERIFY.
  pose proof (count_used_le (m_entries m)) as Hle.
  destruct (Nat.leb_spec (m_used m) a_new_capacity); [|lia].
  destruct (Nat.ltb_spec (m_capacity m) a_new_capacity); [|lia]. simpl.
  destruct (rehash_fold_spec (m_entries m)
              (set_entries (set_capacity m a_new_capacity)
                 (fresh_entries indet_key indet_value a_new_capacity)))
    as (m' & -> & Hlen' & Hc' & Hcap' & Hu' & _); simpl.
  - apply length_replicate.
  - lia.
  - rewrite count_used_fresh. lia.
  - simpl in *. rewrite count_used_fresh in Hc'. exists m'. split; [reflexivity|].
    split; [|split; assumption]. unfold wf. repeat split; lia.
Qed.

(** The state [Insert] probes: after growing, when it grows. *)
Lemma Insert_grown m m1 :
  wf m ->
  (if m_growable m && load_reached m
   then Resize indet_key indet_value (m_capacity m * 2) m else Some m) = Some m1 ->
  wf m1 /\ (within_growth_limit m -> m_used m1 < m_capacity m1).
Proof.
  intros Hwf Hgrow. destruct (m_growable m && load_reached m) eqn:Hcond.
  - pose proof Hwf as (Hlen & Hcap & Hused).
    destruct (Resize_rehashes (m_capacity m * 2) m Hwf) as (m' & Hr & Hwf' & Hcap' & Hu'); [lia|].
    rewrite Hr in Hgrow. injection Hgrow as <-. split; [assumption|]. intros _.
    pose proof (count_used_le (m_entries m)). lia.
  - injection Hgrow as <-. split; [assumption|]. intros [Hc|Hroom]; [congruence | assumption].
Qed.

Lemma Insert_wf k v m m' :
  wf m -> Insert indet_key indet_value k v m = Some m' -> wf m'.
Proof.
  intros Hwf Hrun. unfold Insert in Hrun. inv_bind Hrun as m1 Hgrow.
  apply Insert_grown in Hgrow as [(Hlen & Hcap & Hused) _]; [|assumption].
  inv_bind Hrun as index Hindex. inv_bind Hrun as r Hprobe.
  pose proof (probe_sound _ _ _ _ _ _ Hprobe) as (e & He & Hr).
  destruct r as [i|i]; simpl in He.
  - rewrite He in Hrun. simpl in Hrun. injection Hrun as <-. unfold wf. simpl.
    rewrite length_insert.
    pose proof (count_used_insert (m_entries m1) i e (mkEntry (key e) v (used e)) He) as Hc.
    simpl in Hc. repeat split; try assumption. lia.
  - injection Hrun as <-. unfold wf. simpl. rewrite length_insert.
    pose proof (count_used_insert (m_entries m1) i e (mkEntry k v true) He) as Hc.
    rewrite Hr in Hc. simpl in Hc. repeat split; try assumption. lia.
Qed.

Lemma Insert_completes k v m :
  wf m -> within_growth_limit m ->
  exists m', Insert indet_key indet_value k v m = Some m'.
Proof.
  intros Hwf Hlimit. unfold Insert.
  destruct (if m_growable m && load_reached m
            then Resize indet_key indet_value (m_capacity m * 2) m else Some m)
    as [m1|] eqn:Hgrow.
  - apply Insert_grown in Hgrow as [(Hlen & Hcap & Hused) Hroom]; [|assumption].
    specialize (Hroom Hlimit). simpl.
    destruct (keyToIndex_ok m1 k Hcap) as (index & -> & Hi). simpl.
    destruct (room_to_probe (m_entries m1) (m_capacity m1) index) as (d & e & Hd & He & Hue);
      try assumption; [lia|].
    destruct (probe_terminates (m_entries m1) (m_capacity m1) k d index (m_capacity m1) e)
      as (r & Hprobe); try assumption.
    pose proof (probe_sound _ _ _ _ _ _ Hprobe) as (er & Her & _).
    rewrite Hprobe. simpl. destruct r as [i|i]; simpl in Her; [|eauto].
    rewrite Her. simpl. eauto.
  - exfalso. destruct (m_growable m && load_reached m) eqn:Hcond; [|discriminate].
    pose proof Hwf as (Hlen & Hcap & Hused).
    destruct (Resize_rehashes (m_capacity m * 2) m Hwf) as (m' & Hr & _); [lia|]. congruence.
Qed.

(** ** Insert, then Get *)

Lemma Insert_then_Get k v m m' :
  Insert indet_key indet_value k v m = Some m' -> Get k m' = Some v.
Proof.
  intros Hrun. unfold Insert in Hrun. inv_bind Hrun as m1 Hgrow. clear Hgrow.
  inv_bind Hrun as index Hindex. inv_bind Hrun as r Hprobe.
  pose proof (probe_sound _ _ _ _ _ _ Hprobe) as (e & He & Hr).
  pose proof (lookup_lt_Some _ _ _ He) as Hlt.
  pose proof (probe_after_store _ _ _ _ v _ _ Hprobe) as Hagain.
  assert (Hget : forall m2,
            m_entries m2 = <[slot r := mkEntry k v true]> (m_entries m1) ->
            m_capacity m2 = m_capacity m1 -> m_algorithm m2 = m_algorithm m1 ->
            Get k m2 = Some v).
  { intros m2 Hes Hcap Halg. unfold Get, find.
    assert (Hidx : keyToIndex m2 k = Some index).
    { unfold keyToIndex in *. rewrite Hcap, Halg. assumption. }
    rewrite Hidx. simpl. rewrite Hes, Hcap, Hagain. simpl.
    rewrite list_lookup_insert_eq by assumption. reflexivity. }
  destruct r as [i|i]; simpl in *.
  - rewrite He in Hrun. simpl in Hrun. injection Hrun as <-.
    destruct Hr as [Hu Hk]. apply Hget; simpl; try reflexivity. rewrite Hu, Hk. reflexivity.
  - injection Hrun as <-. apply Hget; reflexivity.
Qed.

Lemma fold_bind_None {A B : Type} (f : A -> B -> option A) (l : list B) :
  fold_left (fun oa b => a <- oa ;; f a b) l None = None.
Proof. induction l as [|b l IH]; simpl; auto. Qed.

Lemma Inserts_wf (kvs : list (K * V)) :
  forall m m', wf m -> Inserts indet_key indet_value kvs m = Some m' -> wf m'.
Proof.
  unfold Inserts. induction kvs as [|[k v] kvs IH]; intros m m' Hwf Hrun; simpl in Hrun.
  - injection Hrun as <-. assumption.
  - destruct (Insert indet_key indet_value k v m) as [m1|] eqn:Hins.
    + apply (IH m1); [apply (Insert_wf k v m); assumption | assumption].
    + exfalso. revert Hrun.
      change (fold_left (fun om '(k0, v0) => m'0 <- om ;; Insert indet_key indet_value k0 v0 m'0) kvs None <> Some m').
      clear. induction kvs as [|[k v] kvs IH]; simpl; [discriminate | assumption].
Qed.

Lemma new_wf a_capacity a_algorithm a_grow_factor a_growable :
  0 < a_capacity ->
  wf (new indet_key indet_value a_capacity a_algorithm a_grow_factor a_growable).
Proof.
  intros Hcap. unfold wf, new. simpl. rewrite count_used_fresh.
  split; [apply length_replicate | split; [assumption | reflexivity]].
Qed.

(** C1: after any sequence of completed [Insert] calls on a new map
    (with distinct keys or not), an [Insert(k, v)] that stays within the
    growth limit completes, and the [Get(k)] that follows returns [v]. *)
Theorem Insert_Get_roundtrip a_capacity a_algorithm a_grow_factor a_growable
    (kvs : list (K * V)) m k v :
  0 < a_capacity ->
  Inserts indet_key indet_value kvs
    (new indet_key indet_value a_capacity a_algorithm a_grow_factor a_growable) = Some m ->
  within_growth_limit m ->
  exists m', Insert indet_key indet_value k v m = Some m' /\ Get k m' = Some v.
Proof.
  intros Hcap Hprior Hlimit.
  assert (Hwf : wf m).
  { apply (Inserts_wf kvs _ m (new_wf a_capacity a_algorithm a_grow_factor a_growable Hcap)).
    assumption. }
  destruct (Insert_completes k v m Hwf Hlimit) as (m' & Hins).
  exists m'. split; [assumption|]. apply (Insert_then_Get k v m). assumption.
Qed.

(** ** Without Remove every live entry stays reachable *)

Lemma probe_insert_off_path fuel es cap k i e' :
  forall index j ei,
    probe fuel es cap k index = Some (Hit j) ->
    es !! i = Some ei -> used ei = false ->
    probe fuel (<[i := e']> es) cap k index = Some (Hit j).
Proof.
  induction fuel as [|fuel IH]; intros index j ei Hrun Hi Hu; simpl in Hrun |- *;
    destruct (es !! index) as [e|] eqn:He; try discriminate;
    destruct (used e) eqn:Hue; try discriminate;
    (assert (Hne : i <> index) by (intros ->; congruence));
    rewrite list_lookup_insert_ne by assumption; rewrite He, Hue;
    destruct (key_eq (key e) k); try discriminate; try assumption.
  apply (IH _ _ ei); assumption.
Qed.

Lemma probe_insert_same fuel es cap k i e0 e' :
  es !! i = Some e0 -> key e' = key e0 -> used e' = used e0 ->
  forall index,
    probe fuel (<[i := e']> es) cap k index = probe fuel es cap k index.
Proof.
  intros Hi Hk Hu. pose proof (lookup_lt_Some _ _ _ Hi) as Hlt.
  induction fuel as [|fuel IH]; intros index; simpl;
    (destruct (Nat.eq_dec i index) as [->|Hne];
     [rewrite list_lookup_insert_eq by assumption; rewrite Hi, Hk, Hu
     |rewrite list_lookup_insert_ne by assumption]);
    try reflexivity.
  - destruct (used e0); [|reflexivity]. destruct (key_eq (key e0) k); [reflexivity|]. apply IH.
  - destruct (es !! index) as [e|]; [|reflexivity].
    destruct (used e); [|reflexivity]. destruct (key_eq (key e) k); [reflexivity|]. apply IH.
Qed.

Lemma probe_free_sound fuel es cap :
  forall index i,
    probe_free fuel es cap index = Some i ->
    exists e, es !! i = Some e /\ used e = false.
Proof.
  induction fuel as [|fuel IH]; intros index i Hrun; simpl in Hrun;
    destruct (es !! index) as [e|] eqn:He; try discriminate;
    destruct (used e) eqn:Hu; try discriminate.
  - injection Hrun as <-. eauto.
  - apply IH in Hrun. assumption.
  - injection Hrun as <-. eauto.
Qed.

(** For a key that is not in the table the loop of [Resize] and the
    loop of [Insert] stop on the same slot. *)
Lemma probe_free_probe fuel es cap k :
  (forall j e, es !! j = Some e -> used e = true -> key e <> k) ->
  forall index i,
    probe_free fuel es cap index = Some i ->
    probe fuel es cap k index = Some (Free i).
Proof.
  intros Hfresh. induction fuel as [|fuel IH]; intros index i Hrun; simpl in Hrun |- *;
    destruct (es !! index) as [e|] eqn:He; try discriminate;
    destruct (used e) eqn:Hu; try discriminate;
    try (injection Hrun as <-; reflexivity).
  destruct (key_eq (key e) k) eqn:Hk.
  - apply key_eq_spec in Hk. exfalso. apply (Hfresh index e); assumption.
  - apply IH. assumption.
Qed.

Lemma elem_of_live_keys es k :
  k ∈ live_keys es <-> exists j e, es !! j = Some e /\ used e = true /\ key e = k.
Proof.
  unfold live_keys. rewrite list_elem_of_fmap. split.
  - intros (e & -> & He). apply list_elem_of_filter in He as [Hu He].
    apply list_elem_of_lookup_1 in He as [j Hj]. eauto.
  - intros (j & e & Hj & Hu & <-). exists e. split; [reflexivity|].
    apply list_elem_of_filter. split; [assumption|]. apply list_elem_of_lookup_2 with j. assumption.
Qed.

Lemma live_keys_cons e es :
  live_keys (e :: es) = if used e then key e :: live_keys es else live_keys es.
Proof. unfold live_keys. rewrite filter_cons. destruct (used e); reflexivity. Qed.

Lemma live_keys_insert_free es i ei e' :
  es !! i = Some ei -> used ei = false -> used e' = true ->
  live_keys (<[i := e']> es) ≡ₚ key e' :: live_keys es.
Proof.
  revert i. induction es as [|e0 es IH]; intros i Hi Hu Hu'; [discriminate|].
  destruct i as [|i]; simpl in *.
  - injection Hi as ->. rewrite !live_keys_cons, Hu, Hu'. reflexivity.
  - rewrite !live_keys_cons. destruct (used e0).
    + rewrite (IH i Hi Hu Hu'). apply perm_swap.
    + apply (IH i Hi Hu Hu').
Qed.

Lemma live_keys_insert_same es i e0 e' :
  es !! i = Some e0 -> key e' = key e0 -> used e' = used e0 ->
  live_keys (<[i := e']> es) = live_keys es.
Proof.
  revert i. induction es as [|e1 es IH]; intros i Hi Hk Hu; [discriminate|].
  destruct i as [|i]; simpl in *.
  - injection Hi as ->. rewrite !live_keys_cons, Hk, Hu. reflexivity.
  - rewrite !live_keys_cons. rewrite (IH i Hi Hk Hu). reflexivity.
Qed.

Lemma live_keys_fresh n : live_keys (fresh_entries indet_key indet_value n) = [].
Proof.
  induction n as [|n IH]; [reflexivity|].
  unfold fresh_entries in *. simpl. rewrite live_keys_cons. simpl. assumption.
Qed.

(** The lookup of a key, spelled out. *)
Lemma find_Hit k m i :
  find k m = Some (Some i) <->
  exists index, keyToIndex m k = Some index /\
    probe (m_capacity m) (m_entries m) (m_capacity m) k index = Some (Hit i).
Proof.
  unfold find. destruct (keyToIndex m k) as [index|]; simpl.
  - split.
    + intros Hf. exists index. split; [reflexivity|].
      destruct (probe (m_capacity m) (m_entries m) (m_capacity m) k index) as [[j|j]|];
        simpl in Hf; try discriminate.
      injection Hf as ->. reflexivity.
    + intros (index' & [= <-] & Hp). rewrite Hp. reflexivity.
  - split; [discriminate | intros (index & Hd & _); discriminate].
Qed.

Lemma keyToIndex_fields m m' k :
  m_capacity m' = m_capacity m -> m_algorithm m' = m_algorithm m ->
  keyToIndex m' k = keyToIndex m k.
Proof. intros Hc Ha. unfold keyToIndex. rewrite Hc, Ha. reflexivity. Qed.

(** Storing a new key in the unused slot its probe stopped on. *)
Lemma store_free_sound m m' k v index i :
  sound m ->
  keyToIndex m k = Some index ->
  probe (m_capacity m) (m_entries m) (m_capacity m) k index = Some (Free i) ->
  m_entries m' = <[i := mkEntry k v true]> (m_entries m) ->
  m_capacity m' = m_capacity m -> m_algorithm m' = m_algorithm m ->
  sound m'.
Proof.
  intros [Hreach Hnodup] Hindex Hprobe Hes Hcap Halg.
  pose proof (probe_sound _ _ _ _ _ _ Hprobe) as (ei & Hei & Hui). simpl in Hei, Hui.
  pose proof (lookup_lt_Some _ _ _ Hei) as Hlt.
  split.
  - intros j e Hj Hu. rewrite Hes in Hj. apply find_Hit.
    rewrite (keyToIndex_fields m m') by assumption. rewrite Hes, Hcap.
    destruct (Nat.eq_dec i j) as [->|Hne].
    + rewrite list_lookup_insert_eq in Hj by assumption. injection Hj as <-. simpl.
      exists index. split; [assumption|].
      apply (probe_after_store _ _ _ _ v _ _ Hprobe).
    + rewrite list_lookup_insert_ne in Hj by assumption.
      apply (Hreach j e Hj) in Hu as Hfind. apply find_Hit in Hfind as (index' & Hindex' & Hp').
      exists index'. split; [assumption|].
      apply (probe_insert_off_path _ _ _ _ _ _ _ _ ei); assumption.
  - rewrite Hes. rewrite (live_keys_insert_free _ _ ei) by (assumption || reflexivity).
    simpl. constructor; [|assumption].
    intros Hin. apply elem_of_live_keys in Hin as (j & e & Hj & Hu & Hk).
    pose proof (Hreach j e Hj Hu) as Hfind. rewrite Hk in Hfind.
    apply find_Hit in Hfind as (index' & Hindex' & Hp'). congruence.
Qed.

Lemma rehash_entry_sound m old m' :
  sound m -> (used old = true -> key old ∉ live_keys (m_entries m)) ->
  rehash_entry m old = Some m' ->
  sound m' /\ m_capacity m' = m_capacity m /\ m_algorithm m' = m_algorithm m /\
  live_keys (m_entries m')
  ≡ₚ (if used old then [key old] else []) ++ live_keys (m_entries m).
Proof.
  intros Hsound Hfresh Hrun. unfold rehash_entry in Hrun. destruct (used old) eqn:Hu.
  - specialize (Hfresh eq_refl).
    inv_bind Hrun as index Hindex. inv_bind Hrun as i Hfree. injection Hrun as <-.
    pose proof (probe_free_sound _ _ _ _ _ Hfree) as (ei & Hei & Hui).
    assert (Hprobe : probe (m_capacity m) (m_entries m) (m_capacity m) (key old) index
                     = Some (Free i)).
    { apply probe_free_probe; [|assumption]. intros j e Hj Hue Hk. apply Hfresh.
      apply elem_of_live_keys. eauto. }
    split; [|split; [reflexivity|split; [reflexivity|]]].
    + apply (store_free_sound m _ (key old) (value old) index i); try assumption; reflexivity.
    + simpl. apply (live_keys_insert_free _ i ei (mkEntry (key old) (value old) true));
        [assumption | assumption | reflexivity].
  - injection Hrun as <-. repeat split; try apply Hsound. reflexivity.
Qed.

Lemma rehash_fold_sound (olds : list (Entry K V)) :
  forall m m',
    sound m -> NoDup (live_keys olds) ->
    (forall k, k ∈ live_keys olds -> k ∉ live_keys (m_entries m)) ->
    fold_left (fun om old => m1 <- om ;; rehash_entry m1 old) olds (Some m) = Some m' ->
    sound m'.
Proof.
  induction olds as [|old olds IH]; intros m m' Hsound Hnodup Hdisj Hrun; simpl in Hrun.
  - injection Hrun as <-. assumption.
  - destruct (rehash_entry m old) as [m1|] eqn:Hre.
    + rewrite live_keys_cons in Hnodup, Hdisj.
      destruct (rehash_entry_sound m old m1 Hsound) as (Hs1 & _ & _ & Hkeys); [|assumption|].
      { intros Hu. rewrite Hu in Hdisj. apply Hdisj. apply elem_of_cons. left. reflexivity. }
      apply (IH m1 m'); try assumption.
      * destruct (used old); [inversion Hnodup|]; assumption.
      * intros k Hk. rewrite Hkeys. destruct (used old) eqn:Hu; simpl.
        -- rewrite elem_of_cons. intros [->|Hin].
           ++ inversion Hnodup as [|? ? Hnotin _]; subst. apply Hnotin. assumption.
           ++ revert Hin. apply Hdisj. apply elem_of_cons. right. assumption.
        -- apply Hdisj. assumption.
    + simpl in Hrun. rewrite fold_bind_None in Hrun. discriminate.
Qed.

Lemma Resize_sound a_new_capacity m m' :
  sound m -> Resize indet_key indet_value a_new_capacity m = Some m' -> sound m'.
Proof.
  intros [Hreach Hnodup] Hrun. unfold Resize in Hrun. inv_verify Hrun. inv_verify Hrun.
  apply rehash_fold_sound in Hrun; try assumption.
  - split.
    + intros i e Hi Hu. simpl in Hi. unfold fresh_entries in Hi.
      apply lookup_replicate_1 in Hi as [-> _]. discriminate.
    + simpl. rewrite live_keys_fresh. constructor.
  - intros k _. simpl. rewrite live_keys_fresh. apply not_elem_of_nil.
Qed.

Lemma Insert_sound k v m m' :
  sound m -> Insert indet_key indet_value k v m = Some m' -> sound m'.
Proof.
  intros Hsound Hrun. unfold Insert in Hrun. inv_bind Hrun as m1 Hgrow.
  assert (Hs1 : sound m1).
  { destruct (m_growable m && load_reached m);
      [apply (Resize_sound (m_capacity m * 2) m) | injection Hgrow as <-]; assumption. }
  clear Hsound Hgrow. inv_bind Hrun as index Hindex. inv_bind Hrun as r Hprobe.
  pose proof (probe_sound _ _ _ _ _ _ Hprobe) as (e & He & Hr).
  destruct r as [i|i]; simpl in He.
  - rewrite He in Hrun. simpl in Hrun. injection Hrun as <-.
    destruct Hs1 as [Hreach Hnodup]. split.
    + intros j ej Hj Hu. simpl in Hj. apply find_Hit.
      assert (Hold : exists e0, m_entries m1 !! j = Some e0 /\ used e0 = true /\ key e0 = key ej).
      { destruct (Nat.eq_dec i j) as [->|Hne].
        - rewrite list_lookup_insert_eq in Hj by (apply lookup_lt_Some in He; assumption).
          injection Hj as <-. exists e. simpl in *. auto.
        - rewrite list_lookup_insert_ne in Hj by assumption. eauto. }
      destruct Hold as (e0 & He0 & Hu0 & Hk0).
      pose proof (Hreach j e0 He0 Hu0) as Hfind. rewrite Hk0 in Hfind.
      apply find_Hit in Hfind as (index' & Hindex' & Hp').
      exists index'. split; [exact Hindex'|]. simpl.
      rewrite (probe_insert_same _ _ _ _ _ e); [assumption | assumption | reflexivity | reflexivity].
    + simpl. rewrite (live_keys_insert_same _ _ e); [assumption | assumption | reflexivity | reflexivity].
  - injection Hrun as <-.
    apply (store_free_sound m1 _ k v index i); try assumption; reflexivity.
Qed.

Lemma run_op_sound o m m' :
  sound m -> not_Remove o -> run_op indet_key indet_value value_init o m = Some m' -> sound m'.
Proof.
  intros Hsound Hnot Hrun. destruct o as [k v|k|k|n]; simpl in *.
  - apply (Insert_sound k v m); assumption.
  - inv_bind Hrun as r Hat. destruct r as [v m1]. injection Hrun as <-.
    unfold At in Hat. inv_bind Hat as entry Hfind. destruct entry as [i|].
    + inv_bind Hat as e He. injection Hat as _ <-. assumption.
    + inv_bind Hat as m2 Hins. inv_bind Hat as entry' Hfind'. inv_bind Hat as i Hi.
      inv_bind Hat as e He. injection Hat as _ <-.
      apply (Insert_sound k value_init m); assumption.
  - contradiction.
  - apply (Resize_sound n m); assumption.
Qed.

(** The invariant of claim C2 for histories without [Remove]: from a new
    map, after any completed sequence of [Insert], [At] and [Resize]
    calls, the lookup of the key of every live entry finds that entry. *)
Lemma all_reachable_without_Remove a_capacity a_algorithm a_grow_factor a_growable
    (ops : list (op K V)) m :
  Forall not_Remove ops ->
  run indet_key indet_value value_init ops
    (new indet_key indet_value a_capacity a_algorithm a_grow_factor a_growable) = Some m ->
  all_reachable m.
Proof.
  intros Hops Hrun.
  assert (Hnew : sound (new indet_key indet_value a_capacity a_algorithm a_grow_factor a_growable)).
  { split.
    - intros i e Hi Hu. simpl in Hi. unfold fresh_entries in Hi.
      apply lookup_replicate_1 in Hi as [-> _]. discriminate.
    - simpl. rewrite live_keys_fresh. constructor. }
  revert Hnew Hrun.
  generalize (new indet_key indet_value a_capacity a_algorithm a_grow_factor a_growable).
  unfold run. induction Hops as [|o ops Ho Hops IH]; intros m0 Hsound Hrun; simpl in Hrun.
  - injection Hrun as <-. apply Hsound.
  - destruct (run_op indet_key indet_value value_init o m0) as [m1|] eqn:Hop.
    + apply (IH m1); [|assumption]. apply (run_op_sound o m0); assumption.
    + simpl in Hrun. rewrite fold_bind_None in Hrun. discriminate.
Qed.

End Facts.

(** [Map<int,int> map(10)] after [Insert(1, 100)] and [Insert(11, 200)],
    which collide in slot [1]. *)
Lemma Insert_Get_roundtrip_witness :
  exists m',
    Insert 0 0 21 300
      (mkMap [mkEntry 0 0 false; mkEntry 1 100 true; mkEntry 11 200 true;
              mkEntry 0 0 false; mkEntry 0 0 false; mkEntry 0 0 false;
              mkEntry 0 0 false; mkEntry 0 0 false; mkEntry 0 0 false;
              mkEntry 0 0 false]
         algorithms.FNV1a 10 2 (7 # 10) true) = Some m' /\
    Get 21 m' = Some 300.
Proof.
  apply (Insert_Get_roundtrip 0 0 10%nat algorithms.FNV1a (7 # 10) true
           [(1, 100); (11, 200)]).
  - lia.
  - reflexivity.
  - right. simpl. lia.
Defined.

(** C2: [Map<int,int> map(10)]; [Insert(0, 10)]; [Insert(10, 20)] (key
    [10] collides with key [0] and goes to slot [1]); [Remove(0)].  The
    entry of key [10] is still in the table, in a used slot that
    [m_used] counts, but the probe from slot [0] stops on the slot
    [Remove] cleared: [Exists(10)] is false and [Get(10)] aborts. *)
Theorem Remove_strands_displaced_entry :
  exists m,
    run 0 0 0 [OpInsert 0 10; OpInsert 10 20; OpRemove 0]
      (new 0 0 10%nat algorithms.FNV1a (7 # 10) true) = Some m /\
    live m = [(10, 20)] /\ m_used m = 1%nat /\
    m_entries m !! 1%nat = Some (mkEntry 10 20 true) /\
    Exists 10 m = Some false /\
    find 10 m = Some None /\
    Get 10 m = None.
Proof.
  eexists. repeat split.
Qed.

End MapFacts.

(** * Loops over buffers *)

Lemma for_up_unroll {St : Type} lo hi (body : Z -> St -> option St) (s : St) :
  lo < hi ->
  for_up lo hi body s = (s' <- body lo s ;; for_up (lo + 1) hi body s').
Proof.
  intros Hlt. unfold for_up.
  replace (Z.to_nat (hi - lo)) with (S (Z.to_nat (hi - (lo + 1)))) by lia.
  reflexivity.
Qed.

Lemma for_down_unroll {St : Type} hi lo (body : Z -> St -> option St) (s : St) :
  lo < hi ->
  for_down hi lo body s = (s' <- body hi s ;; for_down (hi - 1) lo body s').
Proof.
  intros Hlt. unfold for_down.
  replace (Z.to_nat (hi - lo)) with (S (Z.to_nat (hi - 1 - lo))) by lia.
  reflexivity.
Qed.

Lemma for_up_ext {St : Type} lo hi (body1 body2 : Z -> St -> option St) (s : St) :
  (forall i s0, lo <= i < hi -> body1 i s0 = body2 i s0) ->
  for_up lo hi body1 s = for_up lo hi body2 s.
Proof.
  unfold for_up. intros Hext.
  remember (Z.to_nat (hi - lo)) as n eqn:Hn.
  revert lo s Hext Hn. induction n as [|n IH]; intros lo s Hext Hn; [reflexivity|].
  simpl. rewrite Hext by lia. destruct (body2 lo s) as [s1|]; [|reflexivity]. simpl.
  apply IH; [|lia]. intros i s0 Hi. apply Hext. lia.
Qed.

Section CopyFacts.
Context {T : Type}.
Variable indet : T.
Implicit Types (d src dst : list T).

Lemma wr_at (A B : list T) (x y : T) (i : Z) :
  i = Z.of_nat (length A) -> wr (A ++ x :: B) i y = Some (A ++ y :: B).
Proof.
  intros ->. rewrite wr_ok by (rewrite length_app; simpl; lia).
  rewrite Nat2Z.id. rewrite insert_app_r_alt by lia. rewrite Nat.sub_diag. reflexivity.
Qed.

Lemma rd_app_cons d (A B : list T) (x : T) (i : Z) :
  d = A ++ x :: B -> i = Z.of_nat (length A) -> rd indet d i = x.
Proof.
  intros -> ->. apply rd_lookup; [lia|]. rewrite Nat2Z.id.
  rewrite lookup_app_r by lia. rewrite Nat.sub_diag. reflexivity.
Qed.

(** Copying [n] slots of [src] to [dst] from slot [off] on. *)
Lemma blit_spec src dst (off n : Z) :
  0 <= off -> 0 <= n -> off + n <= Z.of_nat (length dst) -> n <= Z.of_nat (length src) ->
  for_up 0 n (fun i d => wr d (off + i) (rd indet src i)) dst
  = Some (take (Z.to_nat off) dst ++ take (Z.to_nat n) src ++ drop (Z.to_nat (off + n)) dst).
Proof.
  intros Hoff Hn Hdst Hsrc.
  destruct (for_up_inv
    (fun i d => d = take (Z.to_nat off) dst ++ take (Z.to_nat i) src
                    ++ drop (Z.to_nat (off + i)) dst)
    0 n (fun i d => wr d (off + i) (rd indet src i)) dst) as (d & Hrun & ->).
  - assumption.
  - rewrite Z.add_0_r. simpl. rewrite take_drop. reflexivity.
  - intros i d Hi ->.
    destruct (lookup_lt_is_Some_2 dst (Z.to_nat (off + i))) as [x Hx]; [lia|].
    rewrite (drop_S dst x _ Hx).
    rewrite app_assoc.
    rewrite wr_at by (rewrite length_app, !length_take; lia).
    eexists; split; [reflexivity|].
    replace (Z.to_nat (i + 1)) with (S (Z.to_nat i)) by lia.
    rewrite (take_S_r src _ (rd indet src i)) by (apply (rd_ok indet); lia).
    replace (Z.to_nat (off + (i + 1))) with (S (Z.to_nat (off + i))) by lia.
    rewrite <- !app_assoc. reflexivity.
  - assumption.
Qed.

Lemma copy_prefix_spec src dst (n : Z) :
  0 <= n -> n <= Z.of_nat (length dst) -> n <= Z.of_nat (length src) ->
  for_up 0 n (fun i d => wr d i (rd indet src i)) dst
  = Some (take (Z.to_nat n) src ++ drop (Z.to_nat n) dst).
Proof.
  intros Hn Hdst Hsrc.
  rewrite (for_up_ext 0 n _ (fun i d => wr d (0 + i) (rd indet src i)))
    by (intros; reflexivity).
  rewrite blit_spec by lia. reflexivity.
Qed.

(** The buffer around slot [i]: the slots before it, the slot, the live
    slots after it and the rest. *)
Lemma split_at_index d (i used : Z) :
  0 <= i < used -> used <= Z.of_nat (length d) ->
  exists A x B R,
    d = A ++ x :: B ++ R /\
    length A = Z.to_nat i /\ length B = Z.to_nat (used - i - 1) /\
    take (Z.to_nat used) d = A ++ x :: B.
Proof.
  intros Hi Hused.
  destruct (lookup_lt_is_Some_2 d (Z.to_nat i)) as [x Hx]; [lia|].
  exists (take (Z.to_nat i) d), x,
    (take (Z.to_nat (used - i - 1)) (drop (S (Z.to_nat i)) d)),
    (drop (Z.to_nat (used - i - 1)) (drop (S (Z.to_nat i)) d)).
  assert (Hd : d = take (Z.to_nat i) d ++ x ::
                 take (Z.to_nat (used - i - 1)) (drop (S (Z.to_nat i)) d) ++
                 drop (Z.to_nat (used - i - 1)) (drop (S (Z.to_nat i)) d)).
  { rewrite take_drop. rewrite <- (drop_S d x (Z.to_nat i)) by assumption.
    rewrite take_drop. reflexivity. }
  split; [exact Hd|]. split; [rewrite length_take; lia|].
  split; [rewrite length_take, length_drop; lia|].
  rewrite Hd at 1.
  rewrite take_app_ge by (rewrite length_take; lia).
  rewrite length_take. replace (Z.to_nat i `min` length d)%nat with (Z.to_nat i) by lia.
  replace (Z.to_nat used - Z.to_nat i)%nat with (S (Z.to_nat (used - i - 1))) by lia.
  simpl. rewrite take_app_length'; [reflexivity|].
  rewrite length_take, length_drop. lia.
Qed.

(** The shifting loop of [Remove]. *)
Lemma shift_left_spec (B : list T) :
  forall (A R : list T) (x : T),
  exists g,
    for_up (Z.of_nat (length A)) (Z.of_nat (length A + 1 + length B))
      (fun i d => wr d i (rd indet d (i + 1))) (A ++ x :: B ++ R)
    = Some (A ++ B ++ g :: R).
Proof.
  induction B as [|y B IH]; intros A R x.
  - rewrite for_up_unroll by (simpl; lia). rewrite wr_at by reflexivity. simpl.
    rewrite for_up_empty by lia. eexists; reflexivity.
  - rewrite for_up_unroll by (simpl; lia).
    replace (rd indet (A ++ x :: (y :: B) ++ R) (Z.of_nat (length A) + 1)) with y.
    2:{ symmetry. apply (rd_app_cons _ (A ++ [x]) (B ++ R)).
        - rewrite <- app_assoc. reflexivity.
        - rewrite length_app. simpl. lia. }
    rewrite wr_at by reflexivity. simpl.
    destruct (IH (A ++ [y]) R y) as [g Hg]. exists g.
    rewrite <- !app_assoc in Hg. simpl in Hg. rewrite length_app in Hg. simpl in Hg.
    rewrite <- Hg. f_equal; lia.
Qed.

(** The shifting loop of the positional [Insert]. *)
Lemma shift_right_spec (B : list T) :
  forall (A R : list T) (g : T),
  exists h,
    for_down (Z.of_nat (length A + length B)) (Z.of_nat (length A))
      (fun i d => wr d i (rd indet d (i - 1))) (A ++ B ++ g :: R)
    = Some (A ++ h :: B ++ R).
Proof.
  induction B as [|y B IH] using rev_ind; intros A R g.
  - simpl. unfold for_down. replace (Z.to_nat _) with O by lia. simpl.
    eexists; reflexivity.
  - rewrite for_down_unroll by (rewrite length_app; simpl; lia).
    replace (A ++ (B ++ [y]) ++ g :: R) with ((A ++ B) ++ y :: g :: R)
      by (rewrite <- !app_assoc; reflexivity).
    replace (rd indet ((A ++ B) ++ y :: g :: R)
               (Z.of_nat (length A + length (B ++ [y])) - 1)) with y.
    2:{ symmetry. apply (rd_app_cons _ (A ++ B) (g :: R)); [reflexivity|].
        rewrite !length_app. simpl. lia. }
    replace ((A ++ B) ++ y :: g :: R) with ((A ++ B ++ [y]) ++ g :: R)
      by (rewrite <- !app_assoc; reflexivity).
    replace (Z.of_nat (length A + length (B ++ [y])))
      with (Z.of_nat (length (A ++ B ++ [y])))
      by (rewrite !length_app; simpl; lia).
    rewrite wr_at by reflexivity. simpl.
    destruct (IH A (y :: R) y) as [h Hh]. exists h.
    replace (Z.of_nat (length (A ++ B ++ [y])) - 1) with (Z.of_nat (length A + length B))
      by (rewrite !length_app; simpl; lia).
    replace ((A ++ B ++ [y]) ++ y :: R) with (A ++ B ++ y :: y :: R)
      by (rewrite <- !app_assoc; reflexivity).
    rewrite Hh. rewrite <- !app_assoc. reflexivity.
Qed.
End CopyFacts.

(** * Array: the other methods *)

Module ArrayOpsFacts.
Import Array ArrayFacts.

Section Facts.
Context {T : Type} `{Comparable T}.
Variable indet : T.
Implicit Types (a : Array T) (d : list T).

Lemma Array_Remove_spec a (a_index : Z) :
  0 <= a_index < m_used a -> m_used a <= Z.of_nat (length (m_data a)) ->
  exists a' r,
    Remove indet a_index a = Some (a', r) /\
    live a' = delete (Z.to_nat a_index) (live a) /\
    m_used a' = m_used a - 1 /\
    length (m_data a') = length (m_data a) /\
    m_capacity a' = m_capacity a /\
    m_sorted a' = m_sorted a /\
    (forall x, live a !! S (Z.to_nat a_index) = Some x -> r = x).
Proof.
  intros Hi Hused.
  destruct (split_at_index (m_data a) a_index (m_used a)) as (A & x & B & R & Hd & HA & HB & Hlive);
    [assumption | assumption |].
  unfold Remove, VERIFY. destruct (Z.ltb_spec a_index (m_used a)); [|lia]. simpl.
  destruct (shift_left_spec indet B A R x) as [g Hg].
  replace (Z.of_nat (length A)) with a_index in Hg by lia.
  replace (Z.of_nat (length A + 1 + length B)) with (m_used a) in Hg by lia.
  rewrite <- Hd in Hg. rewrite Hg. simpl.
  eexists _, _. split; [reflexivity|].
  unfold live. simpl. rewrite Hlive.
  split; [|split; [reflexivity|split; [|split; [reflexivity|split; [reflexivity|]]]]].
  - rewrite <- HA. rewrite delete_middle.
    rewrite app_assoc. rewrite take_app_length'; [reflexivity|].
    rewrite length_app. lia.
  - rewrite Hd. rewrite !length_app. simpl. rewrite !length_app. simpl. lia.
  - intros x' Hx'. rewrite <- HA in Hx'.
    rewrite (lookup_app_r A) in Hx' by lia.
    replace (S (length A) - length A)%nat with 1%nat in Hx' by lia. simpl in Hx'.
    destruct B as [|y B']; [discriminate|]. simpl in Hx'. injection Hx' as ->.
    apply (rd_at indet _ A (B' ++ g :: R)); [reflexivity | lia].
Qed.

(** X1: [Remove(a_index)] deletes the element at [a_index] and keeps
    the others in order; the reference it returns denotes the element
    that followed the removed one. *)
Theorem Remove_deletes a (a_index : Z) :
  0 <= a_index < m_used a -> m_used a <= Z.of_nat (length (m_data a)) ->
  exists a' r,
    Remove indet a_index a = Some (a', r) /\
    live a' = delete (Z.to_nat a_index) (live a) /\
    m_used a' = m_used a - 1 /\
    (forall x, live a !! S (Z.to_nat a_index) = Some x -> r = x).
Proof.
  intros Hi Hused.
  destruct (Array_Remove_spec a a_index Hi Hused) as (a' & r & Hrun & Hlive & Hu & _ & _ & _ & Hr).
  exists a', r. auto.
Qed.

(** [Find] on an array whose [m_sorted] flag tells the truth. *)
Lemma Find_present a e :
  0 <= m_used a <= Z.of_nat (length (m_data a)) ->
  sorted_flag_ok a -> e ∈ live a ->
  0 <= Find indet e a < m_used a /\
  live a !! Z.to_nat (Find indet e a) = Some e.
Proof.
  intros Hused Hflag Hin.
  apply elem_of_take in Hin as (i & Hi & Hlt).
  assert (Hrd : rd indet (m_data a) (Z.of_nat i) = e).
  { apply rd_lookup; [lia|]. rewrite Nat2Z.id. assumption. }
  unfold Find. destruct (Z.eqb_spec (m_used a) 0) as [Hzero|Hpos]; [lia|].
  destruct (m_sorted a) eqn:Hs.
  - destruct (binarySearch_present indet (m_data a) e 0 (m_used a - 1) (m_used a) (Z.of_nat i))
      as [Hr Hrd']; try lia; try assumption.
    { apply Hflag. assumption. }
    split; [lia|]. unfold live. rewrite (rd_take indet) by lia. congruence.
  - pose proof (frontBackSearch_sound indet (m_data a) e 0 (m_used a - 1)) as [Hnone|[Hr Hrd']].
    + exfalso.
      apply (frontBackSearch_complete indet (m_data a) e 0 (m_used a - 1) (Z.of_nat i));
        [lia | lia | assumption | assumption].
    + split; [lia|]. unfold live. rewrite (rd_take indet) by lia. congruence.
Qed.

Lemma Find_absent a e :
  0 <= m_used a <= Z.of_nat (length (m_data a)) ->
  m_sorted a = false -> e ∉ live a -> Find indet e a = -1.
Proof.
  intros Hused Hs Hnot. unfold Find.
  destruct (Z.eqb_spec (m_used a) 0) as [Hzero|Hpos]; [reflexivity|]. rewrite Hs.
  pose proof (frontBackSearch_sound indet (m_data a) e 0 (m_used a - 1)) as [Hnone|[Hr Hrd']];
    [assumption|].
  exfalso. apply Hnot. unfold live.
  apply (list_elem_of_lookup_2 _ (Z.to_nat (frontBackSearch indet (m_data a) e 0 (m_used a - 1)))).
  rewrite (rd_take indet) by lia. congruence.
Qed.

(** X2: [RemoveElement] removes one occurrence of a stored element and
    returns its index; on an unsorted array without the element it
    returns [-1] and changes nothing. *)
Theorem RemoveElement_result a e :
  0 <= m_used a <= Z.of_nat (length (m_data a)) ->
  sorted_flag_ok a ->
  (e ∈ live a ->
     exists a' idx,
       RemoveElement indet e a = Some (a', idx) /\
       0 <= idx < m_used a /\
       live a !! Z.to_nat idx = Some e /\
       live a' = delete (Z.to_nat idx) (live a) /\
       m_used a' = m_used a - 1) /\
  (e ∉ live a -> m_sorted a = false -> RemoveElement indet e a = Some (a, -1)).
Proof.
  intros Hused Hflag. split.
  - intros Hin. destruct (Find_present a e Hused Hflag Hin) as [Hr Hl].
    unfold RemoveElement.
    destruct (Z.ltb_spec (Find indet e a) 0) as [|_]; [lia|].
    destruct (Array_Remove_spec a (Find indet e a)) as (a' & r & -> & Hlive & Hu & _); [lia | lia |].
    simpl. exists a', (Find indet e a). repeat split; try assumption; lia.
  - intros Hnot Hs. unfold RemoveElement. rewrite (Find_absent a e Hused Hs Hnot). reflexivity.
Qed.

(** [GetNeighbors] sets the left out-pointer to the slot before the
    found element and the right out-pointer to the found element
    itself; for an element that an unsorted array does not hold both
    stay [nullptr]. *)
Lemma GetNeighbors_result a e :
  0 <= m_used a <= Z.of_nat (length (m_data a)) ->
  sorted_flag_ok a ->
  (e ∈ live a ->
     exists idx,
       0 <= idx < m_used a /\ live a !! Z.to_nat idx = Some e /\
       GetNeighbors indet e a
       = (if 0 <? idx then Some (idx - 1) else None, Some idx)) /\
  (e ∉ live a -> m_sorted a = false -> GetNeighbors indet e a = (None, None)).
Proof.
  intros Hused Hflag. split.
  - intros Hin. destruct (Find_present a e Hused Hflag Hin) as [Hr Hl].
    exists (Find indet e a). split; [assumption|]. split; [assumption|].
    unfold GetNeighbors.
    destruct (Z.eqb_spec (Find indet e a) (-1)); [lia|].
    destruct (Z.ltb_spec (Find indet e a) (m_used a)); [reflexivity | lia].
  - intros Hnot Hs. unfold GetNeighbors. rewrite (Find_absent a e Hused Hs Hnot). reflexivity.
Qed.

Lemma IsEqual_loop_spec (n : nat) :
  forall (i : Z) (d1 d2 : list T),
    0 <= i -> i + Z.of_nat n <= Z.of_nat (length d1) ->
    i + Z.of_nat n <= Z.of_nat (length d2) ->
    IsEqual_loop indet n i d1 d2 = true <->
    take n (drop (Z.to_nat i) d1) = take n (drop (Z.to_nat i) d2).
Proof.
  induction n as [|n IH]; intros i d1 d2 Hi H1 H2.
  - simpl. rewrite !take_0. tauto.
  - simpl.
    destruct (lookup_lt_is_Some_2 d1 (Z.to_nat i)) as [x Hx]; [lia|].
    destruct (lookup_lt_is_Some_2 d2 (Z.to_nat i)) as [y Hy]; [lia|].
    rewrite (rd_lookup indet d1 i x), (rd_lookup indet d2 i y) by (assumption || lia).
    rewrite (drop_S d1 x), (drop_S d2 y) by assumption. simpl.
    replace (S (Z.to_nat i)) with (Z.to_nat (i + 1)) by lia.
    destruct (op_eq x y) eqn:Heq; simpl.
    + apply op_eq_true in Heq. subst y. rewrite IH by lia.
      split; [intros ->; reflexivity | intros [= ?]; assumption].
    + apply op_eq_false in Heq. split; [discriminate | intros [= ? _]; contradiction].
Qed.

(** X3: [IsEqual] holds exactly when the two arrays hold the same
    elements in the same order, whatever their capacities and flags. *)
Theorem IsEqual_spec a b :
  0 <= m_used a <= Z.of_nat (length (m_data a)) ->
  0 <= m_used b <= Z.of_nat (length (m_data b)) ->
  IsEqual indet b a = true <-> live a = live b.
Proof.
  intros Ha Hb. unfold IsEqual.
  destruct (Z.eqb_spec (m_used a) (m_used b)) as [Heq|Hne]; simpl.
  - rewrite IsEqual_loop_spec by lia. simpl. rewrite !drop_0.
    unfold live. rewrite Heq. tauto.
  - split; [discriminate|]. intros Hlive. exfalso. apply Hne.
    apply (f_equal length) in Hlive. unfold live in Hlive.
    rewrite !length_take in Hlive. lia.
Qed.

Lemma copy_elements_spec a (n : Z) :
  0 <= m_used a <= Z.of_nat (length (m_data a)) -> m_used a <= n ->
  exists d,
    copy_elements indet a (alloc indet n) = Some d /\
    Z.of_nat (length d) = n /\
    take (Z.to_nat (m_used a)) d = live a.
Proof.
  intros Hused Hn. unfold copy_elements.
  destruct (for_up_inv
    (fun i d => Z.of_nat (length d) = n /\
                take (Z.to_nat i) d = take (Z.to_nat i) (m_data a))
    0 (m_used a) (fun i d => wr d i (rd indet (m_data a) i))
    (alloc indet n)) as (d & -> & Hlen & Htake).
  - lia.
  - rewrite length_alloc. split; [lia | reflexivity].
  - intros i d Hi [Hlen Htake]. rewrite wr_ok by lia.
    eexists; split; [reflexivity|]. rewrite length_insert. split; [assumption|].
    replace (Z.to_nat (i + 1)) with (S (Z.to_nat i)) by lia.
    rewrite (take_insert_snoc d) by lia.
    rewrite (take_S_r (m_data a) _ (rd indet (m_data a) i)) by (apply (rd_ok indet); lia).
    rewrite Htake. reflexivity.
  - eauto.
Qed.

Lemma copy_spec a :
  wf a ->
  exists c,
    copy indet a = Some c /\ live c = live a /\
    m_used c = m_used a /\ m_capacity c = m_used a * 2 /\
    Z.of_nat (length (m_data c)) = m_capacity a /\
    m_sorted c = m_sorted a /\ m_keep_sorted c = m_keep_sorted a /\
    m_growable c = m_growable a.
Proof.
  intros [[Hu0 Huc] Hul].
  destruct (copy_elements_spec a (m_capacity a)) as (d & Hd & Hlen & Htake); [lia | lia |].
  unfold copy. rewrite Hd. simpl. eexists; split; [reflexivity|].
  split; [exact Htake|]. simpl. repeat split; assumption.
Qed.

Lemma copy_keeps_elements a (a_capacity : Z) :
  wf a ->
  (exists c,
     copy indet a = Some c /\ live c = live a /\
     m_used c = m_used a /\ m_capacity c = m_used a * 2 /\
     Z.of_nat (length (m_data c)) = m_capacity a /\
     m_sorted c = m_sorted a /\ m_keep_sorted c = m_keep_sorted a /\
     m_growable c = m_growable a) /\
  (m_used a < a_capacity ->
   exists c,
     copy_with indet a a_capacity = Some c /\ live c = live a /\
     m_used c = m_used a /\ m_capacity c = a_capacity /\
     Z.of_nat (length (m_data c)) = a_capacity /\
     m_sorted c = m_sorted a /\ m_keep_sorted c = m_keep_sorted a /\
     m_growable c = m_growable a) /\
  (a_capacity <= m_used a -> copy_with indet a a_capacity = None).
Proof.
  intros Hwf. split; [exact (copy_spec a Hwf)|]. destruct Hwf as [[Hu0 Huc] Hul]. split.
  - intros Hcap.
    destruct (copy_elements_spec a a_capacity) as (d & Hd & Hlen & Htake); [lia | lia |].
    unfold copy_with, VERIFY. destruct (Z.ltb_spec (m_used a) a_capacity); [|lia]. simpl.
    rewrite Hd. simpl. eexists; split; [reflexivity|].
    split; [exact Htake|]. simpl. repeat split; assumption.
  - intros Hcap. unfold copy_with, VERIFY.
    destruct (Z.ltb_spec (m_used a) a_capacity); [lia | reflexivity].
Qed.

Lemma Insert_into_copy_fails a c x :
  wf a -> allocated a ->
  m_used a = 0 \/ m_used a = m_capacity a ->
  copy indet a = Some c ->
  Insert indet x c = None.
Proof.
  intros Hwf Hal Hedge Hcopy.
  destruct (copy_spec a Hwf) as (c' & Hc' & _ & Hu & Hcap & Hlen & _).
  rewrite Hcopy in Hc'. injection Hc' as <-.
  destruct Hwf as [[Hu0 Huc] Hul]. unfold Insert.
  destruct (Z.eq_dec (m_used a) 0) as [Hzero|Hpos].
  - unfold Resize, VERIFY. rewrite !Hcap, !Hu, !Hzero. simpl.
    destruct (m_growable c); simpl; rewrite ?Hcap, ?Hu, ?Hzero; reflexivity.
  - destruct Hedge as [?|Hfull]; [contradiction|].
    destruct (Z.leb_spec (m_capacity c) (m_used c)); [lia|]. rewrite andb_false_r. simpl.
    unfold VERIFY. destruct (Z.ltb_spec (m_used c) (m_capacity c)); [|lia]. simpl.
    rewrite wr_oob by lia. reflexivity.
Qed.

(** X4: both copy constructors give an array with the elements and the
    flags of the source.  The one-argument constructor sets [m_capacity]
    to twice the used size, while the buffer it allocates has the
    source's capacity: no [Insert] into the copy of an empty array or of
    a full array completes (capacity [0] fails the capacity check and
    cannot be doubled; the copy of a full array is written past its
    buffer).  The two-argument constructor needs a capacity above the
    used size. *)
Theorem copy_constructors a (a_capacity : Z) :
  wf a ->
  (exists c,
     copy indet a = Some c /\ live c = live a /\
     m_used c = m_used a /\ m_capacity c = m_used a * 2 /\
     Z.of_nat (length (m_data c)) = m_capacity a /\
     m_sorted c = m_sorted a /\ m_keep_sorted c = m_keep_sorted a /\
     m_growable c = m_growable a /\
     (allocated a -> m_used a = 0 \/ m_used a = m_capacity a ->
      forall x, Insert indet x c = None)) /\
  (m_used a < a_capacity ->
   exists c,
     copy_with indet a a_capacity = Some c /\ live c = live a /\
     m_used c = m_used a /\ m_capacity c = a_capacity /\
     Z.of_nat (length (m_data c)) = a_capacity /\
     m_sorted c = m_sorted a /\ m_keep_sorted c = m_keep_sorted a /\
     m_growable c = m_growable a) /\
  (a_capacity <= m_used a -> copy_with indet a a_capacity = None).
Proof.
  intros Hwf. split; [|apply (copy_keeps_elements a a_capacity Hwf)].
  destruct (copy_spec a Hwf) as (c & Hc & Hl & Hu & Hcap & Hlen & Hs & Hk & Hg).
  exists c. repeat (split; [assumption|]).
  intros Hal Hedge x. apply (Insert_into_copy_fails a c x); assumption.
Qed.

Lemma InsertAt_inserts a x (a_index : Z) :
  m_keep_sorted a = false ->
  0 <= a_index <= m_used a -> m_used a < m_capacity a ->
  m_capacity a <= Z.of_nat (length (m_data a)) ->
  exists a',
    InsertAt indet x a_index a = Some a' /\
    live a' = take (Z.to_nat a_index) (live a) ++ x :: drop (Z.to_nat a_index) (live a) /\
    m_used a' = m_used a + 1 /\
    m_sorted a' = false.
Proof.
  intros Hks Hi Hroom Hlen. unfold InsertAt, VERIFY.
  destruct (Z.leb_spec a_index (m_used a)); [|lia]. simpl.
  destruct (Z.leb_spec (m_capacity a) a_index); [lia|]. simpl.
  destruct (Z.ltb_spec a_index (m_capacity a)); [|lia]. simpl.
  set (A := take (Z.to_nat a_index) (m_data a)).
  set (B := take (Z.to_nat (m_used a - a_index)) (drop (Z.to_nat a_index) (m_data a))).
  destruct (lookup_lt_is_Some_2 (m_data a) (Z.to_nat (m_used a))) as [g Hg]; [lia|].
  set (R := drop (S (Z.to_nat (m_used a))) (m_data a)).
  assert (HA : length A = Z.to_nat a_index) by (unfold A; rewrite length_take; lia).
  assert (HB : length B = Z.to_nat (m_used a - a_index))
    by (unfold B; rewrite length_take, length_drop; lia).
  assert (Hlive : live a = A ++ B).
  { unfold live, A, B.
    rewrite <- (take_drop (Z.to_nat a_index) (take (Z.to_nat (m_used a)) (m_data a))).
    rewrite take_take. replace (Z.to_nat a_index `min` Z.to_nat (m_used a))%nat
      with (Z.to_nat a_index) by lia.
    f_equal. rewrite take_drop_commute. do 2 f_equal. lia. }
  assert (Hd : m_data a = A ++ B ++ g :: R).
  { rewrite app_assoc, <- Hlive. unfold live, R.
    rewrite <- (drop_S _ g _ Hg). rewrite take_drop. reflexivity. }
  destruct (shift_right_spec indet B A R g) as [h Hh].
  replace (Z.of_nat (length A + length B)) with (m_used a) in Hh by lia.
  replace (Z.of_nat (length A)) with a_index in Hh by lia.
  rewrite <- Hd in Hh. rewrite Hh. simpl.
  assert (Hw : wr (A ++ h :: B ++ R) a_index x = Some (A ++ x :: B ++ R)).
  { replace a_index with (Z.of_nat (length A)) by lia. apply wr_middle. }
  rewrite Hw. simpl. rewrite Hks.
  eexists; split; [reflexivity|]. unfold live at 1. simpl.
  split; [|split; reflexivity].
  rewrite Hlive. rewrite <- HA.
  rewrite take_app_length, drop_app_length.
  replace (A ++ x :: B ++ R) with ((A ++ x :: B) ++ R) by (rewrite <- app_assoc; reflexivity).
  apply take_app_length'. rewrite length_app. simpl. lia.
Qed.

Lemma InsertAt_full_overflows a x (a_index : Z) :
  m_used a = m_capacity a -> m_capacity a = Z.of_nat (length (m_data a)) ->
  0 <= a_index < m_used a ->
  InsertAt indet x a_index a = None.
Proof.
  intros Hfull Hal Hi. unfold InsertAt, VERIFY.
  destruct (Z.leb_spec a_index (m_used a)); [|lia]. simpl.
  destruct (Z.leb_spec (m_capacity a) a_index); [lia|]. simpl.
  destruct (Z.ltb_spec a_index (m_capacity a)); [|lia]. simpl.
  rewrite for_down_unroll by lia. rewrite wr_oob by lia. reflexivity.
Qed.

(** X5: on an array that is not kept sorted and has room, the
    positional [Insert] places the element at [a_index] and moves the
    elements from there on one slot up.  On a full array, at an index
    below the used size, it writes past the buffer, also when the array
    is growable: the growth test looks at the index, not at the used
    size. *)
Theorem positional_Insert a x (a_index : Z) :
  (m_keep_sorted a = false ->
   0 <= a_index <= m_used a -> m_used a < m_capacity a ->
   m_capacity a <= Z.of_nat (length (m_data a)) ->
   exists a',
     InsertAt indet x a_index a = Some a' /\
     live a' = take (Z.to_nat a_index) (live a) ++ x :: drop (Z.to_nat a_index) (live a) /\
     m_used a' = m_used a + 1 /\
     m_sorted a' = false) /\
  (m_used a = m_capacity a -> m_capacity a = Z.of_nat (length (m_data a)) ->
   0 <= a_index < m_used a ->
   InsertAt indet x a_index a = None).
Proof.
  split; [apply InsertAt_inserts | apply InsertAt_full_overflows].
Qed.

(** X6: [MERGE_SORT] on an array of at most one element replaces the
    buffer by one of a single slot and leaves [m_capacity] as it was; with
    one element stored, the next [Insert] passes the capacity check and
    writes past that slot. *)
Theorem mergeSort_leaves_one_slot a :
  0 <= m_used a <= 1 -> m_used a <= Z.of_nat (length (m_data a)) ->
  exists a',
    Sort indet algorithms.MERGE_SORT a = Some a' /\
    length (m_data a') = 1%nat /\
    m_capacity a' = m_capacity a /\ m_used a' = m_used a /\
    live a' = live a /\
    (m_used a = 1 -> 1 < m_capacity a -> forall x, Insert indet x a' = None).
Proof.
  intros Hone Hlen. simpl. unfold mergeSort.
  assert (Hrec : mergeSort_rec indet (m_data a) (m_capacity a) (m_used a)
                 = Some [rd indet (m_data a) 0]).
  { simp mergeSort_rec. destruct (Z_le_dec (m_used a) 1); [|lia]. reflexivity. }
  rewrite Hrec. simpl. eexists; split; [reflexivity|]. simpl.
  split; [reflexivity|]. split; [reflexivity|]. split; [reflexivity|]. split.
  - unfold live. simpl. destruct (Z.eq_dec (m_used a) 1) as [Hu|Hu].
    + rewrite Hu. destruct (m_data a) as [|y d]; [simpl in Hlen; lia|]. reflexivity.
    + replace (m_used a) with 0 by lia. reflexivity.
  - intros Hu Hcap x. unfold Insert. simpl.
    destruct (Z.leb_spec (m_capacity a) (m_used a)); [lia|]. rewrite andb_false_r. simpl.
    unfold VERIFY. destruct (Z.ltb_spec (m_used a) (m_capacity a)); [|lia]. simpl.
    rewrite wr_oob by (simpl; lia). reflexivity.
Qed.

(** ** What the mutators keep *)

Lemma ascending_delete (l : list T) (i : nat) : ascending l -> ascending (delete i l).
Proof.
  unfold ascending. revert i. induction l as [|y l IH]; intros i Hs; [destruct i; exact Hs|].
  apply StronglySorted_cons in Hs as [Hall Hs]. destruct i as [|i]; simpl; [exact Hs|].
  apply StronglySorted_cons. split; [apply Forall_delete; exact Hall | apply IH; exact Hs].
Qed.

Lemma Swap_fields p q a a' :
  Swap indet p q a = Some a' ->
  m_capacity a' = m_capacity a /\ m_used a' = m_used a /\
  length (m_data a') = length (m_data a) /\ m_sorted a' = false.
Proof.
  unfold Swap. intros Hrun. inv_verify Hrun. inv_verify Hrun.
  inv_bind Hrun as d Hd. inv_bind Hrun as d' Hd'. injection Hrun as <-.
  apply wr_inv in Hd as [_ ->]. apply wr_inv in Hd' as [_ ->]. simpl.
  rewrite !length_insert. auto.
Qed.

Lemma partition_capacity a_from a_to a a' k :
  partition indet a_from a_to a = Some (a', k) -> m_capacity a' = m_capacity a.
Proof.
  unfold partition. intros Hrun. inv_bind Hrun as st Hst. destruct st as [a1 i].
  inv_bind Hrun as a2 Ha2. injection Hrun as <- _.
  apply Swap_fields in Ha2 as [-> _].
  apply (for_up_partial (fun _ st => m_capacity (fst st) = m_capacity a)) in Hst;
    [exact Hst | reflexivity |].
  intros j [a0 i0] [a1' i1] _ Hcap Hbody. simpl in *.
  destruct (op_le _ _); [|injection Hbody as <- _; assumption].
  inv_bind Hbody as a'' Ha''. injection Hbody as <- _.
  apply Swap_fields in Ha'' as [-> _]. assumption.
Qed.

Lemma quickSort_capacity (fuel : nat) :
  forall a_from a_to a a',
    quickSort indet fuel a_from a_to a = Some a' -> m_capacity a' = m_capacity a.
Proof.
  induction fuel as [|fuel IH]; intros a_from a_to a a' Hrun; simpl in Hrun.
  - destruct (m_used a =? 0); [injection Hrun as <-; reflexivity|].
    destruct (a_to <=? a_from); [injection Hrun as <-; reflexivity | discriminate].
  - destruct (m_used a =? 0); [injection Hrun as <-; reflexivity|].
    destruct (a_to <=? a_from); [injection Hrun as <-; reflexivity|].
    inv_bind Hrun as st Hst. destruct st as [a1 k].
    inv_bind Hrun as a2 Ha2.
    apply IH in Hrun. apply IH in Ha2. apply partition_capacity in Hst. congruence.
Qed.

Lemma mergeSort_rec_length a_array a_capacity a_used result :
  mergeSort_rec indet a_array a_capacity a_used = Some result ->
  length result = if Z_le_dec a_used 1 then 1%nat else Z.to_nat a_capacity.
Proof.
  funelim (mergeSort_rec indet a_array a_capacity a_used); intros Hrun.
  - destruct (Z_le_dec a_used 1); [|lia]. injection Hrun as <-. reflexivity.
  - discriminate.
  - destruct (Z_le_dec a_used 1); [lia|].
    inv_bind Hrun as st Hst. destruct st as [[r j] k]. injection Hrun as <-.
    apply (for_up_partial (fun _ st => length (fst (fst st)) = Z.to_nat a_capacity)) in Hst;
      [exact Hst | apply length_alloc |].
    intros i [[r0 j0] k0] [[r1 j1] k1] _ Hlen Hbody. simpl in *.
    unfold merge_body in Hbody.
    destruct (_ && _); inv_bind Hbody as r' Hr'; injection Hbody as <- _ _;
      apply wr_inv in Hr' as [_ ->]; rewrite length_insert; assumption.
  - discriminate.
Qed.

Lemma Sort_keeps a (alg : algorithms.Sort) :
  wf a -> Z.of_nat (length (m_data a)) <= Z.max (m_capacity a) 1 ->
  exists a',
    Sort indet alg a = Some a' /\
    ascending (live a') /\ live a' ≡ₚ live a /\
    m_used a' = m_used a /\ m_capacity a' = m_capacity a /\
    m_used a' <= Z.of_nat (length (m_data a')) /\
    Z.of_nat (length (m_data a')) <= Z.max (m_capacity a') 1.
Proof.
  intros Hwf Hmax. pose proof Hwf as [[Hu0 Huc] Hul].
  assert (Hins : exists a',
    insertionSort indet a = Some a' /\
    ascending (live a') /\ live a' ≡ₚ live a /\
    m_used a' = m_used a /\ m_capacity a' = m_capacity a /\
    m_used a' <= Z.of_nat (length (m_data a')) /\
    Z.of_nat (length (m_data a')) <= Z.max (m_capacity a') 1).
  { destruct (insertionSort_spec indet a) as (a' & Hrun & Hasc & Hperm & Hu & Hc & Hl & _); [lia|].
    exists a'. rewrite Hu, Hc, Hl. repeat split; assumption. }
  assert (Hmerge : exists a',
    mergeSort indet a = Some a' /\
    ascending (live a') /\ live a' ≡ₚ live a /\
    m_used a' = m_used a /\ m_capacity a' = m_capacity a /\
    m_used a' <= Z.of_nat (length (m_data a')) /\
    Z.of_nat (length (m_data a')) <= Z.max (m_capacity a') 1).
  { unfold mergeSort.
    destruct (mergeSort_rec_spec indet (m_data a) (m_capacity a) (m_used a))
      as (temp & Hrun & Hlen & Hasc & Hperm); [lia | lia |].
    pose proof (mergeSort_rec_length _ _ _ _ Hrun) as Hl.
    rewrite Hrun. simpl. eexists; split; [reflexivity|]. unfold live. simpl.
    repeat split; try assumption.
    rewrite Hl. destruct (Z_le_dec (m_used a) 1); lia. }
  destruct alg; simpl.
  - unfold dynamicSort. destruct (64 <? m_used a); assumption.
  - assumption.
  - destruct (Z.eq_dec (m_used a) 0) as [Hzero|Hpos].
    + exists a. rewrite Hzero. simpl. rewrite Hzero. simpl.
      split; [reflexivity|]. unfold live. rewrite Hzero. simpl.
      repeat split; try lia; constructor.
    + assert (Hlen : length (live a) = Z.to_nat (m_used a)).
      { unfold live. rewrite length_take. lia. }
      destruct (quickSort_spec indet (Z.to_nat (m_used a)) a [] (live a)
                  (drop (Z.to_nat (m_used a)) (m_data a)) 0 (m_used a - 1))
        as (a' & M' & Hq & Hd & Hasc & Hperm & Hu); simpl; try lia.
      { unfold live. rewrite take_drop. reflexivity. }
      exists a'. split; [assumption|].
      assert (Hlive : live a' = M').
      { unfold live. rewrite Hd, Hu. simpl. apply take_app_length'.
        rewrite (Permutation_length Hperm). lia. }
      assert (Hl : length (m_data a') = length (m_data a)).
      { rewrite Hd. simpl. rewrite length_app, (Permutation_length Hperm), Hlen, length_drop. lia. }
      rewrite Hlive, Hu, Hl, (quickSort_capacity _ _ _ _ _ Hq). repeat split; assumption.
  - assumption.
Qed.

Lemma grown_invariant (cond : bool) (a_capacity : Z) a a1 :
  invariant a ->
  (if cond then Resize indet a_capacity a else Some a) = Some a1 ->
  invariant a1 /\ live a1 = live a /\ m_used a1 = m_used a /\
  m_sorted a1 = m_sorted a /\ m_keep_sorted a1 = m_keep_sorted a.
Proof.
  intros Hinv Hrun. destruct cond; [|injection Hrun as <-; auto].
  destruct Hinv as (Hwf & Hmax & Hflag). pose proof Hwf as [[Hu0 Huc] Hul].
  pose proof Hrun as Hrun'. unfold Resize in Hrun'.
  inv_verify Hrun'. inv_verify Hrun'. clear Hrun'.
  destruct (Resize_copies indet a_capacity a Hwf) as (temp & Hr & Hlen & Htake); [lia|].
  rewrite Hrun in Hr. injection Hr as ->.
  assert (Hlive : live (set_data (set_capacity a a_capacity) temp) = live a) by exact Htake.
  split; [|auto]. split; [|split].
  - unfold wf. simpl. lia.
  - simpl. lia.
  - unfold sorted_flag_ok. rewrite Hlive. exact Hflag.
Qed.

Lemma finish_invariant a2 a3 :
  wf a2 -> Z.of_nat (length (m_data a2)) <= Z.max (m_capacity a2) 1 ->
  (if m_keep_sorted a2 then insertionSort indet a2 else Some (set_sorted a2 false)) = Some a3 ->
  invariant a3.
Proof.
  intros Hwf Hmax Hrun. pose proof Hwf as [[Hu0 Huc] Hul].
  destruct (m_keep_sorted a2).
  - destruct (insertionSort_spec indet a2) as (a' & Hr & Hasc & _ & Hu & Hc & Hl & _); [lia|].
    rewrite Hrun in Hr. injection Hr as ->.
    split; [|split].
    + unfold wf. rewrite Hu, Hc, Hl. assumption.
    + rewrite Hc, Hl. assumption.
    + intros _. assumption.
  - injection Hrun as <-. split; [|split]; [assumption | assumption | discriminate].
Qed.

Lemma Insert_invariant x a a' r :
  invariant a -> Insert indet x a = Some (a', r) -> invariant a'.
Proof.
  intros Hinv Hrun. unfold Insert in Hrun.
  inv_bind Hrun as a1 Ha1.
  apply (grown_invariant _ _ _ _ Hinv) in Ha1 as [(Hwf1 & Hmax1 & _) _].
  inv_verify Hrun. inv_bind Hrun as d Hd. inv_bind Hrun as a3 Ha3. injection Hrun as <- _.
  apply wr_inv in Hd as [Hi ->]. destruct Hwf1 as [[Hu0 Huc] Hul].
  apply finish_invariant in Ha3; [assumption | |].
  - unfold wf. simpl. rewrite length_insert. lia.
  - simpl. rewrite length_insert. assumption.
Qed.

Lemma InsertAt_invariant x (i : Z) a a' :
  0 <= i -> invariant a -> InsertAt indet x i a = Some a' -> invariant a'.
Proof.
  intros Hi Hinv Hrun. unfold InsertAt in Hrun.
  inv_verify Hrun. inv_bind Hrun as a1 Ha1.
  apply (grown_invariant _ _ _ _ Hinv) in Ha1 as [([[Hu0 Huc] Hul] & Hmax1 & _) (_ & Hu1 & _)].
  inv_verify Hrun. inv_bind Hrun as d Hd. inv_bind Hrun as d' Hd'.
  apply wr_inv in Hd' as [Hid ->].
  assert (Hlen : length d = length (m_data a1) /\
                 (i < m_used a1 -> m_used a1 < Z.of_nat (length (m_data a1)))).
  { split.
    - apply (for_down_partial (fun _ d0 => length d0 = length (m_data a1))) in Hd;
        [exact Hd | reflexivity |].
      intros k d0 d1 _ Hl Hb. apply wr_inv in Hb as [_ ->]. rewrite length_insert. assumption.
    - intros Hlt. rewrite for_down_unroll in Hd by lia.
      inv_bind Hd as d0 Hd0. apply wr_inv in Hd0 as [? _]. lia. }
  destruct Hlen as [Hlen Hroom].
  apply finish_invariant in Hrun; [assumption | |].
  - unfold wf. simpl. rewrite length_insert, Hlen.
    destruct (Z.eq_dec i (m_used a1)); lia.
  - simpl. rewrite length_insert, Hlen. assumption.
Qed.

Lemma Remove_invariant (i : Z) a a' r :
  0 <= i -> invariant a -> Remove indet i a = Some (a', r) -> invariant a'.
Proof.
  intros Hi (Hwf & Hmax & Hflag) Hrun. pose proof Hwf as [[Hu0 Huc] Hul].
  pose proof Hrun as Hrun'. unfold Remove in Hrun'. inv_verify Hrun'. clear Hrun'.
  destruct (Array_Remove_spec a i) as (a1 & r1 & Hr & Hlive & Hu & Hl & Hc & Hs & _); [lia | lia |].
  rewrite Hrun in Hr. injection Hr as <- <-.
  split; [|split].
  - unfold wf. rewrite Hu, Hc, Hl. lia.
  - rewrite Hc, Hl. assumption.
  - unfold sorted_flag_ok. rewrite Hs, Hlive. intros Hs'.
    apply ascending_delete. apply Hflag. assumption.
Qed.

Lemma run_op_invariant (o : op T) a a' :
  size_args o -> invariant a -> run_op indet o a = Some a' -> invariant a'.
Proof.
  intros Hargs Hinv Hrun. destruct o as [x|x i|i|x|i j| |c|c|alg]; simpl in Hargs, Hrun.
  - inv_bind Hrun as r Hr. destruct r as [a1 k]. injection Hrun as <-.
    exact (Insert_invariant _ _ _ _ Hinv Hr).
  - exact (InsertAt_invariant _ _ _ _ Hargs Hinv Hrun).
  - inv_bind Hrun as r Hr. destruct r as [a1 k]. injection Hrun as <-.
    exact (Remove_invariant _ _ _ _ Hargs Hinv Hr).
  - inv_bind Hrun as r Hr. destruct r as [a1 k]. injection Hrun as <-.
    unfold RemoveElement in Hr.
    destruct (Find indet x a <? 0) eqn:Hneg; [injection Hr as <- _; assumption|].
    inv_bind Hr as r' Hr'. destruct r' as [a2 y]. injection Hr as <- _.
    apply Z.ltb_ge in Hneg. exact (Remove_invariant _ _ _ _ Hneg Hinv Hr').
  - destruct Hinv as ([[Hu0 Huc] Hul] & Hmax & _).
    apply Swap_fields in Hrun as (Hc & Hu & Hl & Hs).
    split; [|split].
    + unfold wf. rewrite Hu, Hc, Hl. lia.
    + rewrite Hc, Hl. assumption.
    + unfold sorted_flag_ok. rewrite Hs. discriminate.
  - injection Hrun as <-. destruct Hinv as ([[Hu0 Huc] Hul] & Hmax & _).
    split; [|split].
    + unfold wf, Clear. simpl. rewrite length_alloc. lia.
    + unfold Clear. simpl. rewrite length_alloc. lia.
    + intros _. unfold live, Clear. simpl. constructor.
  - injection Hrun as <-.
    split; [|split].
    + unfold wf, ClearTo. simpl. rewrite length_alloc. lia.
    + unfold ClearTo. simpl. rewrite length_alloc. lia.
    + intros _. unfold live, ClearTo. simpl. constructor.
  - apply (grown_invariant true c a a' Hinv Hrun).
  - destruct Hinv as (Hwf & Hmax & _).
    destruct (Sort_keeps a alg Hwf Hmax) as (a1 & Hr & Hasc & _ & Hu & Hc & Hl & Hm).
    rewrite Hrun in Hr. injection Hr as <-.
    destruct Hwf as [[Hu0 Huc] Hul].
    split; [|split].
    + unfold wf. rewrite Hu, Hc in *. lia.
    + assumption.
    + intros _. assumption.
Qed.

Lemma run_invariant (ops : list (op T)) :
  forall a a',
    Forall size_args ops -> invariant a -> run indet ops a = Some a' -> invariant a'.
Proof.
  unfold run. induction ops as [|o ops IH]; intros a a' Hargs Hinv Hrun; simpl in Hrun.
  - injection Hrun as <-. assumption.
  - apply Forall_cons in Hargs as [Ho Hargs].
    destruct (run_op indet o a) as [a1|] eqn:Hstep; simpl in Hrun.
    + apply (IH a1 a' Hargs); [|assumption].
      exact (run_op_invariant _ _ _ Ho Hinv Hstep).
    + exfalso. clear -Hrun. induction ops as [|o' ops' IH']; simpl in Hrun; [discriminate | auto].
Qed.

Lemma new_invariant (a_capacity : Z) (a_keep_sorted a_growable : bool) a0 :
  new indet a_capacity a_keep_sorted a_growable = Some a0 -> invariant a0.
Proof.
  unfold new. intros Hrun. inv_verify Hrun. injection Hrun as <-.
  apply Z.ltb_lt in Hv.
  split; [|split].
  - unfold wf. simpl. rewrite length_alloc. lia.
  - simpl. rewrite length_alloc. lia.
  - intros _. unfold live. simpl. constructor.
Qed.

(** X7: for an element type whose comparisons are those of one total
    order, with [==] equality: after any sequence of completed mutator
    calls on a new array ([Insert], positional [Insert], [Remove],
    [RemoveElement], [Swap], the two [Clear]s, [Resize], [Sort]),
    [m_sorted] tells the truth (when it is set, the elements ascend), and
    [Find] returns the index of an occurrence of every element the array
    holds, by binary search or by the front-back search. *)
Theorem flag_and_Find_after_run (a_capacity : Z) (a_keep_sorted a_growable : bool)
    (ops : list (op T)) a0 a :
  new indet a_capacity a_keep_sorted a_growable = Some a0 ->
  Forall size_args ops ->
  run indet ops a0 = Some a ->
  (m_sorted a = true -> ascending (live a)) /\
  (forall e, e ∈ live a ->
     0 <= Find indet e a < m_used a /\
     live a !! Z.to_nat (Find indet e a) = Some e).
Proof.
  intros Hnew Hargs Hrun.
  destruct (run_invariant ops a0 a Hargs (new_invariant _ _ _ _ Hnew) Hrun)
    as ([[Hu0 Huc] Hul] & _ & Hflag).
  split; [exact Hflag|].
  intros e Hin. apply Find_present; [lia | assumption | assumption].
Qed.

End Facts.

Lemma Remove_deletes_witness :
  exists a' r,
    Remove 0 1 three_of_five = Some (a', r) /\
    live a' = delete (Z.to_nat 1) (live three_of_five) /\
    m_used a' = m_used three_of_five - 1 /\
    (forall x, live three_of_five !! S (Z.to_nat 1) = Some x -> r = x).
Proof. apply (Remove_deletes 0 three_of_five 1); simpl; lia. Defined.

Lemma RemoveElement_result_witness :
  (exists a' idx,
     RemoveElement 0 16 three_of_five = Some (a', idx) /\
     0 <= idx < m_used three_of_five /\
     live three_of_five !! Z.to_nat idx = Some 16 /\
     live a' = delete (Z.to_nat idx) (live three_of_five) /\
     m_used a' = m_used three_of_five - 1) /\
  RemoveElement 0 7 three_of_five = Some (three_of_five, -1).
Proof.
  assert (Hflag : sorted_flag_ok three_of_five) by (intros Hs; discriminate Hs).
  split.
  - apply (RemoveElement_result 0 three_of_five 16); [simpl; lia | exact Hflag |].
    apply (list_elem_of_lookup_2 _ 1%nat). reflexivity.
  - apply (RemoveElement_result 0 three_of_five 7); [simpl; lia | exact Hflag | | reflexivity].
    intros Hin. apply list_elem_of_lookup_1 in Hin as [[|[|[|i]]] Hi]; discriminate Hi.
Defined.

Lemma IsEqual_spec_witness :
  IsEqual 0 full_three three_of_five = true <-> live three_of_five = live full_three.
Proof. apply (IsEqual_spec 0 three_of_five full_three); simpl; lia. Defined.

Lemma copy_constructors_witness :
  (exists c,
     copy 0 full_three = Some c /\ live c = live full_three /\
     m_used c = m_used full_three /\ m_capacity c = m_used full_three * 2 /\
     Z.of_nat (length (m_data c)) = m_capacity full_three /\
     m_sorted c = m_sorted full_three /\ m_keep_sorted c = m_keep_sorted full_three /\
     m_growable c = m_growable full_three /\
     (allocated full_three ->
      m_used full_three = 0 \/ m_used full_three = m_capacity full_three ->
      forall x, Insert 0 x c = None)) /\
  (m_used full_three < 4 ->
   exists c,
     copy_with 0 full_three 4 = Some c /\ live c = live full_three /\
     m_used c = m_used full_three /\ m_capacity c = 4 /\
     Z.of_nat (length (m_data c)) = 4 /\
     m_sorted c = m_sorted full_three /\ m_keep_sorted c = m_keep_sorted full_three /\
     m_growable c = m_growable full_three) /\
  (4 <= m_used full_three -> copy_with 0 full_three 4 = None).
Proof. apply (copy_constructors 0 full_three 4). unfold wf. simpl. lia. Defined.

Lemma positional_Insert_witness :
  (exists a',
     InsertAt 0 7 1 three_of_five = Some a' /\
     live a' = take (Z.to_nat 1) (live three_of_five)
               ++ 7 :: drop (Z.to_nat 1) (live three_of_five) /\
     m_used a' = m_used three_of_five + 1 /\
     m_sorted a' = false) /\
  InsertAt 0 7 1 full_three = None.
Proof.
  split.
  - apply (positional_Insert 0 three_of_five 7 1); [reflexivity | simpl; lia ..].
  - apply (positional_Insert 0 full_three 7 1); simpl; lia.
Defined.

Lemma mergeSort_leaves_one_slot_witness :
  exists a',
    Sort 0 algorithms.MERGE_SORT sorted_five = Some a' /\
    length (m_data a') = 1%nat /\
    m_capacity a' = m_capacity sorted_five /\ m_used a' = m_used sorted_five /\
    live a' = live sorted_five /\
    (m_used sorted_five = 1 -> 1 < m_capacity sorted_five ->
     forall x, Insert 0 x a' = None).
Proof. apply (mergeSort_leaves_one_slot 0 sorted_five); simpl; lia. Defined.

(** [Array a(4, false, true); a.Insert(5); a.Insert(3); a.Insert(4, 1);
    a.Remove(0); a.Sort(QUICK_SORT)] leaves [{3, 4}]. *)
Lemma flag_and_Find_after_run_witness :
  (m_sorted (mkArray [3; 4; 0; 0] 2 4 true false true) = true ->
   ascending (live (mkArray [3; 4; 0; 0] 2 4 true false true))) /\
  (forall e, e ∈ live (mkArray [3; 4; 0; 0] 2 4 true false true) ->
     0 <= Find 0 e (mkArray [3; 4; 0; 0] 2 4 true false true)
       < m_used (mkArray [3; 4; 0; 0] 2 4 true false true) /\
     live (mkArray [3; 4; 0; 0] 2 4 true false true)
       !! Z.to_nat (Find 0 e (mkArray [3; 4; 0; 0] 2 4 true false true)) = Some e).
Proof.
  apply (flag_and_Find_after_run 0 4 false true
           [OpInsert 5; OpInsert 3; OpInsertAt 4 1; OpRemove 0; OpSort algorithms.QUICK_SORT]
           (mkArray [0; 0; 0; 0] 0 4 true false true)).
  - reflexivity.
  - repeat constructor; simpl; lia.
  - reflexivity.
Defined.

End ArrayOpsFacts.

(** * String: the other methods *)

Module StringOpsFacts.
Import NtlString StringFacts.

Section Facts.
Variable indet : ascii.
Implicit Types (s : String) (c : ascii).

Lemma Resize_content (a_capacity : Z) s :
  0 <= m_used s <= Z.of_nat (length (m_data s)) ->
  m_used s + 1 <= a_capacity -> m_capacity s < a_capacity ->
  exists d,
    Resize indet a_capacity s = Some (mkString a_capacity (m_used s) d) /\
    Z.of_nat (length d) = a_capacity /\
    take (Z.to_nat (m_used s)) d = content s /\
    d !! Z.to_nat (m_used s) = Some zero.
Proof.
  intros Hused Hroom Hcap. unfold Resize, VERIFY.
  destruct (Z.leb_spec (m_used s + 1) a_capacity); [|lia].
  destruct (Z.ltb_spec (m_capacity s) a_capacity); [|lia]. simpl.
  rewrite (copy_prefix_spec indet) by (rewrite ?length_alloc; lia). simpl.
  assert (Hlen : length (take (Z.to_nat (m_used s)) (m_data s)
                         ++ drop (Z.to_nat (m_used s)) (alloc indet a_capacity))
                 = Z.to_nat a_capacity).
  { rewrite length_app, length_take, length_drop, length_alloc. lia. }
  rewrite wr_ok by lia. simpl. eexists; split; [reflexivity|].
  rewrite length_insert, Hlen. split; [lia|]. split.
  - rewrite take_insert_ge by lia. unfold content. apply take_app_length'.
    rewrite length_take. lia.
  - apply list_lookup_insert_eq. lia.
Qed.

Lemma Append_spec (a_other s : String) :
  fits s -> 0 <= m_used a_other <= Z.of_nat (length (m_data a_other)) ->
  0 < m_used s + m_used a_other \/ m_used s + m_used a_other < m_capacity s ->
  exists s',
    Append indet a_other s = Some s' /\
    content s' = content s ++ content a_other /\
    m_used s' = m_used s + m_used a_other /\
    m_data s' !! Z.to_nat (m_used s') = Some zero /\
    fits s' /\ 0 < m_capacity s'.
Proof.
  intros [Hused Hcap] Hother Hroom. unfold Append.
  assert (exists s1,
    (if m_capacity s <=? m_used s + m_used a_other
     then Resize indet ((m_used s + m_used a_other) * 2) s else Some s) = Some s1 /\
    m_used s1 = m_used s /\
    m_used s + m_used a_other < m_capacity s1 /\
    m_capacity s1 <= Z.of_nat (length (m_data s1)) /\
    take (Z.to_nat (m_used s)) (m_data s1) = content s)
    as (s1 & -> & Hu1 & Hroom1 & Hcap1 & Hcontent).
  { destruct (Z.leb_spec (m_capacity s) (m_used s + m_used a_other)).
    - destruct (Resize_content ((m_used s + m_used a_other) * 2) s)
        as (d & -> & Hlen & Htake & _); try lia.
      eexists; split; [reflexivity|]. simpl. repeat split; try lia. assumption.
    - exists s. repeat split; try lia. }
  simpl. rewrite Hu1.
  rewrite (blit_spec indet) by lia. simpl.
  set (total := m_used s + m_used a_other).
  assert (Hlen : length (take (Z.to_nat (m_used s)) (m_data s1)
                         ++ take (Z.to_nat (m_used a_other)) (m_data a_other)
                         ++ drop (Z.to_nat total) (m_data s1))
                 = length (m_data s1)).
  { rewrite !length_app, !length_take, length_drop. unfold total. lia. }
  rewrite wr_ok by (rewrite Hlen; unfold total; lia). simpl.
  eexists; split; [reflexivity|]. unfold content at 1. simpl.
  split; [|split; [reflexivity|split; [|split]]].
  - rewrite take_insert_ge by lia. rewrite Hcontent, app_assoc.
    apply take_app_length'. rewrite length_app. unfold content.
    rewrite !length_take. unfold total. lia.
  - apply list_lookup_insert_eq. rewrite Hlen. unfold total. lia.
  - unfold fits. simpl. rewrite length_insert, Hlen. unfold total. lia.
  - lia.
Qed.

(** X14: [Append(const String&)] appends the characters of the other
    string and terminates the result, growing the buffer when the new
    length reaches the capacity.  Appending an empty string to an empty
    string of capacity [0] aborts in [Resize]. *)
Theorem Append_concatenates (a_other s : String) :
  fits s -> 0 <= m_used a_other <= Z.of_nat (length (m_data a_other)) ->
  (0 < m_used s + m_used a_other \/ m_used s + m_used a_other < m_capacity s ->
   exists s',
     Append indet a_other s = Some s' /\
     content s' = content s ++ content a_other /\
     m_used s' = m_used s + m_used a_other /\
     m_data s' !! Z.to_nat (m_used s') = Some zero /\
     fits s') /\
  (m_used s + m_used a_other = 0 -> m_capacity s <= 0 -> Append indet a_other s = None).
Proof.
  intros Hfits Hother. split.
  - intros Hroom.
    destruct (Append_spec a_other s Hfits Hother Hroom) as (s' & ? & ? & ? & ? & ? & _).
    exists s'. auto.
  - destruct Hfits as [Hused Hcap]. intros Hzero Hcap0. unfold Append.
    destruct (Z.leb_spec (m_capacity s) (m_used s + m_used a_other)); [|lia].
    unfold Resize, VERIFY.
    destruct (Z.leb_spec (m_used s + 1) ((m_used s + m_used a_other) * 2)); [lia|].
    reflexivity.
Qed.

Lemma default_spec :
  exists s,
    default indet = Some s /\ content s = [] /\ m_used s = 0 /\
    m_capacity s = DEFAULT_STRING_SIZE /\ fits s.
Proof.
  unfold default.
  rewrite wr_ok by (rewrite length_alloc; unfold DEFAULT_STRING_SIZE; lia).
  unfold bind. eexists; split; [reflexivity|].
  unfold fits, content. cbn [m_used m_capacity m_data].
  rewrite length_insert, length_alloc. unfold DEFAULT_STRING_SIZE.
  split; [reflexivity|]. repeat split; lia.
Qed.

(** X15: [operator+] on two strings always completes, and its result
    holds the characters of the left operand followed by those of the
    right one. *)
Theorem plus_concatenates (a_left a_right : String) :
  0 <= m_used a_left <= Z.of_nat (length (m_data a_left)) ->
  0 <= m_used a_right <= Z.of_nat (length (m_data a_right)) ->
  exists r,
    plus indet a_left a_right = Some r /\
    content r = content a_left ++ content a_right /\
    m_used r = m_used a_left + m_used a_right /\
    m_data r !! Z.to_nat (m_used r) = Some zero.
Proof.
  intros Hl Hr. unfold plus.
  destruct default_spec as (s0 & -> & Hc0 & Hu0 & Hcap0 & Hfits0).
  unfold DEFAULT_STRING_SIZE in Hcap0.
  destruct (Append_spec a_left s0 Hfits0 Hl) as (s1 & Hrun1 & Hc1 & Hu1 & _ & Hfits1 & Hcap1);
    [lia|].
  destruct (Append_spec a_right s1 Hfits1 Hr) as (s2 & Hrun2 & Hc2 & Hu2 & Hz2 & _);
    [lia|].
  cbn [bind]. rewrite Hrun1. cbn [bind]. rewrite Hrun2.
  exists s2. split; [reflexivity|].
  split; [rewrite Hc2, Hc1, Hc0; reflexivity|]. split; [lia | assumption].
Qed.

Lemma scan_char_spec (d : list ascii) c (n : nat) :
  forall i : Z,
    i <= scan_char indet n i d c <= i + Z.of_nat n /\
    (forall k, i <= k < scan_char indet n i d c -> rd indet d k <> c) /\
    (scan_char indet n i d c < i + Z.of_nat n ->
       rd indet d (scan_char indet n i d c) = c).
Proof.
  induction n as [|n IH]; intros i; simpl.
  - repeat split; try lia.
  - destruct (Ascii.eqb_spec (rd indet d i) c) as [Heq|Hne].
    + repeat split; try lia. intros _. assumption.
    + destruct (IH (i + 1)) as (Hr & Hbefore & Hat).
      split; [lia|]. split.
      * intros k Hk. destruct (Z.eq_dec k i) as [->|]; [assumption | apply Hbefore; lia].
      * intros Hlt. apply Hat. lia.
Qed.

Lemma content_lookup s (k : Z) :
  0 <= k < m_used s -> m_used s <= Z.of_nat (length (m_data s)) ->
  content s !! Z.to_nat k = Some (rd indet (m_data s) k).
Proof. intros Hk Hused. unfold content. apply rd_take; lia. Qed.

Lemma scan_content s c :
  0 <= m_used s <= Z.of_nat (length (m_data s)) ->
  let i := scan_char indet (Z.to_nat (m_used s)) 0 (m_data s) c in
  0 <= i <= m_used s /\
  (forall j, (j < Z.to_nat i)%nat -> content s !! j <> Some c) /\
  (c ∈ content s -> i < m_used s /\ content s !! Z.to_nat i = Some c) /\
  (c ∉ content s -> i = m_used s).
Proof.
  intros Hused i.
  destruct (scan_char_spec (m_data s) c (Z.to_nat (m_used s)) 0) as (Hr & Hbefore & Hat).
  fold i in Hr, Hbefore, Hat.
  assert (Hno : forall j, (j < Z.to_nat i)%nat -> content s !! j <> Some c).
  { intros j Hj Hl. apply (Hbefore (Z.of_nat j)); [lia|].
    rewrite <- (Nat2Z.id j) in Hl. rewrite content_lookup in Hl by lia. congruence. }
  split; [lia|]. split; [exact Hno|]. split.
  - intros Hin. apply list_elem_of_lookup_1 in Hin as [j Hj].
    assert (Hjlt : (j < Z.to_nat (m_used s))%nat).
    { apply lookup_lt_Some in Hj. unfold content in Hj. rewrite length_take in Hj. lia. }
    assert (Hlt : i < m_used s).
    { destruct (Z.lt_ge_cases i (m_used s)) as [|Hge]; [assumption|].
      exfalso. apply (Hno j); [lia | assumption]. }
    split; [assumption|]. rewrite content_lookup by lia. f_equal. apply Hat. lia.
  - intros Hnot. destruct (Z.lt_ge_cases i (m_used s)) as [Hlt|]; [|lia].
    exfalso. apply Hnot. apply (list_elem_of_lookup_2 _ (Z.to_nat i)).
    rewrite content_lookup by lia. f_equal. apply Hat. lia.
Qed.

(** X16: [Find(c)] returns the index of the first occurrence of [c],
    and the [Size] value of [-1], which is [2^64 - 1], when [c] does not
    occur. *)
Theorem Find_first_occurrence s c :
  0 <= m_used s <= Z.of_nat (length (m_data s)) ->
  (c ∈ content s ->
     0 <= Find indet c s < m_used s /\
     content s !! Z.to_nat (Find indet c s) = Some c /\
     forall j, (j < Z.to_nat (Find indet c s))%nat -> content s !! j <> Some c) /\
  (c ∉ content s -> Find indet c s = 2 ^ 64 - 1).
Proof.
  intros Hused. destruct (scan_content s c Hused) as (Hr & Hno & Hin & Hout).
  unfold Find. split.
  - intros Hc. destruct (Hin Hc) as [Hlt Hl].
    destruct (Z.leb_spec (m_used s)
                (scan_char indet (Z.to_nat (m_used s)) 0 (m_data s) c)); [lia|].
    split; [lia|]. split; assumption.
  - intros Hc. rewrite (Hout Hc). rewrite Z.leb_refl. reflexivity.
Qed.

(** X17: [Replace(a_old, a_new)] with a character [a_new] other than
    nul replaces every occurrence of [a_old], and changes nothing else. *)
Theorem ReplaceChar_replaces_all s (a_old a_new : ascii) :
  a_new <> zero -> 0 <= m_used s <= Z.of_nat (length (m_data s)) ->
  exists s',
    ReplaceChar indet a_old a_new s = Some s' /\
    content s' = (fun c => if Ascii.eqb c a_old then a_new else c) <$> content s /\
    m_used s' = m_used s /\ m_capacity s' = m_capacity s /\
    drop (Z.to_nat (m_used s)) (m_data s') = drop (Z.to_nat (m_used s)) (m_data s).
Proof.
  intros Hnew Hused. unfold ReplaceChar.
  destruct (Ascii.eqb_spec a_new zero) as [|_]; [contradiction|].
  set (f := fun c => if Ascii.eqb c a_old then a_new else c).
  destruct (for_up_inv
    (fun i d => d = (f <$> take (Z.to_nat i) (m_data s)) ++ drop (Z.to_nat i) (m_data s))
    0 (m_used s)
    (fun i d => if negb (Ascii.eqb (rd indet d i) a_old) then Some d else wr d i a_new)
    (m_data s)) as (d & -> & Hd).
  - lia.
  - reflexivity.
  - intros i d Hi ->.
    destruct (lookup_lt_is_Some_2 (m_data s) (Z.to_nat i)) as [x Hx]; [lia|].
    rewrite (drop_S _ x _ Hx).
    assert (Hlen : i = Z.of_nat (length (f <$> take (Z.to_nat i) (m_data s))))
      by (rewrite length_fmap, length_take; lia).
    rewrite (rd_app_cons indet _ _ _ x i eq_refl Hlen).
    replace (Z.to_nat (i + 1)) with (S (Z.to_nat i)) by lia.
    rewrite (take_S_r _ _ x Hx), fmap_app, <- app_assoc. simpl.
    destruct (Ascii.eqb x a_old) eqn:Heq; simpl.
    + rewrite (wr_at _ _ _ _ i Hlen). eexists; split; [reflexivity|].
      unfold f at 3. rewrite Heq. reflexivity.
    + eexists; split; [reflexivity|]. unfold f at 3. rewrite Heq. reflexivity.
  - simpl. eexists; split; [reflexivity|]. unfold content. simpl. rewrite Hd.
    split; [|split; [reflexivity|split; [reflexivity|]]].
    + apply take_app_length'. rewrite length_fmap, length_take. lia.
    + apply drop_app_length'. rewrite length_fmap, length_take. lia.
Qed.

(** X18: [Remove(c)] of a character that occurs deletes its first
    occurrence only and keeps the other characters in order. *)
Theorem Remove_first_occurrence s c :
  0 <= m_used s <= Z.of_nat (length (m_data s)) -> c ∈ content s ->
  exists (i : nat) s',
    content s !! i = Some c /\
    (forall j, (j < i)%nat -> content s !! j <> Some c) /\
    Remove indet c s = Some s' /\
    content s' = delete i (content s) /\
    m_used s' = m_used s - 1 /\
    m_data s' !! Z.to_nat (m_used s') = Some zero.
Proof.
  intros Hused Hin. destruct (scan_content s c Hused) as (Hr & Hno & Hfound & _).
  destruct (Hfound Hin) as [Hlt Hat]. clear Hfound.
  unfold Remove, ReplaceChar. rewrite Ascii.eqb_refl.
  set (i := scan_char indet (Z.to_nat (m_used s)) 0 (m_data s) c) in *.
  destruct (split_at_index (m_data s) i (m_used s)) as (A & x & B & R & Hd & HA & HB & Hlive);
    [lia | lia |].
  destruct (shift_left_spec indet B A R x) as [g Hg].
  replace (Z.of_nat (length A)) with i in Hg by lia.
  replace (Z.of_nat (length A + 1 + length B)) with (m_used s) in Hg by lia.
  rewrite <- Hd in Hg. rewrite Hg. simpl.
  replace (A ++ B ++ g :: R) with ((A ++ B) ++ g :: R) by (rewrite <- app_assoc; reflexivity).
  rewrite wr_at by (rewrite length_app; lia). simpl.
  exists (Z.to_nat i). eexists.
  split; [assumption|]. split; [assumption|]. split; [reflexivity|].
  unfold content. simpl. rewrite Hlive, <- HA, delete_middle.
  split; [|split; [reflexivity|]].
  - apply take_app_length'. rewrite length_app. lia.
  - replace (Z.to_nat (m_used s - 1)) with (length (A ++ B)) by (rewrite length_app; lia).
    rewrite lookup_app_r by lia. rewrite Nat.sub_diag. reflexivity.
Qed.

Lemma String_IsEqual_loop_spec (n : nat) :
  forall (i : Z) (d1 d2 : list ascii),
    0 <= i -> i + Z.of_nat n <= Z.of_nat (length d1) ->
    i + Z.of_nat n <= Z.of_nat (length d2) ->
    IsEqual_loop indet n i d1 d2 = true <->
    take n (drop (Z.to_nat i) d1) = take n (drop (Z.to_nat i) d2).
Proof.
  induction n as [|n IH]; intros i d1 d2 Hi H1 H2.
  - simpl. rewrite !take_0. tauto.
  - simpl.
    destruct (lookup_lt_is_Some_2 d1 (Z.to_nat i)) as [x Hx]; [lia|].
    destruct (lookup_lt_is_Some_2 d2 (Z.to_nat i)) as [y Hy]; [lia|].
    rewrite (rd_lookup indet d1 i x), (rd_lookup indet d2 i y) by (assumption || lia).
    rewrite (drop_S d1 x), (drop_S d2 y) by assumption. simpl.
    replace (S (Z.to_nat i)) with (Z.to_nat (i + 1)) by lia.
    destruct (Ascii.eqb_spec x y) as [->|Hne]; simpl.
    + rewrite IH by lia. split; [intros ->; reflexivity | intros [= ?]; assumption].
    + split; [discriminate | intros [= ? _]; contradiction].
Qed.

(** [IsEqual(const String&)] holds exactly when the two strings
    hold the same characters, whatever their capacities. *)
Lemma String_IsEqual_spec (a b : String) :
  0 <= m_used a <= Z.of_nat (length (m_data a)) ->
  0 <= m_used b <= Z.of_nat (length (m_data b)) ->
  IsEqual indet b a = true <-> content a = content b.
Proof.
  intros Ha Hb. unfold IsEqual.
  destruct (Z.eqb_spec (m_used a) (m_used b)) as [Heq|Hne]; simpl.
  - rewrite String_IsEqual_loop_spec by lia. simpl. rewrite !drop_0.
    unfold content. rewrite Heq. tauto.
  - split; [discriminate|]. intros Hc. exfalso. apply Hne.
    apply (f_equal length) in Hc. unfold content in Hc.
    rewrite !length_take in Hc. lia.
Qed.

Lemma copied_string (src : list ascii) (n cap : Z) :
  0 <= n <= Z.of_nat (length src) -> n <= cap ->
  exists d,
    (d0 <- copy_n indet src n (alloc indet (cap + 1)) ;; wr d0 n zero) = Some d /\
    Z.of_nat (length d) = cap + 1 /\
    take (Z.to_nat n) d = take (Z.to_nat n) src /\
    d !! Z.to_nat n = Some zero.
Proof.
  intros Hn Hcap. unfold copy_n.
  rewrite (copy_prefix_spec indet) by (rewrite ?length_alloc; lia). cbn [bind].
  assert (Hlen : length (take (Z.to_nat n) src ++ drop (Z.to_nat n) (alloc indet (cap + 1)))
                 = Z.to_nat (cap + 1)).
  { rewrite length_app, length_take, length_drop, length_alloc. lia. }
  rewrite wr_ok by lia. eexists; split; [reflexivity|].
  rewrite length_insert, Hlen. split; [lia|]. split.
  - rewrite take_insert_ge by lia. apply take_app_length'. rewrite length_take. lia.
  - apply list_lookup_insert_eq. lia.
Qed.

(** X19: a string built from a literal (characters [l], none of them
    nul) holds its characters: [Get] on the constant string returns them
    by index and aborts from the length on, the capacity is twice the
    length, and the copy constructor and the copy assignment give strings
    with the same characters. *)
Theorem new_Get_roundtrip (l : list ascii) (s0 : String) :
  zero ∉ l ->
  exists s,
    new indet l = Some s /\ content s = l /\
    m_used s = Z.of_nat (length l) /\ m_capacity s = Z.of_nat (length l) * 2 /\
    m_data s !! length l = Some zero /\
    (forall (i : nat) c, l !! i = Some c -> Get indet (Z.of_nat i) s = Some c) /\
    (forall i : Z, Z.of_nat (length l) <= i -> Get indet i s = None) /\
    (exists s', copy indet s = Some s' /\ content s' = l /\
                m_capacity s' = Z.of_nat (length l) * 2) /\
    (exists s', assign indet s s0 = Some s' /\ content s' = l /\
                m_capacity s' = Z.of_nat (length l) * 2).
Proof.
  intros _.
  destruct (copied_string l (Z.of_nat (length l)) (Z.of_nat (length l) * 2))
    as (d & Hd & Hlen & Htake & Hz); [lia | lia |].
  rewrite Nat2Z.id in Htake, Hz. rewrite firstn_all in Htake.
  exists (mkString (Z.of_nat (length l) * 2) (Z.of_nat (length l)) d).
  assert (Hcontent : content (mkString (Z.of_nat (length l) * 2) (Z.of_nat (length l)) d) = l).
  { unfold content. simpl. rewrite Nat2Z.id. assumption. }
  split.
  { unfold new. unfold copy_n in Hd.
    apply bind_Some in Hd as (d0 & Hd0 & Hd1). rewrite Hd0. cbn [bind]. rewrite Hd1. reflexivity. }
  split; [assumption|]. split; [reflexivity|]. split; [reflexivity|]. split; [assumption|].
  split; [|split; [|split]].
  - intros i c Hi. unfold Get, VERIFY. simpl.
    pose proof (lookup_lt_Some _ _ _ Hi) as Hlt.
    destruct (Z.ltb_spec (Z.of_nat i) (Z.of_nat (length l))); [|lia]. simpl. f_equal.
    apply rd_lookup; [lia|]. rewrite Nat2Z.id. rewrite <- Htake in Hi.
    rewrite lookup_take_lt in Hi by assumption. assumption.
  - intros i Hi. unfold Get, VERIFY. simpl.
    destruct (Z.ltb_spec i (Z.of_nat (length l))); [lia | reflexivity].
  - destruct (copied_string d (Z.of_nat (length l)) (Z.of_nat (length l) * 2))
      as (d' & Hd' & _ & Htake' & _); [lia | lia |].
    unfold copy. simpl.
    apply bind_Some in Hd' as (d0 & Hd0 & Hd1). rewrite Hd0. cbn [bind]. rewrite Hd1.
    eexists; split; [reflexivity|]. unfold content. simpl.
    rewrite Htake', Nat2Z.id. auto.
  - destruct (copied_string d (Z.of_nat (length l)) (Z.of_nat (length l) * 2))
      as (d' & Hd' & _ & Htake' & _); [lia | lia |].
    unfold assign. simpl.
    apply bind_Some in Hd' as (d0 & Hd0 & Hd1). rewrite Hd0. cbn [bind]. rewrite Hd1.
    eexists; split; [reflexivity|]. unfold content. simpl.
    rewrite Htake', Nat2Z.id. auto.
Qed.

End Facts.

Lemma Append_concatenates_witness :
  (exists s',
     Append zero de abc = Some s' /\
     content s' = content abc ++ content de /\
     m_used s' = m_used abc + m_used de /\
     m_data s' !! Z.to_nat (m_used s') = Some zero /\
     fits s') /\
  Append zero empty empty = None.
Proof.
  split.
  - apply (Append_concatenates zero de abc); [unfold fits; simpl; lia | simpl; lia |].
    left. simpl. lia.
  - apply (Append_concatenates zero empty empty);
      [unfold fits; simpl; lia | simpl; lia | reflexivity | simpl; lia].
Defined.

Lemma plus_concatenates_witness :
  exists r,
    plus zero abc de = Some r /\
    content r = content abc ++ content de /\
    m_used r = m_used abc + m_used de /\
    m_data r !! Z.to_nat (m_used r) = Some zero.
Proof. apply (plus_concatenates zero abc de); simpl; lia. Defined.

Lemma Find_first_occurrence_witness :
  (0 <= Find zero "b" abc < m_used abc /\
   content abc !! Z.to_nat (Find zero "b" abc) = Some "b"%char /\
   forall j, (j < Z.to_nat (Find zero "b" abc))%nat -> content abc !! j <> Some "b"%char) /\
  Find zero "z" abc = 2 ^ 64 - 1.
Proof.
  split.
  - apply (Find_first_occurrence zero abc "b"); [simpl; lia|].
    apply (list_elem_of_lookup_2 _ 1%nat). reflexivity.
  - apply (Find_first_occurrence zero abc "z"); [simpl; lia|].
    intros Hin. apply list_elem_of_lookup_1 in Hin as [[|[|[|i]]] Hi]; discriminate Hi.
Defined.

Lemma ReplaceChar_replaces_all_witness :
  exists s',
    ReplaceChar zero "b" "x" abc = Some s' /\
    content s' = (fun c => if Ascii.eqb c "b" then "x"%char else c) <$> content abc /\
    m_used s' = m_used abc /\ m_capacity s' = m_capacity abc /\
    drop (Z.to_nat (m_used abc)) (m_data s') = drop (Z.to_nat (m_used abc)) (m_data abc).
Proof.
  apply (ReplaceChar_replaces_all zero abc "b" "x"); [discriminate | simpl; lia].
Defined.

Lemma Remove_first_occurrence_witness :
  exists (i : nat) s',
    content abc !! i = Some "b"%char /\
    (forall j, (j < i)%nat -> content abc !! j <> Some "b"%char) /\
    Remove zero "b" abc = Some s' /\
    content s' = delete i (content abc) /\
    m_used s' = m_used abc - 1 /\
    m_data s' !! Z.to_nat (m_used s') = Some zero.
Proof.
  apply (Remove_first_occurrence zero abc "b"); [simpl; lia|].
  apply (list_elem_of_lookup_2 _ 1%nat). reflexivity.
Defined.

Lemma new_Get_roundtrip_witness :
  exists s,
    new zero (chars "abc") = Some s /\ content s = chars "abc" /\
    m_used s = Z.of_nat (length (chars "abc")) /\
    m_capacity s = Z.of_nat (length (chars "abc")) * 2 /\
    m_data s !! length (chars "abc") = Some zero /\
    (forall (i : nat) c, chars "abc" !! i = Some c -> Get zero (Z.of_nat i) s = Some c) /\
    (forall i : Z, Z.of_nat (length (chars "abc")) <= i -> Get zero i s = None) /\
    (exists s', copy zero s = Some s' /\ content s' = chars "abc" /\
                m_capacity s' = Z.of_nat (length (chars "abc")) * 2) /\
    (exists s', assign zero s de = Some s' /\ content s' = chars "abc" /\
                m_capacity s' = Z.of_nat (length (chars "abc")) * 2).
Proof.
  apply (new_Get_roundtrip zero (chars "abc") de).
  intros Hin. apply list_elem_of_lookup_1 in Hin as [[|[|[|i]]] Hi]; discriminate Hi.
Defined.

End StringOpsFacts.

(** * SharedLock: writers, wake-ups and progress *)

Module SharedLockOpsFacts.
Import SharedLock SharedLockFacts.

(** Two threads in the same phase count twice. *)
Lemma count_two (ps : list phase) (t1 t2 : nat) (p : phase) :
  t1 <> t2 -> ps !! t1 = Some p -> ps !! t2 = Some p -> 2 <= count p ps.
Proof.
  revert t1 t2. induction ps as [|q ps IH]; intros t1 t2 Hne H1 H2; [discriminate|].
  rewrite count_cons. destruct t1 as [|t1], t2 as [|t2]; simpl in H1, H2.
  - congruence.
  - injection H1 as ->. rewrite decide_True by reflexivity.
    pose proof (count_lookup _ _ _ H2). lia.
  - injection H2 as ->. rewrite decide_True by reflexivity.
    pose proof (count_lookup _ _ _ H1). lia.
  - assert (Hne' : t1 <> t2) by congruence.
    specialize (IH t1 t2 Hne' H1 H2). destruct (decide (q = p)); lia.
Qed.

(** A positive count has a witness. *)
Lemma count_pos (ps : list phase) (p : phase) :
  1 <= count p ps -> exists t, ps !! t = Some p.
Proof.
  induction ps as [|q ps IH]; intros Hc; [unfold count in Hc; simpl in Hc; lia|].
  rewrite count_cons in Hc. destruct (decide (q = p)) as [->|Hne].
  - exists 0%nat. reflexivity.
  - destruct IH as [t Ht]; [lia|]. exists (S t). assumption.
Qed.

(** X20: in every state the threads can reach, at most one thread
    writes, and [m_is_writing] is set exactly while one does. *)
Theorem writers_exclude_each_other (n : nat) (s : state) :
  reachable n s ->
  (forall t1 t2, threads s !! t1 = Some Writing -> threads s !! t2 = Some Writing ->
                 t1 = t2) /\
  (m_is_writing (lock s) = true <-> exists t, threads s !! t = Some Writing).
Proof.
  intros Hreach. apply reachable_consistent in Hreach as (_ & _ & Hiw & Hniw).
  assert (Hle : count Writing (threads s) <= 1).
  { destruct (m_is_writing (lock s)); [destruct (Hiw eq_refl) | rewrite (Hniw eq_refl)]; lia. }
  split.
  - intros t1 t2 H1 H2. destruct (Nat.eq_dec t1 t2) as [|Hne]; [assumption|].
    pose proof (count_two _ _ _ _ Hne H1 H2). lia.
  - split.
    + intros Hflag. apply count_pos. destruct (Hiw Hflag). lia.
    + intros [t Ht]. apply count_lookup in Ht.
      destruct (m_is_writing (lock s)); [reflexivity|]. rewrite (Hniw eq_refl) in Ht. lia.
Qed.

(** X21: no wake-up is lost.  A step after which a waiting writer may
    enter broadcasts [m_is_only_access], and a step that brings
    [m_writer_count] down to [0], after which readers may enter,
    broadcasts [m_no_writers_left]. *)
Theorem no_lost_wakeup (n : nat) (s s' : state) (t : nat) (a : action) :
  reachable n s -> step t a s = Some s' ->
  (forall w, threads s' !! w = Some Waiting ->
     must_wait_to_write (lock s) = true -> must_wait_to_write (lock s') = false ->
     broadcast a (lock s') = Some m_is_only_access) /\
  (m_writer_count (lock s) <> 0 -> m_writer_count (lock s') = 0 ->
     broadcast a (lock s') = Some m_no_writers_left).
Proof.
  intros Hreach Hstep.
  pose proof (reachable_consistent n s Hreach) as Hcons.
  pose proof (consistent_step t a s s' Hcons Hstep) as (Hr' & Hw' & Hiw' & Hniw').
  destruct Hcons as (Hr & Hw & Hiw & Hniw).
  unfold step in Hstep.
  destruct (threads s !! t) as [p|] eqn:Hp; [|discriminate]. simpl in Hstep.
  split.
  - intros w Hwait Hbefore Hafter.
    apply count_lookup in Hwait.
    pose proof (count_nonneg Writing (threads s')).
    unfold must_wait_to_write in *.
    destruct a, p; try discriminate; simpl in Hstep.
    + destruct (negb (m_writer_count (lock s) =? 0)); [discriminate|].
      injection Hstep as <-. simpl in *.
      destruct (m_reader_count (lock s) + 1 =? 0) eqn:Hz; simpl in Hafter; [|discriminate].
      apply Z.eqb_eq in Hz. pose proof (count_nonneg Reading (threads s)). lia.
    + destruct (negb (m_reader_count (lock s) =? 0) || m_is_writing (lock s)) eqn:Hm;
        injection Hstep as <-; simpl in *; [congruence|].
      rewrite orb_true_r in Hafter. discriminate.
    + rewrite Hbefore in Hstep. discriminate.
    + injection Hstep as <-. simpl in *.
      apply orb_false_elim in Hafter as [Hz _]. apply negb_false_iff in Hz. rewrite Hz. simpl.
      destruct (Z.ltb_spec 0 (m_writer_count (lock s))); [reflexivity | lia].
    + injection Hstep as <-. simpl in *.
      destruct (Z.ltb_spec 0 (m_writer_count (lock s) - 1)); [reflexivity | lia].
  - intros Hbefore Hafter.
    destruct a, p; try discriminate; simpl in Hstep.
    + destruct (Z.eqb_spec (m_writer_count (lock s)) 0); [contradiction | discriminate].
    + pose proof (count_nonneg Waiting (threads s)).
      pose proof (count_nonneg Writing (threads s)).
      destruct (must_wait_to_write _); injection Hstep as <-; simpl in *; lia.
    + destruct (must_wait_to_write _); [discriminate|].
      injection Hstep as <-. simpl in *. contradiction.
    + injection Hstep as <-. simpl in *. contradiction.
    + injection Hstep as <-. simpl in *.
      destruct (Z.ltb_spec 0 (m_writer_count (lock s) - 1)); [lia | reflexivity].
Qed.

(** X22: a waiting writer is never stuck.  In every reachable state in
    which a thread waits to write, that thread can enter, or a thread
    that reads can leave, or the thread that writes can leave. *)
Theorem waiting_writer_not_stuck (n : nat) (s : state) (w : nat) :
  reachable n s -> threads s !! w = Some Waiting ->
  (exists s', step w ResumeWrite s = Some s') \/
  (exists t s', step t EndRead s = Some s') \/
  (exists t s', step t EndWrite s = Some s').
Proof.
  intros Hreach Hwait. apply reachable_consistent in Hreach as (Hr & _ & Hiw & _).
  destruct (must_wait_to_write (lock s)) eqn:Hm.
  - unfold must_wait_to_write in Hm. apply orb_true_iff in Hm as [Hreaders|Hflag].
    + right. left. apply negb_true_iff, Z.eqb_neq in Hreaders.
      destruct (count_pos (threads s) Reading) as [t Ht].
      { pose proof (count_nonneg Reading (threads s)). lia. }
      exists t. unfold step. rewrite Ht. simpl. eauto.
    + right. right. destruct (Hiw Hflag) as [Hone _].
      destruct (count_pos (threads s) Writing) as [t Ht]; [lia|].
      exists t. unfold step. rewrite Ht. simpl. eauto.
  - left. unfold step. rewrite Hwait. simpl. rewrite Hm. eauto.
Qed.

(** Thread 0 reads and thread 1 waits to write; then thread 0 leaves and
    thread 1 enters. *)
Lemma reachable_reader_and_waiter :
  reachable 3 (mkState (mkLock 1 1 false) [Reading; Waiting; Idle]).
Proof.
  apply (reachable_step 3 (mkState (mkLock 1 0 false) [Reading; Idle; Idle]) 1%nat StartWrite);
    [|reflexivity].
  apply (reachable_step 3 (init 3) 0%nat StartRead); [|reflexivity].
  apply reachable_init.
Defined.

Lemma reachable_writer : reachable 3 (mkState (mkLock 0 1 true) [Idle; Writing; Idle]).
Proof.
  apply (reachable_step 3 (mkState (mkLock 0 1 false) [Idle; Waiting; Idle]) 1%nat ResumeWrite);
    [|reflexivity].
  apply (reachable_step 3 (mkState (mkLock 1 1 false) [Reading; Waiting; Idle]) 0%nat EndRead);
    [|reflexivity].
  apply reachable_reader_and_waiter.
Defined.

Lemma writers_exclude_each_other_witness :
  (forall t1 t2,
     threads (mkState (mkLock 0 1 true) [Idle; Writing; Idle]) !! t1 = Some Writing ->
     threads (mkState (mkLock 0 1 true) [Idle; Writing; Idle]) !! t2 = Some Writing ->
     t1 = t2) /\
  (m_is_writing (lock (mkState (mkLock 0 1 true) [Idle; Writing; Idle])) = true <->
   exists t, threads (mkState (mkLock 0 1 true) [Idle; Writing; Idle]) !! t = Some Writing).
Proof. apply (writers_exclude_each_other 3). apply reachable_writer. Defined.

(** The last reader leaves while a writer waits: [EndRead] broadcasts
    [m_is_only_access]. *)
Lemma no_lost_wakeup_witness :
  broadcast EndRead (lock (mkState (mkLock 0 1 false) [Idle; Waiting; Idle]))
  = Some m_is_only_access.
Proof.
  apply (no_lost_wakeup 3 (mkState (mkLock 1 1 false) [Reading; Waiting; Idle])
           (mkState (mkLock 0 1 false) [Idle; Waiting; Idle]) 0%nat EndRead
           reachable_reader_and_waiter eq_refl) with (w := 1%nat); reflexivity.
Defined.

Lemma waiting_writer_not_stuck_witness :
  (exists s', step 1 ResumeWrite (mkState (mkLock 1 1 false) [Reading; Waiting; Idle])
              = Some s') \/
  (exists t s', step t EndRead (mkState (mkLock 1 1 false) [Reading; Waiting; Idle])
                = Some s') \/
  (exists t s', step t EndWrite (mkState (mkLock 1 1 false) [Reading; Waiting; Idle])
                = Some s').
Proof.
  apply (waiting_writer_not_stuck 3 _ 1%nat reachable_reader_and_waiter). reflexivity.
Defined.

End SharedLockOpsFacts.

(** * Map: lookups, removal and what the operations keep *)

Module MapOpsFacts.
Import Map MapFacts.

Section Facts.
Context {K V : Type} `{KeyType K}.
Variables (indet_key : K) (indet_value : V) (value_init : V).
Implicit Types (m : Map K V) (es : list (Entry K V)) (e : Entry K V) (k : K) (v : V).

Local Open Scope nat_scope.

Lemma elem_of_live m k v :
  (k, v) ∈ live m <->
  exists j e, m_entries m !! j = Some e /\ used e = true /\ key e = k /\ value e = v.
Proof.
  unfold live. rewrite list_elem_of_omap. split.
  - intros (e & He & Hkv). destruct (used e) eqn:Hu; [|discriminate].
    injection Hkv as <- <-. apply list_elem_of_lookup_1 in He as [j Hj]. eauto 6.
  - intros (j & e & Hj & Hu & <- & <-). exists e. rewrite Hu.
    split; [apply list_elem_of_lookup_2 with j; assumption | reflexivity].
Qed.

Lemma length_live m : length (live m) = count_used (m_entries m).
Proof.
  unfold live. induction (m_entries m) as [|e es IH]; [reflexivity|].
  rewrite count_used_cons, <- IH. simpl. destruct (used e); reflexivity.
Qed.

Lemma Get_Some k v m :
  Get k m = Some v <->
  exists i e, find k m = Some (Some i) /\ m_entries m !! i = Some e /\ value e = v.
Proof.
  unfold Get. split.
  - intros Hrun. inv_bind Hrun as entry Hfind. inv_bind Hrun as i Hi. subst entry.
    inv_bind Hrun as e He. injection Hrun as <-. eauto.
  - intros (i & e & -> & He & <-). simpl. rewrite He. reflexivity.
Qed.

Lemma Exists_true k m :
  Exists k m = Some true <-> exists i, find k m = Some (Some i).
Proof.
  unfold Exists. split.
  - intros Hrun. inv_bind Hrun as entry Hfind. injection Hrun as Hdec.
    apply bool_decide_eq_true in Hdec as [i ->]. eauto.
  - intros [i ->]. reflexivity.
Qed.

Lemma new_sound a_capacity a_algorithm a_grow_factor a_growable :
  sound (new indet_key indet_value a_capacity a_algorithm a_grow_factor a_growable).
Proof.
  split.
  - intros i e Hi Hu. simpl in Hi. unfold fresh_entries in Hi.
    apply lookup_replicate_1 in Hi as [-> _]. discriminate.
  - simpl. rewrite live_keys_fresh. constructor.
Qed.

Lemma run_sound (ops : list (op K V)) :
  forall m m',
    Forall not_Remove ops -> sound m ->
    run indet_key indet_value value_init ops m = Some m' -> sound m'.
Proof.
  unfold run. induction ops as [|o ops IH]; intros m m' Hops Hsound Hrun; simpl in Hrun.
  - injection Hrun as <-. assumption.
  - apply Forall_cons in Hops as [Ho Hops].
    destruct (run_op indet_key indet_value value_init o m) as [m1|] eqn:Hop.
    + apply (IH m1 m' Hops); [|assumption].
      apply (run_op_sound indet_key indet_value value_init o m); assumption.
    + simpl in Hrun. rewrite fold_bind_None in Hrun. discriminate.
Qed.

(** X8: in a map built from a new one by [Insert], [At] and [Resize],
    [Get(k)] returns [v] exactly when a used slot of the table holds the
    key [k] with the value [v], and [Exists(k)] is true exactly when [k]
    is the key of a used slot. *)
Theorem lookup_matches_entries a_capacity a_algorithm a_grow_factor a_growable
    (ops : list (op K V)) m k :
  Forall not_Remove ops ->
  run indet_key indet_value value_init ops
    (new indet_key indet_value a_capacity a_algorithm a_grow_factor a_growable) = Some m ->
  (forall v, Get k m = Some v <-> (k, v) ∈ live m) /\
  (Exists k m = Some true <-> k ∈ live_keys (m_entries m)).
Proof.
  intros Hops Hrun.
  destruct (run_sound ops _ m Hops (new_sound _ _ _ _) Hrun) as [Hreach _].
  assert (Hfound : forall i, find k m = Some (Some i) ->
            exists e, m_entries m !! i = Some e /\ used e = true /\ key e = k).
  { intros i Hfind. apply find_Hit in Hfind as (index & _ & Hprobe).
    apply probe_sound in Hprobe as (e & He & Hu & Hk). eauto. }
  split.
  - intros v. rewrite Get_Some, elem_of_live. split.
    + intros (i & e & Hfind & He & Hv).
      destruct (Hfound i Hfind) as (e' & He' & Hu & Hk).
      rewrite He in He'. injection He' as <-. eauto 6.
    + intros (j & e & Hj & Hu & Hk & Hv). exists j, e.
      split; [|auto]. rewrite <- Hk. apply Hreach; assumption.
  - rewrite Exists_true, elem_of_live_keys. split.
    + intros [i Hfind]. destruct (Hfound i Hfind) as (e & He & Hu & Hk). eauto.
    + intros (j & e & Hj & Hu & Hk). exists j. rewrite <- Hk. apply Hreach; assumption.
Qed.

(** In a table whose slots are all used by other keys the probing loop
    never stops. *)
Lemma probe_full_table es cap k :
  0 < cap -> length es = cap ->
  (forall e, e ∈ es -> used e = true /\ key e <> k) ->
  forall fuel index, index < cap -> probe fuel es cap k index = None.
Proof.
  intros Hcap Hlen Hall. induction fuel as [|fuel IH]; intros index Hi; simpl;
    destruct (lookup_lt_is_Some_2 es index) as [e He]; try lia;
    rewrite He; destruct (Hall e) as [Hu Hk];
    try (apply list_elem_of_lookup_2 with index; assumption);
    rewrite Hu;
    (destruct (key_eq (key e) k) eqn:Heq; [apply key_eq_spec in Heq; contradiction|]).
  - reflexivity.
  - apply IH. apply Nat.mod_upper_bound. lia.
Qed.

Lemma all_used es :
  count_used es = length es -> forall e, e ∈ es -> used e = true.
Proof.
  induction es as [|e0 es IH]; intros Hcount e He; [apply elem_of_nil in He; contradiction|].
  rewrite count_used_cons in Hcount. simpl in Hcount.
  pose proof (count_used_le es) as Hle.
  apply elem_of_cons in He as [->|He].
  - destruct (used e0); [reflexivity | simpl in Hcount; lia].
  - apply IH; [|assumption]. destruct (used e0); simpl in Hcount; lia.
Qed.

(** X9: when every slot of the table is used and none holds the key,
    the probing loop does not stop, whatever the number of steps it is
    given: [Exists], [Get] and [Remove] of that key have no result, and
    neither has [Insert] on a map that does not grow. *)
Theorem full_table_lookup_diverges m k v :
  wf m -> m_used m = m_capacity m -> k ∉ live_keys (m_entries m) ->
  (forall fuel index, index < m_capacity m ->
     probe fuel (m_entries m) (m_capacity m) k index = None) /\
  Exists k m = None /\ Get k m = None /\ Remove k m = None /\
  (m_growable m = false -> Insert indet_key indet_value k v m = None).
Proof.
  intros (Hlen & Hcap & Hused) Hfull Hnot.
  assert (Hall : forall e, e ∈ m_entries m -> used e = true /\ key e <> k).
  { intros e He.
    assert (Hu : used e = true) by (apply (all_used (m_entries m)); [lia | assumption]).
    split; [assumption|]. intros Hk. apply Hnot.
    apply list_elem_of_lookup_1 in He as [j Hj].
    apply elem_of_live_keys. eauto. }
  pose proof (probe_full_table (m_entries m) (m_capacity m) k Hcap Hlen Hall) as Hloop.
  destruct (keyToIndex_ok m k Hcap) as (index & Hindex & Hi).
  assert (Hfind : find k m = None).
  { unfold find. rewrite Hindex. simpl. rewrite Hloop by assumption. reflexivity. }
  split; [exact Hloop|].
  split; [unfold Exists; rewrite Hfind; reflexivity|].
  split; [unfold Get; rewrite Hfind; reflexivity|].
  split.
  - unfold Remove. rewrite Hindex. simpl. rewrite Hloop by assumption. reflexivity.
  - intros Hg. unfold Insert. rewrite Hg. simpl. rewrite Hindex. simpl.
    rewrite Hloop by assumption. reflexivity.
Qed.

Lemma probe_after_clear fuel es cap k :
  forall index i e,
    probe fuel es cap k index = Some (Hit i) -> es !! i = Some e ->
    probe fuel (<[i := mkEntry (key e) (value e) false]> es) cap k index = Some (Free i).
Proof.
  induction fuel as [|fuel IH]; intros index i e Hrun Hi;
    pose proof (probe_sound _ _ _ _ _ _ Hrun) as (er & Her & Hu & Hk); simpl in Her;
    rewrite Hi in Her; injection Her as <-;
    pose proof (lookup_lt_Some _ _ _ Hi) as Hlt;
    simpl in Hrun |- *;
    destruct (es !! index) as [e0|] eqn:He0; try discriminate.
  - destruct (used e0) eqn:Hu0; [|discriminate].
    destruct (key_eq (key e0) k) eqn:Hk0; [|discriminate]. injection Hrun as <-.
    rewrite list_lookup_insert_eq by assumption. reflexivity.
  - destruct (used e0) eqn:Hu0; [|discriminate].
    destruct (key_eq (key e0) k) eqn:Hk0.
    + injection Hrun as <-. rewrite list_lookup_insert_eq by assumption. reflexivity.
    + assert (Hne : i <> index).
      { intros ->. rewrite Hi in He0. injection He0 as <-.
        rewrite Hk, key_eq_refl in Hk0. discriminate. }
      rewrite list_lookup_insert_ne by assumption. rewrite He0, Hu0, Hk0.
      apply IH; assumption.
Qed.

Lemma Map_Remove_spec k m m' :
  wf m -> Remove k m = Some m' ->
  Exists k m' = Some false /\ Get k m' = None /\
  m_used m' + 1 = m_used m /\ wf m'.
Proof.
  intros (Hlen & Hcap & Hused) Hrun. unfold Remove in Hrun.
    inv_bind Hrun as index Hindex. inv_bind Hrun as r Hprobe.
    destruct r as [i|i]; [|discriminate].
    inv_bind Hrun as e He. injection Hrun as <-.
    pose proof (probe_sound _ _ _ _ _ _ Hprobe) as (e' & He' & Hu & _). simpl in He'.
    rewrite He in He'. injection He' as <-.
    assert (Hfind : find k (set_used (set_entries m
                       (<[i := mkEntry (key e) (value e) false]> (m_entries m)))
                       (m_used m - 1)) = Some None).
    { unfold find. rewrite (keyToIndex_fields m) by reflexivity. rewrite Hindex. simpl.
      rewrite (probe_after_clear _ _ _ _ _ _ _ Hprobe He). reflexivity. }
    pose proof (count_used_insert (m_entries m) i e (mkEntry (key e) (value e) false) He) as Hc.
    rewrite Hu in Hc. simpl in Hc.
    split; [unfold Exists; rewrite Hfind; reflexivity|].
    split; [unfold Get; rewrite Hfind; reflexivity|].
    split; [simpl; lia|].
    unfold wf. simpl. rewrite length_insert. repeat split; try assumption. lia.
Qed.

(** X10: [Remove(k)] completes exactly when [k] is found; afterwards
    [Exists(k)] is false, [Get(k)] aborts and the size is one less. *)
Theorem Remove_result k m :
  wf m ->
  (is_Some (Remove k m) <-> Exists k m = Some true) /\
  (forall m', Remove k m = Some m' ->
     Exists k m' = Some false /\ Get k m' = None /\ m_used m' + 1 = m_used m).
Proof.
  intros Hwf. split.
  - rewrite Exists_true. split.
    + intros [m' Hrun]. unfold Remove in Hrun.
      inv_bind Hrun as index Hindex. inv_bind Hrun as r Hprobe.
      destruct r as [i|i]; [|discriminate].
      exists i. apply find_Hit. eauto.
    + intros [i Hfind]. apply find_Hit in Hfind as (index & Hindex & Hprobe).
      pose proof (probe_sound _ _ _ _ _ _ Hprobe) as (e & He & _). simpl in He.
      unfold Remove. rewrite Hindex. simpl. rewrite Hprobe. simpl. rewrite He. simpl. eauto.
  - intros m' Hrun. destruct (Map_Remove_spec k m m' Hwf Hrun) as (? & ? & ? & _). auto.
Qed.

Lemma At_wf k m v m' :
  wf m -> At indet_key indet_value value_init k m = Some (v, m') -> wf m'.
Proof.
  intros Hwf Hat. unfold At in Hat. inv_bind Hat as entry Hfind. destruct entry as [i|].
  - inv_bind Hat as e He. injection Hat as _ <-. assumption.
  - inv_bind Hat as m2 Hins. inv_bind Hat as entry' Hfind'. inv_bind Hat as i Hi.
    inv_bind Hat as e He. injection Hat as _ <-.
    apply (Insert_wf indet_key indet_value k value_init m); assumption.
Qed.

Lemma Resize_wf (n : nat) m m' :
  wf m -> Resize indet_key indet_value n m = Some m' -> wf m'.
Proof.
  intros Hwf Hrun. pose proof Hrun as Hrun'. unfold Resize in Hrun'.
  inv_verify Hrun'. inv_verify Hrun'. clear Hrun'.
  match goal with Hlt : (_ <? _) = true |- _ => apply Nat.ltb_lt in Hlt;
    destruct (Resize_rehashes indet_key indet_value n m Hwf Hlt) as (m1 & Hr & Hwf1 & _) end.
  congruence.
Qed.

Lemma run_op_wf (o : op K V) m m' :
  wf m -> run_op indet_key indet_value value_init o m = Some m' -> wf m'.
Proof.
  intros Hwf Hrun. destruct o as [k v|k|k|n]; simpl in Hrun.
  - apply (Insert_wf indet_key indet_value k v m); assumption.
  - inv_bind Hrun as r Hat. destruct r as [v m1]. injection Hrun as <-.
    apply (At_wf k m v m1); assumption.
  - apply (Map_Remove_spec k m m' Hwf Hrun).
  - apply (Resize_wf n m); assumption.
Qed.

(** X11: after any sequence of completed [Insert], [At], [Remove] and
    [Resize] calls on a new map of positive capacity, [GetSize()] is the
    number of used slots of the table, and the table has [m_capacity]
    slots. *)
Theorem GetSize_counts_entries a_capacity a_algorithm a_grow_factor a_growable
    (ops : list (op K V)) m :
  0 < a_capacity ->
  run indet_key indet_value value_init ops
    (new indet_key indet_value a_capacity a_algorithm a_grow_factor a_growable) = Some m ->
  m_used m = length (live m) /\ length (m_entries m) = m_capacity m.
Proof.
  intros Hcap Hrun.
  assert (Hwf : wf m).
  { pose proof (new_wf indet_key indet_value a_capacity a_algorithm a_grow_factor a_growable Hcap)
      as Hnew.
    revert Hnew Hrun.
    generalize (new indet_key indet_value a_capacity a_algorithm a_grow_factor a_growable).
    unfold run. induction ops as [|o ops IH]; intros m0 Hwf0 Hrun; simpl in Hrun.
    - injection Hrun as <-. assumption.
    - destruct (run_op indet_key indet_value value_init o m0) as [m1|] eqn:Hop.
      + apply (IH m1); [|assumption]. apply (run_op_wf o m0); assumption.
      + simpl in Hrun. rewrite fold_bind_None in Hrun. discriminate. }
  destruct Hwf as (Hlen & _ & Hused). rewrite length_live. auto.
Qed.

(** ** Entries survive the other operations *)

Lemma live_insert_other m m' (i : nat) e' k v :
  m_entries m' = <[i := e']> (m_entries m) ->
  (forall e, m_entries m !! i = Some e -> used e = true -> key e <> k) ->
  (k, v) ∈ live m -> (k, v) ∈ live m'.
Proof.
  intros Hes Hslot Hin. apply elem_of_live in Hin as (j & e & Hj & Hu & Hk & Hv).
  apply elem_of_live. exists j, e. rewrite Hes.
  destruct (Nat.eq_dec i j) as [->|Hne].
  - exfalso. apply (Hslot e Hj Hu). assumption.
  - rewrite list_lookup_insert_ne by assumption. auto.
Qed.

Lemma rehash_entry_live m old m' :
  rehash_entry m old = Some m' ->
  (forall k v, (k, v) ∈ live m -> (k, v) ∈ live m') /\
  (used old = true -> (key old, value old) ∈ live m').
Proof.
  unfold rehash_entry. intros Hrun. destruct (used old) eqn:Hu.
  - inv_bind Hrun as index Hindex. inv_bind Hrun as i Hi. injection Hrun as <-.
    apply probe_free_sound in Hi as (ei & Hei & Hui). split.
    + intros k v. apply (live_insert_other m _ i (mkEntry (key old) (value old) true)).
      * reflexivity.
      * intros e He Hue. congruence.
    + intros _. apply elem_of_live. exists i, (mkEntry (key old) (value old) true). simpl.
      rewrite list_lookup_insert_eq by (apply lookup_lt_Some in Hei; assumption). auto.
  - injection Hrun as <-. split; [auto | discriminate].
Qed.

Lemma rehash_fold_live (olds : list (Entry K V)) :
  forall m m',
    fold_left (fun om old => m1 <- om ;; rehash_entry m1 old) olds (Some m) = Some m' ->
    (forall k v, (k, v) ∈ live m -> (k, v) ∈ live m') /\
    (forall old, old ∈ olds -> used old = true -> (key old, value old) ∈ live m').
Proof.
  induction olds as [|old olds IH]; intros m m' Hrun; simpl in Hrun.
  - injection Hrun as <-. split; [auto|]. intros old Hin. apply elem_of_nil in Hin. contradiction.
  - destruct (rehash_entry m old) as [m1|] eqn:Hstep; simpl in Hrun.
    + apply rehash_entry_live in Hstep as [Hkeep Hnew].
      apply IH in Hrun as [Hkeep' Hnew']. split.
      * intros k v Hin. apply Hkeep', Hkeep, Hin.
      * intros old' Hin Hu. apply elem_of_cons in Hin as [->|Hin]; [|apply Hnew'; assumption].
        apply Hkeep', Hnew, Hu.
    + rewrite fold_bind_None in Hrun. discriminate.
Qed.

Lemma Resize_keeps_live (n : nat) m m' k v :
  Resize indet_key indet_value n m = Some m' -> (k, v) ∈ live m -> (k, v) ∈ live m'.
Proof.
  unfold Resize. intros Hrun Hin. inv_verify Hrun. inv_verify Hrun.
  apply rehash_fold_live in Hrun as [_ Hnew].
  apply elem_of_live in Hin as (j & e & Hj & Hu & <- & <-).
  apply Hnew; [apply list_elem_of_lookup_2 with j|]; assumption.
Qed.

Lemma Insert_keeps_live k0 v0 m m' k v :
  Insert indet_key indet_value k0 v0 m = Some m' ->
  (k, v) ∈ live m -> k <> k0 -> (k, v) ∈ live m'.
Proof.
  intros Hrun Hin Hne. unfold Insert in Hrun. inv_bind Hrun as m1 Hgrow.
  assert (Hin1 : (k, v) ∈ live m1).
  { destruct (m_growable m && load_reached m);
      [apply (Resize_keeps_live (m_capacity m * 2) m) | injection Hgrow as <-]; assumption. }
  clear Hgrow Hin. inv_bind Hrun as index Hindex. inv_bind Hrun as r Hprobe.
  pose proof (probe_sound _ _ _ _ _ _ Hprobe) as (e & He & Hr).
  destruct r as [i|i]; simpl in He.
  - rewrite He in Hrun. simpl in Hrun. injection Hrun as <-.
    apply (live_insert_other m1 _ i (mkEntry (key e) v0 (used e))); [reflexivity | | assumption].
    intros e' He' _. rewrite He in He'. injection He' as <-. destruct Hr as [_ Hk]. congruence.
  - injection Hrun as <-.
    apply (live_insert_other m1 _ i (mkEntry k0 v0 true)); [reflexivity | | assumption].
    intros e' He' Hu'. rewrite He in He'. injection He' as <-. congruence.
Qed.

Lemma sound_Get m k v : sound m -> (k, v) ∈ live m -> Get k m = Some v.
Proof.
  intros [Hreach _] Hin. apply elem_of_live in Hin as (j & e & Hj & Hu & Hk & Hv).
  apply Get_Some. exists j, e. split; [|auto]. rewrite <- Hk. apply Hreach; assumption.
Qed.

(** X12: an entry stays retrievable, with its value, across any
    [Insert] of another key, any [At] and any [Resize]. *)
Theorem entries_survive (o : op K V) m m' k v :
  sound m -> (k, v) ∈ live m ->
  not_Remove o -> (forall v0, o <> OpInsert k v0) ->
  run_op indet_key indet_value value_init o m = Some m' ->
  Get k m' = Some v.
Proof.
  intros Hsound Hin Hnot Hother Hrun.
  apply sound_Get; [apply (run_op_sound indet_key indet_value value_init o m); assumption|].
  destruct o as [k0 v0|k0|k0|n]; simpl in Hrun.
  - apply (Insert_keeps_live k0 v0 m); [assumption | assumption |].
    intros ->. apply (Hother v0). reflexivity.
  - inv_bind Hrun as r Hat. destruct r as [v1 m1]. injection Hrun as <-.
    unfold At in Hat. inv_bind Hat as entry Hfind. destruct entry as [i|].
    + inv_bind Hat as e He. injection Hat as _ <-. assumption.
    + inv_bind Hat as m2 Hins. inv_bind Hat as entry' Hfind'. inv_bind Hat as i Hi.
      inv_bind Hat as e He. injection Hat as _ <-.
      apply (Insert_keeps_live k0 value_init m); [assumption | assumption |].
      intros ->. pose proof (sound_Get m k0 v Hsound Hin) as Hget.
      apply Get_Some in Hget as (j & ej & Hfj & _). congruence.
  - contradiction.
  - apply (Resize_keeps_live n m); assumption.
Qed.

(** [At(k)] returns the stored value and leaves the map as it is
    when [k] is found; otherwise it inserts a value-initialised entry and
    returns that value.  In both cases [Get(k)] then returns what [At]
    returned. *)
Lemma At_result k m v m' :
  At indet_key indet_value value_init k m = Some (v, m') ->
  Get k m' = Some v /\
  (Exists k m = Some true -> m' = m) /\
  (Exists k m = Some false ->
     v = value_init /\ Insert indet_key indet_value k value_init m = Some m').
Proof.
  intros Hat. unfold At in Hat. inv_bind Hat as entry Hfind. destruct entry as [i|].
  - inv_bind Hat as e He. injection Hat as <- <-.
    split; [apply Get_Some; eauto|]. split; [reflexivity|].
    unfold Exists. rewrite Hfind. discriminate.
  - inv_bind Hat as m2 Hins. inv_bind Hat as entry' Hfind'. inv_bind Hat as i Hi. subst entry'.
    inv_bind Hat as e He. injection Hat as <- <-.
    assert (Hget : Get k m2 = Some (value e)) by (apply Get_Some; eauto).
    split; [assumption|]. split.
    + unfold Exists. rewrite Hfind. discriminate.
    + intros _. split; [|assumption].
      rewrite (Insert_then_Get indet_key indet_value k value_init m m2 Hins) in Hget. congruence.
Qed.

(** ** The copy constructor *)

Lemma Insert_stores k v m m' :
  Insert indet_key indet_value k v m = Some m' -> (k, v) ∈ live m'.
Proof.
  intros Hrun. apply Insert_then_Get in Hrun.
  apply Get_Some in Hrun as (i & e & Hfind & He & Hv).
  apply find_Hit in Hfind as (index & _ & Hp).
  apply probe_sound in Hp as (e' & He' & Hu & Hk). simpl in He'.
  rewrite He in He'. injection He' as <-. apply elem_of_live. eauto 6.
Qed.

Lemma count_used_app es1 es2 : count_used (es1 ++ es2) = count_used es1 + count_used es2.
Proof. unfold count_used. rewrite filter_app, length_app. reflexivity. Qed.

Lemma count_used_single e : count_used [e] = if used e then 1 else 0.
Proof. rewrite count_used_cons. unfold count_used. simpl. lia. Qed.

Lemma live_keys_single e : live_keys [e] = if used e then [key e] else [].
Proof. rewrite live_keys_cons. reflexivity. Qed.

Lemma live_keys_app es1 es2 : live_keys (es1 ++ es2) = live_keys es1 ++ live_keys es2.
Proof. unfold live_keys. rewrite filter_app, fmap_app. reflexivity. Qed.

(** [Insert] of a key that is not stored, on a map that does not grow. *)
Lemma Insert_fixed_new k v m :
  m_growable m = false -> length (m_entries m) = m_capacity m -> 0 < m_capacity m ->
  count_used (m_entries m) < m_capacity m -> k ∉ live_keys (m_entries m) ->
  exists m',
    Insert indet_key indet_value k v m = Some m' /\
    m_used m' = m_used m + 1 /\ m_capacity m' = m_capacity m /\
    m_growable m' = false /\
    length (m_entries m') = m_capacity m /\
    count_used (m_entries m') = count_used (m_entries m) + 1 /\
    live_keys (m_entries m') ≡ₚ k :: live_keys (m_entries m).
Proof.
  intros Hg Hlen Hcap Hroom Hnew. unfold Insert. rewrite Hg. simpl.
  destruct (keyToIndex_ok m k Hcap) as (index & -> & Hi). simpl.
  destruct (room_to_probe (m_entries m) (m_capacity m) index) as (d & e & Hd & He & Hue);
    try assumption.
  destruct (probe_terminates (m_entries m) (m_capacity m) k d index (m_capacity m) e)
    as (r & Hprobe); try assumption.
  pose proof (probe_sound _ _ _ _ _ _ Hprobe) as (er & Her & Hr).
  rewrite Hprobe. simpl. destruct r as [i|i]; simpl in Her.
  - exfalso. apply Hnew. apply elem_of_live_keys. destruct Hr as [Hu Hk]. eauto.
  - eexists; split; [reflexivity|]. simpl. rewrite length_insert.
    pose proof (count_used_insert (m_entries m) i er (mkEntry k v true) Her) as Hc.
    rewrite Hr in Hc. simpl in Hc.
    repeat split; try assumption; try lia.
    apply (live_keys_insert_free _ _ er); [assumption | assumption | reflexivity].
Qed.

Lemma copy_loop_spec (a : Map K V) :
  wf a -> NoDup (live_keys (m_entries a)) ->
  forall (fuel i : nat) m,
    fuel + i = m_capacity a -> copy_inv a i m ->
    exists c,
      copy_loop indet_key indet_value fuel i a m = Some c /\
      copy_inv a (m_capacity a) c.
Proof.
  intros (Hlen & Hcap & Hused) Hnodup.
  induction fuel as [|fuel IH];
    intros i m Hfuel (Hc & Hl & Hg & Hsound & Hkeys & Hcount & Hu & Hstored).
  - simpl. destruct (Nat.leb_spec (m_capacity m) i); [|lia].
    exists m. split; [reflexivity|].
    assert (Hi : m_capacity a = i) by lia. unfold copy_inv. rewrite Hi in *. tauto.
  - simpl. destruct (Nat.leb_spec (m_capacity m) i); [lia|].
    destruct (lookup_lt_is_Some_2 (m_entries a) i) as [e He]; [lia|].
    rewrite He. simpl.
    assert (Htake : take (S i) (m_entries a) = take i (m_entries a) ++ [e])
      by (apply take_S_r; assumption).
    replace (i + 1) with (S i) by lia.
    destruct (used e) eqn:Hue.
    + assert (Hfresh : key e ∉ live_keys (take i (m_entries a))).
      { rewrite <- (take_drop_middle (m_entries a) i e He) in Hnodup.
        rewrite live_keys_app, live_keys_cons, Hue in Hnodup.
        apply NoDup_app in Hnodup as (_ & Hdisj & _).
        intros Hin. apply (Hdisj _ Hin). apply elem_of_cons. left. reflexivity. }
      assert (Hroom : count_used (take (S i) (m_entries a)) <= m_capacity a).
      { rewrite <- Hlen. etransitivity; [apply count_used_le|]. rewrite length_take. lia. }
      rewrite Htake, count_used_app, count_used_single, Hue in Hroom.
      destruct (Insert_fixed_new (key e) (value e) m)
        as (m' & Hins & Hu' & Hc' & Hg' & Hl' & Hcount' & Hkeys');
        try assumption; try lia.
      { rewrite Hkeys. assumption. }
      rewrite Hins. simpl. apply IH; [lia|]. unfold copy_inv.
      split; [congruence|]. split; [congruence|]. split; [assumption|].
      split; [apply (Insert_sound indet_key indet_value (key e) (value e) m); assumption|].
      rewrite Htake, live_keys_app, count_used_app, live_keys_single, count_used_single, Hue.
      split; [rewrite Hkeys', Hkeys; apply Permutation_cons_append|].
      split; [lia|]. split; [lia|].
      intros j ej Hj Hej Huj. destruct (Nat.eq_dec j i) as [->|Hne].
      * rewrite He in Hej. injection Hej as <-.
        apply (Insert_stores _ _ m). assumption.
      * apply (Insert_keeps_live (key e) (value e) m);
          [assumption | apply (Hstored j ej); [lia | assumption | assumption] |].
        intros Heq. apply Hfresh. rewrite <- Heq. apply elem_of_live_keys.
        exists j, ej. rewrite lookup_take_lt by lia. auto.
    + simpl. apply IH; [lia|]. unfold copy_inv.
      rewrite Htake, live_keys_app, count_used_app, live_keys_single, count_used_single, Hue.
      rewrite app_nil_r.
      repeat split; try assumption; try lia.
      * destruct Hsound; assumption.
      * destruct Hsound; assumption.
      * intros j ej Hj Hej Huj. destruct (Nat.eq_dec j i) as [->|Hne]; [congruence|].
        apply (Hstored j ej); [lia | assumption | assumption].
Qed.

(** X13: on a well-formed map that does not grow and holds no key
    twice, the copy constructor gives a map in which every entry of the
    source is retrievable, and whose [GetSize()] is twice the number of
    its entries: [m_used] starts from the source's size and each [Insert]
    of the copying loop adds one. *)
Theorem copy_doubles_size (a : Map K V) :
  wf a -> NoDup (live_keys (m_entries a)) -> m_growable a = false ->
  exists c,
    copy indet_key indet_value a = Some c /\
    GetSize c = 2 * GetSize a /\
    length (live c) = GetSize a /\
    (forall k v, (k, v) ∈ live a -> Get k c = Some v).
Proof.
  intros Hwf Hnodup Hg. pose proof Hwf as (Hlen & Hcap & Hused).
  destruct (copy_loop_spec a Hwf Hnodup (m_capacity a) 0
              (mkMap (fresh_entries indet_key indet_value (m_capacity a)) (m_algorithm a)
                 (m_capacity a) (m_used a) (m_grow_factor a) (m_growable a)))
    as (c & Hrun & Hc & Hl & _ & Hsound & _ & Hcount & Hu & Hstored).
  - lia.
  - unfold copy_inv. simpl. rewrite take_0, count_used_fresh, live_keys_fresh.
    split; [reflexivity|]. split; [apply length_replicate|]. split; [assumption|].
    split; [|split; [reflexivity|split; [reflexivity|split; [unfold count_used; simpl; lia|]]]].
    + split.
      * intros i e Hi Hue. simpl in Hi. unfold fresh_entries in Hi.
        apply lookup_replicate_1 in Hi as [-> _]. discriminate.
      * simpl. rewrite live_keys_fresh. constructor.
    + intros j e Hj. lia.
  - exists c. unfold copy. rewrite Hlen. split; [assumption|].
    rewrite <- Hlen, firstn_all in Hcount, Hu. unfold GetSize.
    split; [lia|]. split; [rewrite length_live; lia|].
    intros k v Hin. apply sound_Get; [assumption|].
    apply elem_of_live in Hin as (j & e & Hj & Hue & <- & <-).
    apply (Hstored j e); [|assumption..].
    apply lookup_lt_Some in Hj. lia.
Qed.

End Facts.

Lemma lookup_matches_entries_witness :
  (forall v, Get 11 two_of_ten = Some v <-> (11, v) ∈ live two_of_ten) /\
  (Exists 11 two_of_ten = Some true <-> 11 ∈ live_keys (m_entries two_of_ten)).
Proof.
  apply (lookup_matches_entries 0 0 0 10%nat algorithms.FNV1a (7 # 10) true
           [OpInsert 1 100; OpInsert 11 200]).
  - repeat constructor.
  - reflexivity.
Defined.

Lemma full_table_lookup_diverges_witness :
  (forall fuel index, (index < m_capacity full_two)%nat ->
     probe fuel (m_entries full_two) (m_capacity full_two) 5 index = None) /\
  Exists 5 full_two = None /\ Get 5 full_two = None /\ Remove 5 full_two = None /\
  (m_growable full_two = false -> Insert 0 0 5 30 full_two = None).
Proof.
  apply (full_table_lookup_diverges 0 0 full_two 5 30).
  - unfold wf. simpl. repeat split; lia.
  - reflexivity.
  - intros Hin. apply list_elem_of_lookup_1 in Hin as [[|[|i]] Hi]; discriminate Hi.
Defined.

Lemma Remove_result_witness :
  (is_Some (Remove 1 two_of_ten) <-> Exists 1 two_of_ten = Some true) /\
  (forall m', Remove 1 two_of_ten = Some m' ->
     Exists 1 m' = Some false /\ Get 1 m' = None /\
     (m_used m' + 1)%nat = m_used two_of_ten).
Proof.
  apply (Remove_result 1 two_of_ten). unfold wf. simpl. repeat split; lia.
Defined.

Lemma GetSize_counts_entries_witness :
  m_used two_of_ten = length (live two_of_ten) /\
  length (m_entries two_of_ten) = m_capacity two_of_ten.
Proof.
  apply (GetSize_counts_entries 0 0 0 10%nat algorithms.FNV1a (7 # 10) true
           [OpInsert 1 100; OpInsert 11 200]).
  - lia.
  - reflexivity.
Defined.

(** [Insert(21, 300)] goes to slot [3]; key [11] is still found. *)
Lemma entries_survive_witness :
  Get 11
    (mkMap [mkEntry 0 0 false; mkEntry 1 100 true; mkEntry 11 200 true;
            mkEntry 21 300 true; mkEntry 0 0 false; mkEntry 0 0 false;
            mkEntry 0 0 false; mkEntry 0 0 false; mkEntry 0 0 false;
            mkEntry 0 0 false]
       algorithms.FNV1a 10 3 (7 # 10) true) = Some 200.
Proof.
  apply (entries_survive 0 0 0 (OpInsert 21 300) two_of_ten).
  - apply (run_sound 0 0 0 [OpInsert 1 100; OpInsert 11 200]
             (new 0 0 10%nat algorithms.FNV1a (7 # 10) true)).
    + repeat constructor.
    + apply new_sound.
    + reflexivity.
  - apply (list_elem_of_lookup_2 _ 1%nat). reflexivity.
  - exact I.
  - intros v0 Heq. discriminate Heq.
  - reflexivity.
Defined.

Lemma copy_doubles_size_witness :
  exists c,
    copy 0 0 full_two = Some c /\
    GetSize c = (2 * GetSize full_two)%nat /\
    length (live c) = GetSize full_two /\
    (forall k v, (k, v) ∈ live full_two -> Get k c = Some v).
Proof.
  apply (copy_doubles_size 0 0 full_two).
  - unfold wf. simpl. repeat split; lia.
  - apply NoDup_cons. split; [|apply NoDup_singleton].
    intros Hin. apply list_elem_of_singleton in Hin. discriminate Hin.
  - reflexivity.
Defined.

End MapOpsFacts.

(** * Bitset *)

Module BitsetFacts.
Import Bitset.

Section Facts.
Variable size : Z.
Variable indet : Z.
Implicit Types (b : Bitset) (d : list Z).

Lemma memset_spec d (c n : Z) :
  0 <= n <= Z.of_nat (length d) ->
  memset d c n = Some (replicate (Z.to_nat n) c ++ drop (Z.to_nat n) d).
Proof.
  intros Hn. unfold memset.
  destruct (for_up_inv
    (fun i d' => d' = replicate (Z.to_nat i) c ++ drop (Z.to_nat i) d)
    0 n (fun i d' => wr d' i c) d) as (d' & -> & ->).
  - lia.
  - reflexivity.
  - intros i d0 Hi ->.
    destruct (lookup_lt_is_Some_2 d (Z.to_nat i)) as [x Hx]; [lia|].
    rewrite (drop_S _ x _ Hx).
    rewrite (wr_at _ _ _ _ i) by (rewrite length_replicate; lia).
    eexists; split; [reflexivity|].
    replace (Z.to_nat (i + 1)) with (S (Z.to_nat i)) by lia.
    rewrite replicate_S_end, <- app_assoc. reflexivity.
  - reflexivity.
Qed.

Lemma bits_lookup b (i : Z) :
  0 <= i < m_size b -> m_size b <= Z.of_nat (length (m_bits b)) ->
  bits b !! Z.to_nat i = Some (IsSet indet i b).
Proof.
  intros Hi Hlen. unfold bits, IsSet. rewrite list_lookup_fmap.
  rewrite (rd_take indet) by lia. reflexivity.
Qed.

Lemma update_spec b (i x : Z) :
  wf size b -> 0 <= i < size -> x = bit0 \/ x = bit1 ->
  exists d,
    wr (m_bits b) i x = Some d /\
    wf size (set_bits b d) /\
    bits (set_bits b d) = <[Z.to_nat i := (x =? bit1)]> (bits b).
Proof.
  intros (Hsize & Hs & Hc & Hlen & Hall) Hi Hx.
  rewrite wr_ok by lia. eexists; split; [reflexivity|]. split.
  - unfold wf. simpl. rewrite length_insert. repeat split; try assumption.
    rewrite take_insert_lt by lia. apply Forall_insert; assumption.
  - unfold bits. simpl. rewrite Hs. rewrite take_insert_lt by lia.
    rewrite list_fmap_insert. reflexivity.
Qed.

(** X23: on a [Bitset<size>] and an index below [size], [IsSet] reads
    the bit, and [Set], [Reset(index)] and [Flip] complete and change
    that bit only: to set, to clear, and to its negation. *)
Theorem bit_updates b (i : Z) :
  wf size b -> 0 <= i < size ->
  bits b !! Z.to_nat i = Some (IsSet indet i b) /\
  (exists b', Set_ i b = Some b' /\ wf size b' /\
              bits b' = <[Z.to_nat i := true]> (bits b)) /\
  (exists b', Reset i b = Some b' /\ wf size b' /\
              bits b' = <[Z.to_nat i := false]> (bits b)) /\
  (exists b', Flip indet i b = Some b' /\ wf size b' /\
              bits b' = <[Z.to_nat i := negb (IsSet indet i b)]> (bits b)).
Proof.
  intros Hwf Hi. pose proof Hwf as (Hsize & Hs & Hc & Hlen & Hall).
  split; [apply bits_lookup; lia|]. split; [|split].
  - destruct (update_spec b i bit1 Hwf Hi) as (d & Hd & Hwf' & Hbits); [auto|].
    unfold Set_. rewrite Hd. simpl. eauto.
  - destruct (update_spec b i bit0 Hwf Hi) as (d & Hd & Hwf' & Hbits); [auto|].
    unfold Reset. rewrite Hd. simpl. eauto.
  - assert (Hold : rd indet (m_bits b) i = bit0 \/ rd indet (m_bits b) i = bit1).
    { rewrite Forall_lookup in Hall. apply (Hall (Z.to_nat i)). apply (rd_take indet); lia. }
    unfold Flip, IsSet.
    destruct Hold as [Hold|Hold]; rewrite Hold; simpl.
    + destruct (update_spec b i bit1 Hwf Hi) as (d & Hd & Hwf' & Hbits); [auto|].
      rewrite Hd. simpl. eauto.
    + destruct (update_spec b i bit0 Hwf Hi) as (d & Hd & Hwf' & Hbits); [auto|].
      rewrite Hd. simpl. eauto.
Qed.

Lemma new_spec :
  0 <= size ->
  exists b,
    new size indet = Some b /\ wf size b /\
    bits b = replicate (Z.to_nat size) false.
Proof.
  intros Hsize. unfold new, ResetAll. simpl.
  rewrite memset_spec by (rewrite length_alloc; lia). simpl.
  eexists; split; [reflexivity|]. split.
  - unfold wf. simpl. rewrite length_app, length_replicate, length_drop, length_alloc.
    repeat split; try lia.
    rewrite take_app_length' by (rewrite length_replicate; reflexivity).
    apply Forall_replicate. auto.
  - unfold bits. simpl.
    rewrite take_app_length' by (rewrite length_replicate; reflexivity).
    rewrite fmap_replicate. reflexivity.
Qed.

(** The number of set bits. *)
Lemma GetCount_loop_spec (n : nat) :
  forall (i : Z) d (result : Z),
    0 <= i -> i + Z.of_nat n <= Z.of_nat (length d) ->
    GetCount_loop indet n i d result
    = result + Z.of_nat (length (filter (fun x => x = bit1) (take n (drop (Z.to_nat i) d)))).
Proof.
  induction n as [|n IH]; intros i d result Hi Hlen.
  - simpl. lia.
  - simpl. destruct (lookup_lt_is_Some_2 d (Z.to_nat i)) as [x Hx]; [lia|].
    rewrite (rd_lookup indet d i x) by (assumption || lia).
    rewrite (drop_S d x _ Hx). simpl. rewrite filter_cons.
    rewrite IH by lia. replace (Z.to_nat (i + 1)) with (S (Z.to_nat i)) by lia.
    destruct (Z.eqb_spec x bit1) as [->|Hne].
    + rewrite decide_True by reflexivity. simpl. lia.
    + rewrite decide_False by assumption. lia.
Qed.

Lemma IsAny_loop_spec (n : nat) :
  forall (i : Z) d,
    0 <= i -> i + Z.of_nat n <= Z.of_nat (length d) ->
    (IsAny_loop indet n i d = true <-> bit1 ∈ take n (drop (Z.to_nat i) d)) /\
    IsNone_loop indet n i d = negb (IsAny_loop indet n i d).
Proof.
  induction n as [|n IH]; intros i d Hi Hlen.
  - simpl. split; [|reflexivity].
    split; [discriminate | intros Hin; apply elem_of_nil in Hin; contradiction].
  - simpl. destruct (lookup_lt_is_Some_2 d (Z.to_nat i)) as [x Hx]; [lia|].
    rewrite (rd_lookup indet d i x) by (assumption || lia).
    rewrite (drop_S d x _ Hx). simpl.
    destruct (IH (i + 1) d) as [Hany Hnone]; [lia | lia |].
    replace (Z.to_nat (i + 1)) with (S (Z.to_nat i)) in Hany by lia.
    destruct (Z.eqb_spec x bit1) as [->|Hne].
    + split; [|reflexivity]. split; [intros _; apply elem_of_cons; auto | reflexivity].
    + split; [|assumption]. rewrite Hany, elem_of_cons. split; [auto|].
      intros [Heq|Hin]; [congruence | assumption].
Qed.

Lemma filter_bits (l : list Z) :
  length (filter (fun x => x = bit1) l)
  = length (filter (fun x => x = true) ((fun x => x =? bit1) <$> l)).
Proof.
  induction l as [|x l IH]; [reflexivity|].
  rewrite fmap_cons, !filter_cons. destruct (Z.eqb_spec x bit1) as [->|Hne].
  - rewrite !decide_True by reflexivity. simpl. rewrite IH. reflexivity.
  - rewrite decide_False by assumption. rewrite decide_False by discriminate. exact IH.
Qed.

(** X24: [GetCount()] is the number of set bits among the first [size],
    [IsAny()] tells whether there is one, and [IsNone()] is its negation;
    a new bitset has none. *)
Theorem counting_agrees b :
  m_size b = size -> 0 <= size <= Z.of_nat (length (m_bits b)) ->
  GetCount indet b = Z.of_nat (length (filter (fun x => x = true) (bits b))) /\
  (IsAny indet b = true <-> true ∈ bits b) /\
  IsNone indet b = negb (IsAny indet b) /\
  (IsNone indet b = true <-> GetCount indet b = 0) /\
  (forall b0, new size indet = Some b0 ->
              IsNone indet b0 = true /\ GetCount indet b0 = 0).
Proof.
  intros Hs Hlen.
  assert (Hgen : forall b1, m_size b1 = size -> size <= Z.of_nat (length (m_bits b1)) ->
    GetCount indet b1 = Z.of_nat (length (filter (fun x => x = true) (bits b1))) /\
    (IsAny indet b1 = true <-> true ∈ bits b1) /\
    IsNone indet b1 = negb (IsAny indet b1)).
  { intros b1 Hs1 Hlen1. unfold GetCount, IsAny, IsNone, bits. rewrite Hs1.
    rewrite GetCount_loop_spec by lia.
    destruct (IsAny_loop_spec (Z.to_nat size) 0 (m_bits b1)) as [Hany Hnone]; [lia | lia |].
    simpl in *. rewrite drop_0 in *. split; [|split; [|assumption]].
    - rewrite filter_bits. reflexivity.
    - rewrite Hany, list_elem_of_fmap. split.
      + intros Hin. exists bit1. split; [reflexivity | assumption].
      + intros (x & Hx & Hin). symmetry in Hx. apply Z.eqb_eq in Hx. subst x. assumption. }
  destruct (Hgen b Hs) as (Hcount & Hany & Hnone); [lia|].
  assert (Hzero : forall l : list bool,
            length (filter (fun x => x = true) l) = 0%nat <-> true ∉ l).
  { intros l. induction l as [|x l IH]; [split; [intros _; apply not_elem_of_nil | reflexivity]|].
    rewrite filter_cons, not_elem_of_cons. destruct x.
    - rewrite decide_True by reflexivity. simpl. split; [discriminate | intros [? _]; congruence].
    - rewrite decide_False by discriminate. rewrite IH. split; [auto | intros [_ ?]; assumption]. }
  split; [assumption|]. split; [assumption|]. split; [assumption|]. split.
  - rewrite Hnone, Hcount, negb_true_iff.
    destruct (IsAny indet b) eqn:Ha.
    + split; [discriminate|]. intros Hz. exfalso.
      assert (Hl : length (filter (fun x => x = true) (bits b)) = 0%nat) by lia.
      apply Hzero in Hl. apply Hl. apply Hany. reflexivity.
    + split; [|reflexivity]. intros _.
      assert (Hl : true ∉ bits b) by (intros Hin; apply Hany in Hin; discriminate).
      apply Hzero in Hl. lia.
  - intros b0 Hnew. destruct (new_spec ltac:(lia)) as (b1 & Hb1 & Hwf1 & Hbits1).
    rewrite Hnew in Hb1. injection Hb1 as <-.
    destruct Hwf1 as (_ & Hs0 & _ & Hlen0 & _).
    destruct (Hgen b0 Hs0) as (Hcount0 & Hany0 & Hnone0); [lia|].
    assert (Hno : true ∉ bits b0).
    { rewrite Hbits1. intros Hin. apply elem_of_replicate in Hin as [? _]. discriminate. }
    split.
    + rewrite Hnone0. destruct (IsAny indet b0); [|reflexivity].
      exfalso. apply Hno, Hany0. reflexivity.
    + rewrite Hcount0. apply Hzero in Hno. lia.
Qed.

Lemma land_bits (l1 l2 : list Z) :
  Forall (fun x => x = bit0 \/ x = bit1) l1 ->
  Forall (fun x => x = bit0 \/ x = bit1) l2 ->
  Forall (fun x => x = bit0 \/ x = bit1) (zip_with Z.land l1 l2) /\
  (fun x => x =? bit1) <$> zip_with Z.land l1 l2
  = zip_with andb ((fun x => x =? bit1) <$> l1) ((fun x => x =? bit1) <$> l2).
Proof.
  intros H1. revert l2. induction H1 as [|x l1 Hx _ IH]; intros l2 H2.
  - split; [constructor | reflexivity].
  - destruct H2 as [|y l2 Hy H2]; [split; [constructor | reflexivity]|].
    destruct (IH l2 H2) as [Hall Heq]. split.
    + simpl. constructor; [|assumption].
      destruct Hx as [->| ->], Hy as [->| ->]; vm_compute; auto.
    + simpl zip_with. rewrite !fmap_cons. simpl zip_with. rewrite Heq.
      f_equal. destruct Hx as [->| ->], Hy as [->| ->]; reflexivity.
Qed.

(** X25: [operator&] on two [Bitset<size>] gives a [Bitset<size>] whose
    bits are the conjunctions of the operands' bits: the bitwise and of
    the characters ['0'] and ['1'] is ['1'] exactly when both are. *)
Theorem and_is_conjunction (a b : Bitset) :
  wf size a -> wf size b ->
  exists r,
    and_ size indet a b = Some r /\ wf size r /\
    bits r = zip_with andb (bits b) (bits a).
Proof.
  intros (Hsize & Hsa & Hca & Hla & Halla) (_ & Hsb & Hcb & Hlb & Hallb).
  unfold and_, VERIFY. rewrite Hsa, Hsb, Z.eqb_refl. simpl.
  destruct (new_spec Hsize) as (r0 & -> & (_ & Hs0 & Hc0 & Hl0 & _) & _). simpl.
  rewrite Hs0.
  destruct (for_up_inv
    (fun i d =>
       length d = length (m_bits r0) /\
       take (Z.to_nat i) d
       = zip_with Z.land (take (Z.to_nat i) (m_bits b)) (take (Z.to_nat i) (m_bits a)))
    0 size
    (fun i d => wr d i (Z.land (rd indet (m_bits b) i) (rd indet (m_bits a) i)))
    (m_bits r0)) as (d & -> & Hlen & Htake).
  - lia.
  - split; reflexivity.
  - intros i d Hi [Hlen Htake]. rewrite wr_ok by lia.
    eexists; split; [reflexivity|]. rewrite length_insert. split; [assumption|].
    replace (Z.to_nat (i + 1)) with (S (Z.to_nat i)) by lia.
    rewrite (take_insert_snoc d) by lia.
    rewrite (take_S_r (m_bits b) _ (rd indet (m_bits b) i)) by (apply (rd_ok indet); lia).
    rewrite (take_S_r (m_bits a) _ (rd indet (m_bits a) i)) by (apply (rd_ok indet); lia).
    rewrite zip_with_app by (rewrite !length_take; lia).
    rewrite Htake. reflexivity.
  - simpl. eexists; split; [reflexivity|].
    destruct (land_bits (take (Z.to_nat size) (m_bits b)) (take (Z.to_nat size) (m_bits a)))
      as [Hall Heq]; [assumption | assumption |].
    split.
    + unfold wf. simpl. rewrite Hlen, Htake. repeat split; assumption.
    + unfold bits. simpl. rewrite Hs0, Hsa, Hsb, Htake. assumption.
Qed.

End Facts.

Lemma wf_bits_0101 : wf 4 bits_0101.
Proof.
  unfold wf. simpl. repeat split; try lia.
  repeat (constructor; [(left; reflexivity) || (right; reflexivity)|]). constructor.
Defined.

Lemma wf_bits_1100 : wf 4 bits_1100.
Proof.
  unfold wf. simpl. repeat split; try lia.
  repeat (constructor; [(left; reflexivity) || (right; reflexivity)|]). constructor.
Defined.

Lemma bit_updates_witness :
  bits bits_0101 !! Z.to_nat 2 = Some (IsSet 0 2 bits_0101) /\
  (exists b', Set_ 2 bits_0101 = Some b' /\ wf 4 b' /\
              bits b' = <[Z.to_nat 2 := true]> (bits bits_0101)) /\
  (exists b', Reset 2 bits_0101 = Some b' /\ wf 4 b' /\
              bits b' = <[Z.to_nat 2 := false]> (bits bits_0101)) /\
  (exists b', Flip 0 2 bits_0101 = Some b' /\ wf 4 b' /\
              bits b' = <[Z.to_nat 2 := negb (IsSet 0 2 bits_0101)]> (bits bits_0101)).
Proof. apply (bit_updates 4 0 bits_0101 2); [apply wf_bits_0101 | lia]. Defined.

Lemma counting_agrees_witness :
  GetCount 0 bits_0101 = Z.of_nat (length (filter (fun x => x = true) (bits bits_0101))) /\
  (IsAny 0 bits_0101 = true <-> true ∈ bits bits_0101) /\
  IsNone 0 bits_0101 = negb (IsAny 0 bits_0101) /\
  (IsNone 0 bits_0101 = true <-> GetCount 0 bits_0101 = 0) /\
  (forall b0, new 4 0 = Some b0 -> IsNone 0 b0 = true /\ GetCount 0 b0 = 0).
Proof. apply (counting_agrees 4 0 bits_0101); [reflexivity | simpl; lia]. Defined.

Lemma and_is_conjunction_witness :
  exists r,
    and_ 4 0 bits_0101 bits_1100 = Some r /\ wf 4 r /\
    bits r = zip_with andb (bits bits_1100) (bits bits_0101).
Proof.
  apply (and_is_conjunction 4 0 bits_0101 bits_1100); [apply wf_bits_0101 | apply wf_bits_1100].
Defined.

End BitsetFacts.

(** * List, Stack and Queue *)

Module NtlListFacts.
Import NtlList.

#[local] Arguments load : simpl never.
#[local] Arguments store : simpl never.
#[local] Arguments set_next : simpl never.
#[local] Arguments set_value : simpl never.
#[local] Arguments delete_node : simpl never.

Section Facts.
Context {T : Type} `{EqDecision T}.
Variable indet : T.
Variable indet_next : option nat.
Implicit Types (h : list (option (Node T))) (l : List) (p q : ptr) (ps : list nat) (xs : list T)
  (n : Node T).

Lemma load_Some h (a : nat) n : load h (Some a) = Some n <-> h !! a = Some (Some n).
Proof.
  unfold load, heap. cbn [bind]. destruct (h !! a) as [[n'|]|]; cbn [bind]; split; congruence.
Qed.

Lemma load_lt h (a : nat) n : load h (Some a) = Some n -> (a < length h)%nat.
Proof. rewrite load_Some. apply lookup_lt_Some. Qed.

Lemma load_app h (k : list (option (Node T))) p n : load h p = Some n -> load (h ++ k) p = Some n.
Proof.
  destruct p as [a|]; [|discriminate]. intros Hl. apply load_Some in Hl. apply load_Some.
  apply lookup_app_l_Some. assumption.
Qed.

Lemma load_fresh h n : load (h ++ [Some n]) (Some (length h)) = Some n.
Proof.
  apply load_Some. unfold heap. rewrite lookup_app_r by lia. rewrite Nat.sub_diag. reflexivity.
Qed.

Lemma load_insert_eq h (a : nat) (v : option (Node T)) :
  (a < length h)%nat -> load (<[a := v]> h) (Some a) = v.
Proof.
  intros Hlt. unfold load, heap in *. cbn [bind]. rewrite list_lookup_insert_eq by assumption.
  reflexivity.
Qed.

Lemma load_insert_ne h (a b : nat) (v : option (Node T)) :
  a <> b -> load (<[a := v]> h) (Some b) = load h (Some b).
Proof.
  intros Hne. unfold load, heap in *. cbn [bind]. rewrite list_lookup_insert_ne by assumption.
  reflexivity.
Qed.

Lemma store_ok h (a : nat) n0 n :
  load h (Some a) = Some n0 -> store h (Some a) n = Some (<[a := Some n]> h).
Proof. intros Hl. unfold store. cbn [bind]. rewrite Hl. reflexivity. Qed.

Lemma set_next_ok h (a : nat) n0 q :
  load h (Some a) = Some n0 ->
  set_next h (Some a) q = Some (<[a := Some (mkNode (value n0) q)]> h).
Proof. intros Hl. unfold set_next. rewrite Hl. cbn [bind]. apply (store_ok _ _ n0). assumption. Qed.

Lemma set_value_ok h (a : nat) n0 x :
  load h (Some a) = Some n0 ->
  set_value h (Some a) x = Some (<[a := Some (mkNode x (next n0))]> h).
Proof. intros Hl. unfold set_value. rewrite Hl. cbn [bind]. apply (store_ok _ _ n0). assumption. Qed.

Lemma delete_node_ok h (a : nat) n0 :
  load h (Some a) = Some n0 -> delete_node h (Some a) = Some (<[a := None]> h).
Proof. intros Hl. unfold delete_node. rewrite Hl. reflexivity. Qed.

(** ** Chains *)

Lemma chain_length h p ps xs : chain h p ps xs -> length ps = length xs.
Proof.
  revert p xs. induction ps as [|a ps IH]; intros p [|x xs] Hc; simpl in Hc;
    try contradiction; [reflexivity|].
  destruct Hc as (_ & q & _ & Hc). simpl. f_equal. apply (IH q). assumption.
Qed.

Lemma chain_frame h h' p ps xs :
  chain h p ps xs ->
  (forall a, a ∈ ps -> load h' (Some a) = load h (Some a)) ->
  chain h' p ps xs.
Proof.
  revert p xs. induction ps as [|a ps IH]; intros p [|x xs] Hc Hsame; simpl in *;
    try contradiction; [assumption|].
  destruct Hc as (Hp & q & Hl & Hc). split; [assumption|]. exists q. split.
  - rewrite Hsame by (apply elem_of_cons; auto). assumption.
  - apply IH; [assumption|]. intros b Hb. apply Hsame. apply elem_of_cons. auto.
Qed.

Lemma chain_lt h p ps xs (a : nat) : chain h p ps xs -> a ∈ ps -> (a < length h)%nat.
Proof.
  revert p xs. induction ps as [|b ps IH]; intros p [|x xs] Hc Hin; simpl in Hc;
    try contradiction; [apply elem_of_nil in Hin; contradiction|].
  destruct Hc as (_ & q & Hl & Hc). apply elem_of_cons in Hin as [->|Hin].
  - apply (load_lt _ _ _ Hl).
  - apply (IH q xs); assumption.
Qed.

Lemma last_cons (ps : list nat) : forall a a0 : nat, List.last (a :: ps) a0 = List.last ps a.
Proof.
  induction ps as [|c ps IH]; intros a a0; [reflexivity|].
  change (List.last (a :: c :: ps) a0) with (List.last (c :: ps) a0).
  rewrite (IH c a0), (IH c a). reflexivity.
Qed.

(** Linking a new last node behind a chain. *)
Lemma chain_snoc ps :
  forall h p xs (a0 b : nat) (v0 x : T),
    chain h p ps xs -> NoDup (a0 :: ps) -> b ∉ a0 :: ps ->
    load h (Some a0) = Some (mkNode v0 p) ->
    load h (Some b) = Some (mkNode x None) ->
    exists h' n,
      set_next h (Some (List.last ps a0)) (Some b) = Some h' /\
      load h' (Some a0) = Some n /\ value n = v0 /\
      chain h' (next n) (ps ++ [b]) (xs ++ [x]) /\
      length h' = length h /\
      (forall c, c ∉ a0 :: ps -> load h' (Some c) = load h (Some c)).
Proof.
  induction ps as [|a ps IH]; intros h p xs a0 b v0 x Hc Hnd Hb H0 Hnew.
  - destruct xs as [|? ?]; simpl in Hc; [|contradiction]. subst p. simpl.
    rewrite (set_next_ok _ _ _ _ H0). simpl.
    assert (Hne : a0 <> b) by (intros ->; apply Hb; apply elem_of_cons; auto).
    eexists _, _. split; [reflexivity|].
    split; [apply load_insert_eq; apply (load_lt _ _ _ H0)|].
    split; [reflexivity|]. simpl. split; [|split].
    + split; [reflexivity|]. exists None. split; [|reflexivity].
      rewrite load_insert_ne by assumption. assumption.
    + apply length_insert.
    + intros c Hc'. apply load_insert_ne. intros ->. apply Hc'. apply elem_of_cons. auto.
  - destruct xs as [|y xs]; simpl in Hc; [contradiction|].
    destruct Hc as (-> & q & Hl & Hc).
    apply NoDup_cons in Hnd as [Ha0 Hnd].
    assert (Hba : b ∉ a :: ps) by (intros Hin; apply Hb; apply elem_of_cons; auto).
    destruct (IH h q xs a b y x Hc Hnd Hba Hl Hnew) as (h' & n & Hset & Hn & Hv & Hc' & Hlen & Hframe).
    rewrite last_cons. exists h', (mkNode v0 (Some a)).
    split; [assumption|].
    assert (H0' : load h' (Some a0) = Some (mkNode v0 (Some a))).
    { rewrite Hframe; [assumption|]. assumption. }
    split; [assumption|]. split; [reflexivity|]. simpl. split; [|split].
    + split; [reflexivity|]. exists (next n). destruct n as [vn qn]. simpl in *. subst vn.
      split; assumption.
    + assumption.
    + intros c Hc0. apply Hframe. intros Hin. apply Hc0. apply elem_of_cons. auto.
Qed.

(** ** The operations on a list that holds [xs] *)

Lemma new_holds h :
  exists h' l, new indet indet_next h = Some (h', l) /\ holds h' l [].
Proof.
  unfold new, new_node.
  rewrite (set_next_ok _ _ _ _ (load_fresh h _)). cbn [bind value].
  eexists _, _. split; [reflexivity|].
  exists (length h), indet, None, []. simpl.
  split; [reflexivity|]. split.
  - apply load_insert_eq. rewrite length_app. simpl. lia.
  - split; [reflexivity|]. split; [|auto].
    apply NoDup_singleton.
Qed.

Lemma holds_fresh h l xs (a0 : nat) ps :
  m_head l = Some a0 -> (exists n, load h (Some a0) = Some n) ->
  (forall a, a ∈ ps -> (a < length h)%nat) ->
  length h ∉ a0 :: ps.
Proof.
  intros _ [n Hn] Hlt Hin. apply elem_of_cons in Hin as [Heq|Hin].
  - apply load_lt in Hn. lia.
  - apply Hlt in Hin. lia.
Qed.

(** [InsertFront] does not read [m_tail] of an empty list. *)
Lemma InsertFront_chain h l xs (x : T) (a0 : nat) v0 q ps :
  m_head l = Some a0 -> load h (Some a0) = Some (mkNode v0 q) ->
  chain h q ps xs -> NoDup (a0 :: ps) ->
  (ps <> [] -> m_tail l = Some (List.last ps a0)) ->
  m_size l = Z.of_nat (length xs) ->
  Z.of_nat (length xs) + 1 < 2 ^ 64 ->
  exists h' l' r,
    InsertFront indet indet_next x h l = Some (h', l', r) /\
    holds h' l' (x :: xs) /\ m_size l' = m_size l + 1.
Proof.
  intros Hhead H0 Hc Hnd Htail Hsize Hbound.
  assert (Hu : U64 (m_size l + 1) = Z.of_nat (length xs) + 1).
  { rewrite Hsize. unfold U64. rewrite Z.mod_small; lia. }
  assert (Hfresh : length h ∉ a0 :: ps).
  { apply (holds_fresh h l xs); [assumption | eauto |].
    intros a Ha. apply (chain_lt h q ps xs); assumption. }
  assert (Hne0 : length h <> a0) by (intros Heq; apply Hfresh; rewrite Heq; apply elem_of_cons; auto).
  unfold InsertFront, new_node. rewrite Hhead.
  rewrite (load_app _ _ _ _ H0). cbn [bind next].
  rewrite (set_value_ok _ _ _ x (load_fresh h _)). cbn [bind next].
  set (h1 := <[length h := Some (mkNode x indet_next)]> (h ++ [Some (mkNode indet indet_next)])).
  assert (Hl1 : load h1 (Some (length h)) = Some (mkNode x indet_next)).
  { apply load_insert_eq. rewrite length_app. simpl. lia. }
  rewrite (set_next_ok _ _ _ q Hl1). cbn [bind value].
  set (h2 := <[length h := Some (mkNode x q)]> h1).
  assert (H02 : load h2 (Some a0) = Some (mkNode v0 q)).
  { unfold h2, h1. rewrite !load_insert_ne by assumption. apply load_app. assumption. }
  assert (Hhead' : m_head (if is_null q then set_tail l (Some (length h)) else l) = Some a0)
    by (destruct (is_null q); assumption).
  rewrite Hhead'. rewrite (set_next_ok _ _ _ (Some (length h)) H02). cbn [bind value].
  eexists _, _, _. split; [reflexivity|]. split.
  - exists a0, v0, (Some (length h)), (length h :: ps). simpl.
    assert (Hlen2 : length h2 = S (length h)).
    { unfold h2, h1. rewrite !length_insert, length_app. simpl. lia. }
    split; [assumption|]. split; [apply load_insert_eq; rewrite Hlen2; apply load_lt in H0; lia|].
    split; [|split; [|split]].
    + split; [reflexivity|]. exists q. split.
      * rewrite load_insert_ne by congruence. unfold h2. apply load_insert_eq.
        unfold h1. rewrite length_insert, length_app. simpl. lia.
      * apply (chain_frame h); [assumption|]. intros a Ha.
        assert (Hlt : (a < length h)%nat) by (apply (chain_lt h q ps xs); assumption).
        assert (Ha0 : a0 <> a).
        { intros ->. apply NoDup_cons in Hnd as [Hnot _]. contradiction. }
        rewrite load_insert_ne by assumption. unfold h2, h1.
        rewrite !load_insert_ne by lia.
        unfold load. cbn [bind]. unfold heap. rewrite lookup_app_l by assumption. reflexivity.
    + apply NoDup_cons in Hnd as [Hnot Hnd]. apply NoDup_cons. split.
      * intros Hin. apply elem_of_cons in Hin as [Heq|Hin]; [congruence | contradiction].
      * apply NoDup_cons. split; [|assumption].
        intros Hin. apply Hfresh. apply elem_of_cons. auto.
    + destruct ps as [|b ps'].
      * destruct xs; simpl in Hc; [|contradiction]. subst q. reflexivity.
      * destruct xs as [|y xs']; simpl in Hc; [contradiction|]. destruct Hc as (-> & _).
        simpl. apply Htail. discriminate.
    + destruct (is_null q); cbn [set_size set_tail m_size]; rewrite Hu; simpl length; lia.
  - destruct (is_null q); cbn [set_size set_tail m_size]; rewrite Hu, Hsize; reflexivity.
Qed.

Lemma InsertFront_holds h l xs (x : T) :
  holds h l xs -> Z.of_nat (length xs) + 1 < 2 ^ 64 ->
  exists h' l' r,
    InsertFront indet indet_next x h l = Some (h', l', r) /\
    holds h' l' (x :: xs) /\ m_size l' = m_size l + 1.
Proof.
  intros (a0 & v0 & q & ps & Hhead & H0 & Hc & Hnd & Htail & Hsize) Hbound.
  apply (InsertFront_chain h l xs x a0 v0 q ps); auto.
Qed.

Lemma InsertBack_holds h l xs (x : T) :
  holds h l xs -> Z.of_nat (length xs) + 1 < 2 ^ 64 ->
  exists h' l' r,
    InsertBack indet indet_next x h l = Some (h', l', r) /\
    holds h' l' (xs ++ [x]) /\ m_size l' = m_size l + 1.
Proof.
  intros (a0 & v0 & q & ps & Hhead & H0 & Hc & Hnd & Htail & Hsize) Hbound.
  assert (Hu : U64 (m_size l + 1) = Z.of_nat (length xs) + 1).
  { rewrite Hsize. unfold U64. rewrite Z.mod_small; lia. }
  assert (Hfresh : length h ∉ a0 :: ps).
  { apply (holds_fresh h l xs); [assumption | eauto |].
    intros a Ha. apply (chain_lt h q ps xs); assumption. }
  unfold InsertBack, new_node.
  rewrite (set_value_ok _ _ _ x (load_fresh h _)). cbn [bind next].
  set (h1 := <[length h := Some (mkNode x indet_next)]> (h ++ [Some (mkNode indet indet_next)])).
  assert (Hl1 : load h1 (Some (length h)) = Some (mkNode x indet_next)).
  { apply load_insert_eq. rewrite length_app. simpl. lia. }
  rewrite (set_next_ok _ _ _ None Hl1). cbn [bind value].
  set (h2 := <[length h := Some (mkNode x None)]> h1).
  assert (Hold : forall a, (a < length h)%nat -> load h2 (Some a) = load h (Some a)).
  { intros a Hlt. unfold h2, h1. rewrite !load_insert_ne by lia.
    unfold load. cbn [bind]. unfold heap. rewrite lookup_app_l by assumption. reflexivity. }
  assert (Hc2 : chain h2 q ps xs).
  { apply (chain_frame h); [assumption|]. intros a Ha. apply Hold.
    apply (chain_lt h q ps xs); assumption. }
  assert (H02 : load h2 (Some a0) = Some (mkNode v0 q)).
  { rewrite Hold; [assumption | apply (load_lt _ _ _ H0)]. }
  assert (Hnew : load h2 (Some (length h)) = Some (mkNode x None)).
  { unfold h2. apply load_insert_eq. unfold h1. rewrite length_insert, length_app. simpl. lia. }
  destruct (chain_snoc ps h2 q xs a0 (length h) v0 x Hc2 Hnd Hfresh H02 Hnew)
    as (h' & n & Hset & Hn & Hv & Hc' & Hlen & Hframe).
  rewrite Htail, Hset. cbn [bind].
  eexists _, _, _. split; [reflexivity|].
  split; [|cbn [set_size set_tail m_size]; rewrite Hu, Hsize; reflexivity].
  exists a0, v0, (next n), (ps ++ [length h]). cbn [set_size set_tail m_size m_head m_tail].
  split; [assumption|]. split; [destruct n; simpl in *; subst; assumption|].
  split; [assumption|]. split; [|split].
  - apply NoDup_cons in Hnd as [Hnot Hnd]. apply NoDup_cons. split.
    + intros Hin. apply elem_of_app in Hin as [Hin|Hin]; [contradiction|].
      apply list_elem_of_singleton in Hin. apply Hfresh. rewrite <- Hin. apply elem_of_cons. auto.
    + apply NoDup_app. split; [assumption|]. split; [|apply NoDup_singleton].
      intros a Ha Hin. apply list_elem_of_singleton in Hin. subst a.
      apply Hfresh. apply elem_of_cons. auto.
  - rewrite List.last_last. reflexivity.
  - rewrite Hu, length_app. simpl. lia.
Qed.

Lemma front_node h l xs (x : T) :
  holds h l (x :: xs) ->
  exists (a : nat) q,
    GetFront h l = Some (Some a) /\ load h (Some a) = Some (mkNode x q).
Proof.
  intros (a0 & v0 & q & ps & Hhead & H0 & Hc & _).
  destruct ps as [|a ps]; simpl in Hc; [contradiction|].
  destruct Hc as (-> & q' & Hl & _).
  exists a, q'. unfold GetFront. rewrite Hhead, H0. auto.
Qed.

Lemma front_null h l : holds h l [] -> GetFront h l = Some None.
Proof.
  intros (a0 & v0 & q & ps & Hhead & H0 & Hc & _).
  destruct ps; simpl in Hc; [|contradiction]. subst q.
  unfold GetFront. rewrite Hhead, H0. reflexivity.
Qed.

Lemma RemoveAfter_head_holds h l xs (x : T) :
  holds h l (x :: xs) -> Z.of_nat (length xs) < 2 ^ 64 ->
  exists h' l',
    RemoveAfter (GetHead l) h l = Some (h', l') /\
    holds h' l' xs /\ m_size l' = m_size l - 1.
Proof.
  intros (a0 & v0 & q & ps & Hhead & H0 & Hc & Hnd & Htail & Hsize) Hbound.
  destruct ps as [|a ps]; simpl in Hc; [contradiction|].
  destruct Hc as (-> & q' & Hl & Hc).
  apply NoDup_cons in Hnd as [Hnot0 Hnd]. apply NoDup_cons in Hnd as [Hnota Hnd].
  assert (Hne : a0 <> a) by (intros ->; apply Hnot0; apply elem_of_cons; auto).
  unfold RemoveAfter, GetHead. rewrite Hhead. cbn [is_null negb VERIFY bind].
  rewrite H0. cbn [bind next is_null negb VERIFY]. rewrite Hl. cbn [bind next].
  rewrite (delete_node_ok _ _ _ Hl). cbn [bind].
  assert (H01 : load (<[a := None]> h) (Some a0) = Some (mkNode v0 (Some a))).
  { rewrite load_insert_ne by congruence. assumption. }
  rewrite (set_next_ok _ _ _ q' H01). cbn [bind value].
  assert (Hu : U64 (m_size l - 1) = Z.of_nat (length xs)).
  { rewrite Hsize. unfold U64. simpl length. rewrite Z.mod_small; lia. }
  eexists _, _. split; [reflexivity|]. split.
  - exists a0, v0, q', ps.
    split; [destruct (is_null q'); assumption|].
    split; [apply load_insert_eq; rewrite length_insert; apply (load_lt _ _ _ H0)|].
    split; [|split; [|split]].
    + apply (chain_frame h); [assumption|]. intros b Hb.
      rewrite !load_insert_ne; [reflexivity | | ].
      * intros ->. contradiction.
      * intros ->. apply Hnot0. apply elem_of_cons. auto.
    + apply NoDup_cons. split; [|assumption].
      intros Hin. apply Hnot0. apply elem_of_cons. auto.
    + destruct ps as [|b ps'].
      * destruct xs; simpl in Hc; [|contradiction]. subst q'. reflexivity.
      * destruct xs as [|y xs']; simpl in Hc; [contradiction|]. destruct Hc as (-> & _).
        cbn [is_null set_size m_tail]. rewrite Htail, !last_cons. reflexivity.
    + destruct (is_null q'); simpl; rewrite Hu; reflexivity.
  - destruct (is_null q'); simpl; rewrite Hu, Hsize; simpl length; lia.
Qed.

(** ** Walking a chain *)

(** A chain visits no address twice, so it is no longer than the heap. *)
Lemma chain_fuel h p ps xs : chain h p ps xs -> NoDup ps -> (length ps <= length h)%nat.
Proof.
  intros Hc Hnd.
  assert (Hsub : ps ⊆+ seq 0 (length h)).
  { apply NoDup_submseteq; [assumption|].
    intros a Ha. apply elem_of_seq. split; [lia|]. simpl. apply (chain_lt h p ps xs); assumption. }
  apply submseteq_length in Hsub. rewrite length_seq in Hsub. exact Hsub.
Qed.

Lemma chain_null h p ps xs : chain h p ps xs -> is_null p = true -> ps = [] /\ xs = [].
Proof.
  destruct ps as [|a ps], xs as [|x xs]; simpl; try contradiction; [auto|].
  intros (-> & _). discriminate.
Qed.

Lemma last_elem (ps : list nat) : forall a : nat, List.last ps a ∈ a :: ps.
Proof.
  induction ps as [|b ps IH]; intros a; [apply elem_of_cons; auto|].
  rewrite last_cons. apply elem_of_cons. right. apply IH.
Qed.

Lemma FindElement_loop_eq fuel (x : T) h p :
  FindElement_loop fuel x h p =
  (node <- load h p ;;
   if is_null (next node) then Some p
   else
     n <- load h (next node) ;;
     if bool_decide (value n = x) then Some (next node)
     else match fuel with
          | O => None
          | S fuel' => FindElement_loop fuel' x h (next node)
          end).
Proof. destruct fuel; reflexivity. Qed.

Lemma FindElement_loop_absent ps :
  forall h (curr : nat) v0 q xs (x : T) fuel,
    load h (Some curr) = Some (mkNode v0 q) -> chain h q ps xs -> x ∉ xs ->
    (length ps <= fuel)%nat ->
    FindElement_loop fuel x h (Some curr) = Some (Some (List.last ps curr)).
Proof.
  induction ps as [|a ps IH]; intros h curr v0 q xs x fuel H0 Hc Hx Hfuel;
    rewrite FindElement_loop_eq, H0; cbn [bind next].
  - destruct xs; simpl in Hc; [|contradiction]. subst q. reflexivity.
  - destruct xs as [|y xs]; simpl in Hc; [contradiction|].
    destruct Hc as (-> & q' & Hl & Hc). cbn [is_null]. rewrite Hl. cbn [bind value].
    rewrite bool_decide_eq_false_2
      by (intros ->; apply Hx; apply elem_of_cons; auto).
    destruct fuel as [|fuel]; [simpl in Hfuel; lia|].
    rewrite last_cons. apply (IH h a y q' xs); [assumption | assumption | | simpl in Hfuel; lia].
    intros Hin. apply Hx. apply elem_of_cons. auto.
Qed.

Lemma FindElement_loop_present pre :
  forall ps h (curr : nat) v0 q post (x : T) fuel,
    load h (Some curr) = Some (mkNode v0 q) -> chain h q ps (pre ++ x :: post) ->
    x ∉ pre -> (length ps <= fuel)%nat ->
    exists (a : nat) q' ps',
      a ∈ ps /\
      FindElement_loop fuel x h (Some curr) = Some (Some a) /\
      load h (Some a) = Some (mkNode x q') /\ chain h q' ps' post.
Proof.
  induction pre as [|y pre IH]; intros ps h curr v0 q post x fuel H0 Hc Hx Hfuel;
    rewrite FindElement_loop_eq, H0; cbn [bind next];
    (destruct ps as [|a ps]; simpl in Hc; [contradiction|]);
    destruct Hc as (-> & q' & Hl & Hc); cbn [is_null]; rewrite Hl; cbn [bind value].
  - rewrite bool_decide_eq_true_2 by reflexivity.
    exists a, q', ps. split; [apply elem_of_cons; auto|]. auto.
  - rewrite bool_decide_eq_false_2
      by (intros ->; apply Hx; apply elem_of_cons; auto).
    destruct fuel as [|fuel]; [simpl in Hfuel; lia|].
    destruct (IH ps h a y q' post x fuel Hl Hc) as (b & qb & ps' & Hin & Hrun & Hb & Hcb).
    + intros Hin. apply Hx. apply elem_of_cons. auto.
    + simpl in Hfuel. lia.
    + exists b, qb, ps'. split; [apply elem_of_cons; auto|]. auto.
Qed.

Lemma RemoveElement_loop_eq fuel (x : T) h l p :
  RemoveElement_loop fuel x h l p =
  (node <- load h p ;;
   if is_null (next node) then Some (h, l, false)
   else
     victim <- load h (next node) ;;
     if bool_decide (value victim = x) then
       let temp := next victim in
       h <- delete_node h (next node) ;;
       h <- set_next h p temp ;;
       let l := if is_null temp then set_tail l p else l in
       Some (h, l, true)
     else match fuel with
          | O => None
          | S fuel' => RemoveElement_loop fuel' x h l (next node)
          end).
Proof. destruct fuel; reflexivity. Qed.

Lemma RemoveElement_loop_absent ps :
  forall h l (curr : nat) v0 q xs (x : T) fuel,
    load h (Some curr) = Some (mkNode v0 q) -> chain h q ps xs -> x ∉ xs ->
    (length ps <= fuel)%nat ->
    RemoveElement_loop fuel x h l (Some curr) = Some (h, l, false).
Proof.
  induction ps as [|a ps IH]; intros h l curr v0 q xs x fuel H0 Hc Hx Hfuel;
    rewrite RemoveElement_loop_eq, H0; cbn [bind next].
  - destruct xs; simpl in Hc; [|contradiction]. subst q. reflexivity.
  - destruct xs as [|y xs]; simpl in Hc; [contradiction|].
    destruct Hc as (-> & q' & Hl & Hc). cbn [is_null]. rewrite Hl. cbn [bind value].
    rewrite bool_decide_eq_false_2
      by (intros ->; apply Hx; apply elem_of_cons; auto).
    destruct fuel as [|fuel]; [simpl in Hfuel; lia|].
    apply (IH h l a y q' xs); [assumption | assumption | | simpl in Hfuel; lia].
    intros Hin. apply Hx. apply elem_of_cons. auto.
Qed.

(** Unlinking the first node that holds [x]. *)
Lemma RemoveElement_loop_present pre :
  forall ps h l (curr : nat) v0 q post (x : T) fuel,
    load h (Some curr) = Some (mkNode v0 q) -> chain h q ps (pre ++ x :: post) ->
    NoDup (curr :: ps) -> x ∉ pre -> (length ps <= fuel)%nat ->
    exists h' l' q' ps',
      RemoveElement_loop fuel x h l (Some curr) = Some (h', l', true) /\
      load h' (Some curr) = Some (mkNode v0 q') /\
      chain h' q' ps' (pre ++ post) /\
      NoDup (curr :: ps') /\
      (forall a, a ∈ ps' -> a ∈ ps) /\
      (forall c, c ∉ curr :: ps -> load h' (Some c) = load h (Some c)) /\
      m_head l' = m_head l /\ m_size l' = m_size l /\
      (post = [] -> m_tail l' = Some (List.last ps' curr)) /\
      (post <> [] -> m_tail l' = m_tail l /\ List.last ps' curr = List.last ps curr).
Proof.
  induction pre as [|y pre IH]; intros ps h l curr v0 q post x fuel H0 Hc Hnd Hx Hfuel;
    rewrite RemoveElement_loop_eq, H0; cbn [bind next];
    (destruct ps as [|a ps]; simpl in Hc; [contradiction|]);
    destruct Hc as (-> & q' & Hl & Hc); cbn [is_null]; rewrite Hl; cbn [bind value next];
    apply NoDup_cons in Hnd as [Hnot0 Hnd]; pose proof Hnd as Hnd';
    apply NoDup_cons in Hnd' as [Hnota Hndps];
    assert (Hne : curr <> a) by (intros ->; apply Hnot0; apply elem_of_cons; auto).
  - rewrite bool_decide_eq_true_2 by reflexivity.
    rewrite (delete_node_ok _ _ _ Hl). cbn [bind].
    assert (H01 : load (<[a := None]> h) (Some curr) = Some (mkNode v0 (Some a))).
    { rewrite load_insert_ne by congruence. assumption. }
    rewrite (set_next_ok _ _ _ q' H01). cbn [bind value].
    eexists _, _, q', ps. split; [reflexivity|].
    split; [apply load_insert_eq; rewrite length_insert; apply (load_lt _ _ _ H0)|].
    split; [|split; [|split; [|split; [|split; [|split; [|split]]]]]].
    + apply (chain_frame h); [assumption|]. intros b Hb.
      rewrite !load_insert_ne; [reflexivity | | ].
      * intros ->. contradiction.
      * intros ->. apply Hnot0. apply elem_of_cons. auto.
    + apply NoDup_cons. split; [|assumption].
      intros Hin. apply Hnot0. apply elem_of_cons. auto.
    + intros b Hb. apply elem_of_cons. auto.
    + intros c Hc'. rewrite !load_insert_ne; [reflexivity | | ].
      * intros ->. apply Hc'. apply elem_of_cons. right. apply elem_of_cons. auto.
      * intros ->. apply Hc'. apply elem_of_cons. auto.
    + destruct (is_null q'); reflexivity.
    + destruct (is_null q'); reflexivity.
    + intros ->. simpl in Hc. destruct ps; simpl in Hc; [|contradiction]. subst q'. reflexivity.
    + intros Hpost. destruct ps as [|b ps]; simpl in Hc.
      * destruct post; [congruence | contradiction].
      * destruct post as [|z post]; [contradiction|]. destruct Hc as (-> & _).
        split; [reflexivity|]. rewrite !last_cons. reflexivity.
  - rewrite bool_decide_eq_false_2
      by (intros ->; apply Hx; apply elem_of_cons; auto).
    destruct fuel as [|fuel]; [simpl in Hfuel; lia|].
    destruct (IH ps h l a y q' post x fuel Hl Hc Hnd)
      as (h' & l' & q1 & ps' & Hrun & Ha & Hc' & Hnd1 & Hsub & Hframe & Hh & Hs & Ht1 & Ht2).
    + intros Hin. apply Hx. apply elem_of_cons. auto.
    + simpl in Hfuel. lia.
    + exists h', l', (Some a), (a :: ps'). split; [assumption|].
      split; [rewrite Hframe by assumption; assumption|].
      split; [|split; [|split; [|split; [|split; [|split; [|split]]]]]].
      * simpl. split; [reflexivity|]. exists q1. split; assumption.
      * apply NoDup_cons. split; [|assumption].
        intros Hin. apply Hnot0. apply elem_of_cons in Hin as [->|Hin]; [congruence|].
        apply elem_of_cons. right. apply Hsub. assumption.
      * intros b Hb. apply elem_of_cons in Hb as [->|Hb]; apply elem_of_cons; auto.
      * intros c Hc0. apply Hframe. intros Hin. apply Hc0. apply elem_of_cons. auto.
      * assumption.
      * assumption.
      * intros Hpost. rewrite last_cons. apply Ht1. assumption.
      * intros Hpost. rewrite !last_cons. apply Ht2. assumption.
Qed.

Lemma Clear_loop_eq fuel h p :
  Clear_loop fuel h p =
  (if is_null p then Some h
   else match fuel with
        | O => None
        | S fuel' =>
            node <- load h p ;;
            h <- delete_node h p ;;
            Clear_loop fuel' h (next node)
        end).
Proof. destruct fuel; reflexivity. Qed.

(** [Clear] frees every node of the chain and nothing else. *)
Lemma Clear_loop_spec ps :
  forall h q xs fuel,
    chain h q ps xs -> NoDup ps -> (length ps <= fuel)%nat ->
    exists h',
      Clear_loop fuel h q = Some h' /\ length h' = length h /\
      (forall a, a ∈ ps -> load h' (Some a) = None) /\
      (forall c, c ∉ ps -> load h' (Some c) = load h (Some c)).
Proof.
  induction ps as [|a ps IH]; intros h q xs fuel Hc Hnd Hfuel; rewrite Clear_loop_eq.
  - destruct xs; simpl in Hc; [|contradiction]. subst q. simpl.
    exists h. split; [reflexivity|]. split; [reflexivity|].
    split; [|auto]. intros a Ha. apply elem_of_nil in Ha. contradiction.
  - destruct xs as [|y xs]; simpl in Hc; [contradiction|].
    destruct Hc as (-> & q' & Hl & Hc). cbn [is_null].
    destruct fuel as [|fuel]; [simpl in Hfuel; lia|].
    rewrite Hl. cbn [bind next]. rewrite (delete_node_ok _ _ _ Hl). cbn [bind].
    apply NoDup_cons in Hnd as [Hnot Hnd].
    assert (Hc1 : chain (<[a := None]> h) q' ps xs).
    { apply (chain_frame h); [assumption|]. intros b Hb. apply load_insert_ne.
      intros ->. contradiction. }
    destruct (IH _ q' xs fuel Hc1 Hnd) as (h' & Hrun & Hlen & Hfreed & Hframe);
      [simpl in Hfuel; lia|].
    exists h'. split; [assumption|]. split; [rewrite Hlen; apply length_insert|]. split.
    + intros b Hb. apply elem_of_cons in Hb as [->|Hb]; [|apply Hfreed; assumption].
      rewrite Hframe by assumption. apply load_insert_eq. apply (load_lt _ _ _ Hl).
    + intros c Hc0. rewrite Hframe.
      * apply load_insert_ne. intros ->. apply Hc0. apply elem_of_cons. auto.
      * intros Hin. apply Hc0. apply elem_of_cons. auto.
Qed.

(** ** The list operations *)

(** X26: on a list that holds [xs], [FindElement(x)] returns the first
    node whose value is [x], the one followed by the nodes of the
    elements after that occurrence.  When [x] is not in the list it
    returns [nullptr] only for the empty list: otherwise it returns the
    last node, whose value is not [x]. *)
Theorem List_FindElement_result h l xs (x : T) :
  holds h l xs ->
  (x ∉ xs ->
     FindElement x h l = Some (match xs with [] => None | _ :: _ => GetBack l end)) /\
  (forall pre post, xs = pre ++ x :: post -> x ∉ pre ->
     exists (a : nat) q ps,
       FindElement x h l = Some (Some a) /\
       load h (Some a) = Some (mkNode x q) /\ chain h q ps post).
Proof.
  intros (a0 & v0 & q & ps & Hhead & H0 & Hc & Hnd & Htail & Hsize).
  assert (Hfuel : (length ps <= length h)%nat).
  { apply (chain_fuel h q ps xs); [assumption|]. apply NoDup_cons in Hnd as [_ Hnd]. assumption. }
  apply NoDup_cons in Hnd as [Hnot0 Hnd].
  unfold FindElement, GetBack. rewrite Hhead. split.
  - intros Hx. rewrite (FindElement_loop_absent ps h a0 v0 q xs x _ H0 Hc Hx Hfuel). cbn [bind].
    destruct ps as [|a ps]; destruct xs as [|y xs]; simpl in Hc; try contradiction.
    + rewrite bool_decide_eq_true_2 by reflexivity. reflexivity.
    + rewrite Htail. rewrite bool_decide_eq_false_2; [reflexivity|].
      assert (Hl : List.last (a :: ps) a0 ∈ a :: ps) by (rewrite last_cons; apply last_elem).
      intros Heq. assert (E : List.last (a :: ps) a0 = a0) by congruence.
      rewrite E in Hl. contradiction.
  - intros pre post -> Hx.
    destruct (FindElement_loop_present pre ps h a0 v0 q post x _ H0 Hc Hx Hfuel)
      as (a & q' & ps' & Hin & Hrun & Ha & Hc').
    exists a, q', ps'. rewrite Hrun. cbn [bind].
    rewrite bool_decide_eq_false_2 by (intros Heq; injection Heq as ->; contradiction).
    auto.
Qed.

(** X27: on a list that holds [xs], [RemoveElement(x)] unlinks the
    first node whose value is [x] and returns true; the list then holds
    the other elements in their order.  When [x] is not in the list it
    returns false and leaves the nodes as they are, but still decrements
    [m_size], which then no longer is the number of elements (on the
    empty list it wraps to [2^64 - 1]). *)
Theorem List_RemoveElement_result h l xs (x : T) :
  holds h l xs -> Z.of_nat (length xs) <= 2 ^ 64 ->
  (forall pre post, xs = pre ++ x :: post -> x ∉ pre ->
     exists h' l',
       RemoveElement x h l = Some (h', l', true) /\ holds h' l' (pre ++ post)) /\
  (x ∉ xs ->
     exists l',
       RemoveElement x h l = Some (h, l', false) /\
       GetHead l' = GetHead l /\ GetBack l' = GetBack l /\
       GetSize l' = (if decide (length xs = 0%nat) then 2 ^ 64 - 1
                     else Z.of_nat (length xs) - 1)).
Proof.
  intros (a0 & v0 & q & ps & Hhead & H0 & Hc & Hnd & Htail & Hsize) Hbound.
  assert (Hfuel : (length ps <= length h)%nat).
  { apply (chain_fuel h q ps xs); [assumption|]. apply NoDup_cons in Hnd as [_ Hnd]. assumption. }
  unfold RemoveElement. rewrite Hhead. split.
  - intros pre post -> Hx.
    destruct (RemoveElement_loop_present pre ps h l a0 v0 q post x _ H0 Hc Hnd Hx Hfuel)
      as (h' & l' & q' & ps' & Hrun & Ha & Hc' & Hnd' & Hsub & Hframe & Hh & Hs & Ht1 & Ht2).
    rewrite Hrun. cbn [bind]. eexists _, _. split; [reflexivity|].
    exists a0, v0, q', ps'. cbn [set_size m_head m_tail m_size].
    split; [congruence|]. split; [assumption|]. split; [assumption|]. split; [assumption|].
    split.
    + destruct post as [|z post].
      * apply Ht1. reflexivity.
      * destruct Ht2 as [Ht Hlast]; [discriminate|]. rewrite Ht, Hlast. assumption.
    + rewrite Hs, Hsize. rewrite !length_app in *. simpl length in *.
      unfold U64. rewrite Z.mod_small; lia.
  - intros Hx. rewrite (RemoveElement_loop_absent ps h l a0 v0 q xs x _ H0 Hc Hx Hfuel).
    cbn [bind]. eexists. split; [reflexivity|].
    unfold GetHead, GetBack, GetSize. cbn [set_size m_head m_tail m_size].
    split; [reflexivity|]. split; [reflexivity|]. rewrite Hsize. unfold U64.
    destruct (decide (length xs = 0%nat)) as [->|Hne]; [reflexivity|].
    rewrite Z.mod_small; lia.
Qed.

(** X28: [Clear()] frees every element node and leaves an empty list
    of size 0, but does not reset [m_tail].  After clearing a list that
    held elements, [GetBack()] is a freed node and [InsertBack] writes
    through it, so it has no defined result, while [InsertFront] gives a
    list that holds just the new element. *)
Theorem List_Clear_result h l xs :
  holds h l xs ->
  exists h' l',
    Clear h l = Some (h', l') /\
    IsEmpty h' l' = Some true /\ GetFront h' l' = Some None /\ GetSize l' = 0 /\
    GetBack l' = GetBack l /\
    (xs = [] -> holds h' l' []) /\
    (xs <> [] ->
       load h' (GetBack l') = None /\
       forall x : T, InsertBack indet indet_next x h' l' = None) /\
    (forall x : T, exists h'' l'' r,
       InsertFront indet indet_next x h' l' = Some (h'', l'', r) /\ holds h'' l'' [x]).
Proof.
  intros (a0 & v0 & q & ps & Hhead & H0 & Hc & Hnd & Htail & Hsize).
  assert (Hfuel : (length ps <= length h)%nat).
  { apply (chain_fuel h q ps xs); [assumption|]. apply NoDup_cons in Hnd as [_ Hnd]. assumption. }
  apply NoDup_cons in Hnd as [Hnot0 Hnd].
  destruct (Clear_loop_spec ps h q xs _ Hc Hnd Hfuel) as (h1 & Hrun & Hlen & Hfreed & Hframe).
  unfold Clear. rewrite Hhead, H0. cbn [bind next]. rewrite Hrun. cbn [bind].
  assert (H01 : load h1 (Some a0) = Some (mkNode v0 q)) by (rewrite Hframe; assumption).
  rewrite (set_next_ok _ _ _ None H01). cbn [bind value].
  set (h' := <[a0 := Some (mkNode v0 None)]> h1).
  assert (H0' : load h' (Some a0) = Some (mkNode v0 None)).
  { apply load_insert_eq. apply (load_lt _ _ _ H01). }
  exists h', (set_size l 0). split; [reflexivity|].
  unfold IsEmpty, GetFront, GetSize, GetBack. cbn [set_size m_head m_tail m_size].
  rewrite Hhead, H0'. cbn [bind next is_null].
  do 4 (split; [reflexivity|]). split; [|split].
  - intros ->. destruct ps; simpl in Hc; [|contradiction].
    exists a0, v0, None, []. cbn [set_size m_head m_tail m_size]. simpl.
    split; [assumption|]. split; [assumption|]. split; [reflexivity|].
    split; [apply NoDup_singleton|]. auto.
  - intros Hxs.
    assert (Hps : exists a ps', ps = a :: ps').
    { destruct ps as [|a ps']; [|eauto]. destruct xs; [congruence | contradiction]. }
    destruct Hps as (a & ps' & ->). rewrite Htail, last_cons.
    assert (Hin : List.last ps' a ∈ a :: ps') by apply last_elem.
    assert (Hdead : load h' (Some (List.last ps' a)) = None).
    { unfold h'. rewrite load_insert_ne by (intros ->; contradiction).
      apply Hfreed. assumption. }
    split; [assumption|]. intros x.
    assert (Hlt : (List.last ps' a < length h')%nat).
    { unfold h'. rewrite length_insert, Hlen. apply (chain_lt h q (a :: ps') xs); assumption. }
    unfold InsertBack, new_node.
    rewrite (set_value_ok _ _ _ x (load_fresh h' _)). cbn [bind next].
    set (h2 := <[length h' := Some (mkNode x indet_next)]>
                 (h' ++ [Some (mkNode indet indet_next)])).
    assert (Hl2 : load h2 (Some (length h')) = Some (mkNode x indet_next)).
    { apply load_insert_eq. rewrite length_app. simpl. lia. }
    rewrite (set_next_ok _ _ _ None Hl2). cbn [bind value set_size m_tail].
    rewrite Htail, last_cons. unfold set_next.
    rewrite load_insert_ne by lia. unfold h2. rewrite load_insert_ne by lia.
    assert (Hdead' : load (h' ++ [Some (mkNode indet indet_next)]) (Some (List.last ps' a)) = None).
    { revert Hdead. unfold load, heap. cbn [bind]. rewrite lookup_app_l by assumption. auto. }
    rewrite Hdead'. reflexivity.
  - intros x.
    destruct (InsertFront_chain h' (set_size l 0) [] x a0 v0 None [])
      as (h'' & l'' & r & Hins & Hh'' & _);
      try reflexivity; try assumption;
      try apply NoDup_singleton; try congruence; try (simpl; lia).
    eauto.
Qed.

End Facts.

Lemma holds_7_9 : holds heap_7_9 list_7_9 [7; 9].
Proof.
  exists 0%nat, 0, (Some 1%nat), [1%nat; 2%nat].
  split; [reflexivity|]. split; [reflexivity|]. split.
  - simpl. split; [reflexivity|]. exists (Some 2%nat). split; [reflexivity|].
    split; [reflexivity|]. exists None. split; reflexivity.
  - split; [|split; reflexivity].
    apply (bool_decide_unpack _). vm_compute. exact I.
Defined.

Lemma holds_empty : holds heap_empty list_empty [].
Proof.
  exists 0%nat, 0, None, []. repeat split. apply NoDup_singleton.
Defined.

Lemma List_FindElement_result_witness :
  FindElement 8 heap_7_9 list_7_9 = Some (GetBack list_7_9) /\
  (exists (a : nat) q ps,
     FindElement 9 heap_7_9 list_7_9 = Some (Some a) /\
     load heap_7_9 (Some a) = Some (mkNode 9 q) /\ chain heap_7_9 q ps []).
Proof.
  split.
  - apply (List_FindElement_result heap_7_9 list_7_9 [7; 9] 8 holds_7_9).
    intros Hin. apply list_elem_of_lookup_1 in Hin as [[|[|i]] Hi]; discriminate Hi.
  - apply (List_FindElement_result heap_7_9 list_7_9 [7; 9] 9 holds_7_9) with (pre := [7]);
      [reflexivity|].
    intros Hin. apply list_elem_of_singleton in Hin. discriminate Hin.
Defined.

Lemma List_RemoveElement_result_witness :
  (exists h' l',
     RemoveElement 7 heap_7_9 list_7_9 = Some (h', l', true) /\ holds h' l' ([] ++ [9])) /\
  (exists l',
     RemoveElement 8 heap_7_9 list_7_9 = Some (heap_7_9, l', false) /\
     GetHead l' = GetHead list_7_9 /\ GetBack l' = GetBack list_7_9 /\
     GetSize l' = (if decide (length [7; 9] = 0%nat) then 2 ^ 64 - 1
                   else Z.of_nat (length [7; 9]) - 1)).
Proof.
  split.
  - apply (List_RemoveElement_result heap_7_9 list_7_9 [7; 9] 7 holds_7_9);
      [simpl; lia | reflexivity |].
    intros Hin. apply elem_of_nil in Hin. exact Hin.
  - apply (List_RemoveElement_result heap_7_9 list_7_9 [7; 9] 8 holds_7_9); [simpl; lia|].
    intros Hin. apply list_elem_of_lookup_1 in Hin as [[|[|i]] Hi]; discriminate Hi.
Defined.

Lemma List_Clear_result_witness :
  exists h' l',
    Clear heap_7_9 list_7_9 = Some (h', l') /\
    IsEmpty h' l' = Some true /\ GetFront h' l' = Some None /\ GetSize l' = 0 /\
    GetBack l' = GetBack list_7_9 /\
    ([7; 9] = [] -> holds h' l' []) /\
    ([7; 9] <> [] ->
       load h' (GetBack l') = None /\
       forall x : Z, InsertBack 0 None x h' l' = None) /\
    (forall x : Z, exists h'' l'' r,
       InsertFront 0 None x h' l' = Some (h'', l'', r) /\ holds h'' l'' [x]).
Proof. apply (List_Clear_result 0 None heap_7_9 list_7_9 [7; 9] holds_7_9). Defined.

End NtlListFacts.

Module StackQueueFacts.
Import NtlList NtlListFacts.

Section Facts.
Context {T : Type}.
Variable indet : T.
Variable indet_next : option nat.
Implicit Types (h : list (option (Node T))) (xs : list T).

(** X29: a stack is last in, first out.  On a stack that holds [xs],
    [Push(x)] gives one that holds [x :: xs]; when [xs] is [y :: ys],
    [Peek()] returns [y] and [Pop()] returns [y] and leaves [ys]; on the
    empty stack [Peek()] and [Pop()] read through a null pointer and
    have no defined result. *)
Theorem Stack_LIFO h (s : Stack.Stack) xs (x : T) :
  holds h (Stack.m_data s) xs -> Z.of_nat (length xs) + 1 < 2 ^ 64 ->
  (exists h' s',
     Stack.Push indet indet_next x h s = Some (h', s') /\
     holds h' (Stack.m_data s') (x :: xs) /\
     Stack.GetSize s' = Stack.GetSize s + 1) /\
  (forall y ys, xs = y :: ys ->
     Stack.Peek h s = Some y /\ Stack.IsEmpty h s = Some false /\
     exists h' s',
       Stack.Pop h s = Some (h', s', y) /\
       holds h' (Stack.m_data s') ys /\
       Stack.GetSize s' = Stack.GetSize s - 1) /\
  (xs = [] ->
     Stack.IsEmpty h s = Some true /\ Stack.Peek h s = None /\ Stack.Pop h s = None).
Proof.
  intros Hh Hbound. split; [|split].
  - destruct (InsertFront_holds indet indet_next h _ xs x Hh Hbound)
      as (h' & l' & r & Hrun & Hh' & Hs).
    unfold Stack.Push. rewrite Hrun. cbn [bind].
    exists h', (Stack.mkStack l'). auto.
  - intros y ys ->.
    destruct (front_node h _ ys y Hh) as (a & q & Hfront & Ha).
    unfold Stack.Peek, Stack.Pop, Stack.IsEmpty, IsEmpty.
    rewrite Hfront. cbn [bind]. rewrite Ha. cbn [bind value].
    split; [reflexivity|]. split.
    + unfold GetFront in Hfront. destruct (m_head (Stack.m_data s)) as [a0|]; [|discriminate].
      destruct (load h (Some a0)) as [n0|]; [|discriminate].
      cbn [bind] in *. injection Hfront as ->. reflexivity.
    + destruct (RemoveAfter_head_holds h _ ys y Hh) as (h' & l' & Hrun & Hh' & Hs);
        [simpl length in Hbound; lia|].
      rewrite Hrun. cbn [bind]. exists h', (Stack.mkStack l'). auto.
  - intros ->. pose proof (front_null h _ Hh) as Hfront.
    unfold Stack.Peek, Stack.Pop, Stack.IsEmpty, IsEmpty. rewrite Hfront. cbn [bind].
    split; [|split; reflexivity].
    unfold GetFront in Hfront. destruct (m_head (Stack.m_data s)) as [a0|]; [|discriminate].
    destruct (load h (Some a0)) as [n0|]; [|discriminate].
    cbn [bind] in *. injection Hfront as ->. reflexivity.
Qed.

(** X30: a queue is first in, first out.  On a queue that holds [xs],
    [Put(x)] gives one that holds [xs ++ [x]]; when [xs] is [y :: ys],
    [Peek()] returns [y] and [Get()] returns [y] and leaves [ys]; on the
    empty queue [Peek()] and [Get()] read through a null pointer and
    have no defined result. *)
Theorem Queue_FIFO h (qu : Queue.Queue) xs (x : T) :
  holds h (Queue.m_data qu) xs -> Z.of_nat (length xs) + 1 < 2 ^ 64 ->
  (exists h' qu',
     Queue.Put indet indet_next x h qu = Some (h', qu') /\
     holds h' (Queue.m_data qu') (xs ++ [x]) /\
     Queue.GetSize qu' = Queue.GetSize qu + 1) /\
  (forall y ys, xs = y :: ys ->
     Queue.Peek h qu = Some y /\ Queue.IsEmpty h qu = Some false /\
     exists h' qu',
       Queue.Get h qu = Some (h', qu', y) /\
       holds h' (Queue.m_data qu') ys /\
       Queue.GetSize qu' = Queue.GetSize qu - 1) /\
  (xs = [] ->
     Queue.IsEmpty h qu = Some true /\ Queue.Peek h qu = None /\ Queue.Get h qu = None).
Proof.
  intros Hh Hbound. split; [|split].
  - destruct (InsertBack_holds indet indet_next h _ xs x Hh Hbound)
      as (h' & l' & r & Hrun & Hh' & Hs).
    unfold Queue.Put. rewrite Hrun. cbn [bind].
    exists h', (Queue.mkQueue l'). auto.
  - intros y ys ->.
    destruct (front_node h _ ys y Hh) as (a & q & Hfront & Ha).
    unfold Queue.Peek, Queue.Get, Queue.IsEmpty, IsEmpty.
    rewrite Hfront. cbn [bind]. rewrite Ha. cbn [bind value].
    split; [reflexivity|]. split.
    + unfold GetFront in Hfront. destruct (m_head (Queue.m_data qu)) as [a0|]; [|discriminate].
      destruct (load h (Some a0)) as [n0|]; [|discriminate].
      cbn [bind] in *. injection Hfront as ->. reflexivity.
    + destruct (RemoveAfter_head_holds h _ ys y Hh) as (h' & l' & Hrun & Hh' & Hs);
        [simpl length in Hbound; lia|].
      rewrite Hrun. cbn [bind]. exists h', (Queue.mkQueue l'). auto.
  - intros ->. pose proof (front_null h _ Hh) as Hfront.
    unfold Queue.Peek, Queue.Get, Queue.IsEmpty, IsEmpty. rewrite Hfront. cbn [bind].
    split; [|split; reflexivity].
    unfold GetFront in Hfront. destruct (m_head (Queue.m_data qu)) as [a0|]; [|discriminate].
    destruct (load h (Some a0)) as [n0|]; [|discriminate].
    cbn [bind] in *. injection Hfront as ->. reflexivity.
Qed.

End Facts.

Lemma Stack_LIFO_witness :
  (exists h' s',
     Stack.Push 0 None 5 heap_7_9 (Stack.mkStack list_7_9) = Some (h', s') /\
     holds h' (Stack.m_data s') [5; 7; 9] /\
     Stack.GetSize s' = Stack.GetSize (Stack.mkStack list_7_9) + 1) /\
  (Stack.Peek heap_7_9 (Stack.mkStack list_7_9) = Some 7 /\
   Stack.IsEmpty heap_7_9 (Stack.mkStack list_7_9) = Some false /\
   exists h' s',
     Stack.Pop heap_7_9 (Stack.mkStack list_7_9) = Some (h', s', 7) /\
     holds h' (Stack.m_data s') [9] /\
     Stack.GetSize s' = Stack.GetSize (Stack.mkStack list_7_9) - 1) /\
  (Stack.IsEmpty heap_empty (Stack.mkStack list_empty) = Some true /\
   Stack.Peek heap_empty (Stack.mkStack list_empty) = None /\
   Stack.Pop heap_empty (Stack.mkStack list_empty) = None).
Proof.
  split; [|split].
  - apply (Stack_LIFO 0 None heap_7_9 (Stack.mkStack list_7_9) [7; 9] 5 holds_7_9).
    simpl. lia.
  - apply (Stack_LIFO 0 None heap_7_9 (Stack.mkStack list_7_9) [7; 9] 5 holds_7_9);
      [simpl; lia | reflexivity].
  - apply (Stack_LIFO 0 None heap_empty (Stack.mkStack list_empty) [] 5 holds_empty);
      [simpl; lia | reflexivity].
Defined.

Lemma Queue_FIFO_witness :
  (exists h' qu',
     Queue.Put 0 None 5 heap_7_9 (Queue.mkQueue list_7_9) = Some (h', qu') /\
     holds h' (Queue.m_data qu') ([7; 9] ++ [5]) /\
     Queue.GetSize qu' = Queue.GetSize (Queue.mkQueue list_7_9) + 1) /\
  (Queue.Peek heap_7_9 (Queue.mkQueue list_7_9) = Some 7 /\
   Queue.IsEmpty heap_7_9 (Queue.mkQueue list_7_9) = Some false /\
   exists h' qu',
     Queue.Get heap_7_9 (Queue.mkQueue list_7_9) = Some (h', qu', 7) /\
     holds h' (Queue.m_data qu') [9] /\
     Queue.GetSize qu' = Queue.GetSize (Queue.mkQueue list_7_9) - 1) /\
  (Queue.IsEmpty heap_empty (Queue.mkQueue list_empty) = Some true /\
   Queue.Peek heap_empty (Queue.mkQueue list_empty) = None /\
   Queue.Get heap_empty (Queue.mkQueue list_empty) = None).
Proof.
  split; [|split].
  - apply (Queue_FIFO 0 None heap_7_9 (Queue.mkQueue list_7_9) [7; 9] 5 holds_7_9).
    simpl. lia.
  - apply (Queue_FIFO 0 None heap_7_9 (Queue.mkQueue list_7_9) [7; 9] 5 holds_7_9);
      [simpl; lia | reflexivity].
  - apply (Queue_FIFO 0 None heap_empty (Queue.mkQueue list_empty) [] 5 holds_empty);
      [simpl; lia | reflexivity].
Defined.

End StackQueueFacts.
